(** * Streaming multipart upload: part planning, chunk hashing, orchestration

    A shallow embedding of [optimalPartInfo], [completedParts], [hashCopyN]
    and [PutStream] of main.go, with the properties of the specification
    that concern them.

    Conventions.
    - Go's [int64] and [int] (taken as 64 bits wide) are [Z] with the
      two's-complement wrap-around [wrap64] written at every operation that
      can leave the range.
    - Go's [float64] is IEEE 754 binary64, given by [SpecFloat] at precision
      53 and maximal exponent 1024.
    - Go's [error] results are [option error]: [None] is [nil].
    - Messages printed with [fmt.Println] are not part of the model. *)

From Stdlib Require Import ZArith Lia.
From Stdlib Require Import Floats.SpecFloat.
From stdpp Require Import gmap strings list sorting.

Open Scope Z_scope.

(** ** Machine integers *)

Definition wrap64 (z : Z) : Z := (z + 2 ^ 63) mod 2 ^ 64 - 2 ^ 63.

Definition int64_range (z : Z) : Prop := - 2 ^ 63 <= z < 2 ^ 63.

Definition add64 (a b : Z) : Z := wrap64 (a + b).
Definition sub64 (a b : Z) : Z := wrap64 (a - b).
Definition mul64 (a b : Z) : Z := wrap64 (a * b).

(** Go's integer division truncates towards zero; [int64 / constant] cannot
    overflow for a divisor other than -1. *)
Definition div64 (a b : Z) : Z := wrap64 (Z.quot a b).

(** ** binary64 floating point *)

Module F64.

Definition prec : Z := 53.
Definition emax : Z := 1024.

Definition float64 : Type := spec_float.

(** [float64(i)] for an integer [i]: rounded to nearest, ties to even. *)
Definition of_int (i : Z) : float64 := binary_normalize prec emax i 0 false.

Definition div (x y : float64) : float64 := SFdiv prec emax x y.
Definition mul (x y : float64) : float64 := SFmul prec emax x y.

(** [math.Ceil]: the least integral value not below [x]; zeros, infinities
    and NaN are returned unchanged, and a negative argument above -1 gives
    the negative zero. *)
Definition Ceil (x : float64) : float64 :=
  match x with
  | S754_finite s m e =>
      if 0 <=? e then x
      else
        let k := 2 ^ (- e) in
        let q := Z.pos m / k in
        if s then binary_normalize prec emax (- q) 0 true
        else binary_normalize prec emax
               (if Z.pos m mod k =? 0 then q else q + 1) 0 false
  | _ => x
  end.

(** The integer part of a finite value, [None] for infinities and NaN. *)
Definition trunc (x : float64) : option Z :=
  match x with
  | S754_zero _ => Some 0
  | S754_finite s m e =>
      let a := if 0 <=? e then Z.pos m * 2 ^ e else Z.pos m / 2 ^ (- e) in
      Some (if s then - a else a)
  | _ => None
  end.

(** [int64(x)] and [int(x)]: the integer part when it fits in 64 bits.
    Otherwise the Go specification leaves the resulting value to the
    implementation; [conv] gives that value (amd64 yields the minimal
    integer, arm64 saturates). *)
Definition to_int (conv : float64 -> Z) (x : float64) : Z :=
  match trunc x with
  | Some v => if (- 2 ^ 63 <=? v) && (v <? 2 ^ 63) then v else wrap64 (conv x)
  | None => wrap64 (conv x)
  end.

End F64.

(** The conversion of an unrepresentable value on amd64. *)
Definition amd64_conv (_ : F64.float64) : Z := - 2 ^ 63.

(** ** Errors *)

Inductive error : Type :=
  | EOF                                (* io.EOF *)
  | ErrUnexpectedEOF                   (* io.ErrUnexpectedEOF *)
  | MissingPartNumber (i : Z)          (* fmt.Errorf("Missing part number %d", i) *)
  | Fault (what : string).             (* any other error of a collaborator *)

#[global] Instance error_eq_dec : EqDecision error.
Proof. solve_decision. Defined.

(** ** PartPlanner *)

Definition maxPartsCount : Z := 10000.
Definition minPartSize : Z := 1024 * 1024 * 64.
Definition maxMultipartPutObjectSize : Z := 1024 * 1024 * 1024 * 640.

Section Planner.

Variable conv : F64.float64 -> Z.

Definition optimalPartInfo (objectSize : Z) : Z * Z * Z * option error :=
  let objectSize :=
    if objectSize =? -1 then maxMultipartPutObjectSize else objectSize in
  let partSizeFlt := F64.Ceil (F64.of_int (div64 objectSize maxPartsCount)) in
  let partSizeFlt :=
    F64.mul (F64.Ceil (F64.div partSizeFlt (F64.of_int minPartSize)))
            (F64.of_int minPartSize) in
  let totalPartsCount :=
    F64.to_int conv (F64.Ceil (F64.div (F64.of_int objectSize) partSizeFlt)) in
  let partSize := F64.to_int conv partSizeFlt in
  let lastPartSize :=
    sub64 objectSize (mul64 (sub64 totalPartsCount 1) partSize) in
  (totalPartsCount, partSize, lastPartSize, None).

End Planner.

(** ** Byte streams

    The model of the Go standard library that the program is linked with.
    A source stream delivers [rdata] and from then on answers every read with
    [rterm]: [EOF] for a stream that ends, another error for one that breaks.
    Each read fills the buffer it is handed as far as data remains. *)

Definition byte : Type := Byte.byte.

Record Reader : Type := { rdata : list byte; rterm : error }.

(** A destination is healthy ([wfault = None]: every write is accepted, as
    for [bytes.Buffer]) or broken ([wfault = Some e]: every write is refused
    with [e], no byte accepted). *)
Record Writer : Type := { wbytes : list byte; wfault : option error }.

Definition bytes_Buffer : Writer := {| wbytes := []; wfault := None |}.

Definition Reset (w : Writer) : Writer := {| wbytes := []; wfault := wfault w |}.

(** [hash.Hash]: [Write] feeds bytes and never fails, [Sum(nil)] is the
    digest of everything fed so far. *)
Record Hash : Type := { digest : list byte -> list byte; fed : list byte }.

Definition Hash_Write (p : list byte) (h : Hash) : Hash :=
  {| digest := digest h; fed := fed h ++ p |}.

Definition Hash_Sum (h : Hash) : list byte := digest h (fed h).

(** The first [n] elements of a list and the rest, [n] a machine integer. *)
Fixpoint splitAtZ {A : Type} (n : Z) (l : list A) : list A * list A :=
  match l with
  | [] => ([], [])
  | x :: l' =>
      if n <=? 0 then ([], l)
      else let '(a, b) := splitAtZ (n - 1) l' in (x :: a, b)
  end.

Definition lengthZ {A : Type} (l : list A) : Z := Z.of_nat (length l).

(** The size of the transfer buffer of [io.Copy]. *)
Definition copyBufferSize : Z := 32 * 1024.

(** [io.CopyN(io.MultiWriter(dst, hashes...), src, n)]: copies [n] bytes, or
    fewer when the source ends or breaks first or the destination refuses a
    write. The error is [nil] exactly when [n] bytes were written; a source
    that ends early gives [io.EOF]. [dst] comes first among the writers, so
    a write it refuses reaches no hash. *)
Definition io_CopyN (dst : Writer) (hashes : gmap string Hash) (src : Reader) (n : Z)
  : Z * option error * Writer * gmap string Hash * Reader :=
  if n <=? 0 then (0, None, dst, hashes, src)
  else
    match rdata src with
    | [] => (0, Some (rterm src), dst, hashes, src)
    | _ :: _ =>
        match wfault dst with
        | Some e =>
            let '(_, rest) := splitAtZ (Z.min n copyBufferSize) (rdata src) in
            (0, Some e, dst, hashes, {| rdata := rest; rterm := rterm src |})
        | None =>
            let '(chunk, rest) := splitAtZ n (rdata src) in
            let written := lengthZ chunk in
            (written,
             if written =? n then None else Some (rterm src),
             {| wbytes := wbytes dst ++ chunk; wfault := None |},
             Hash_Write chunk <$> hashes,
             {| rdata := rest; rterm := rterm src |})
        end
    end.

(** ** ChunkHasher *)

Record hashCopyN_result : Type := {
  hc_size : Z;
  hc_err : option error;
  hc_hashSums : gmap string (list byte);  (* the out-parameter after the call *)
  hc_writer : Writer;
  hc_hashAlgorithms : gmap string Hash;
  hc_reader : Reader
}.

(** [err != nil && err != io.EOF] *)
Definition is_fault (err : option error) : bool :=
  match err with
  | Some e => negb (bool_decide (e = EOF))
  | None => false
  end.

Definition hashCopyN (hashAlgorithms : gmap string Hash)
    (hashSums : gmap string (list byte)) (writer : Writer) (reader : Reader)
    (partSize : Z) : hashCopyN_result :=
  let '(size, err, writer', hashAlgorithms', reader') :=
    io_CopyN writer hashAlgorithms reader partSize in
  if is_fault err then
    {| hc_size := 0; hc_err := err; hc_hashSums := hashSums;
       hc_writer := writer'; hc_hashAlgorithms := hashAlgorithms';
       hc_reader := reader' |}
  else
    {| hc_size := size; hc_err := err;
       hc_hashSums := (Hash_Sum <$> hashAlgorithms') ∪ hashSums;
       hc_writer := writer'; hc_hashAlgorithms := hashAlgorithms';
       hc_reader := reader' |}.

(** ** The object store client *)

Module ObjectPart.
Record t : Type := { PartNumber : Z; ETag : string; Size : Z }.
End ObjectPart.

Module CompletePart.
Record t : Type := { PartNumber : Z; ETag : string }.
End CompletePart.

(** The collaborator behind [minio.Core]. A response is a function of the
    arguments of the call; part numbers grow from call to call, so this
    covers a store whose answers change over time. *)
Record Store : Type := {
  NewV2 : string -> string -> string -> bool -> option error;
  NewMultipartUpload :
    string -> string -> gmap string (list string) -> string + error;
  PutObjectPart :
    string -> string -> string -> Z -> Z -> list byte -> list byte -> list byte ->
    ObjectPart.t + error;
  CompleteMultipartUpload :
    string -> string -> string -> list CompletePart.t -> option error
}.

(** What was asked of the store, in order; a part transfer with its answer. *)
Inductive call : Type :=
  | call_NewMultipartUpload
  | call_PutObjectPart (partNumber size : Z) (data md5Sum sha256Sum : list byte)
      (answer : ObjectPart.t + error)
  | call_CompleteMultipartUpload (parts : list CompletePart.t).

(** ** completedParts *)

Definition Less (x y : CompletePart.t) : bool :=
  CompletePart.PartNumber x <? CompletePart.PartNumber y.

(** [sort.Sort] promises an ordered rearrangement and nothing on the order
    of equal elements; insertion by [Less] stands for it. *)
Fixpoint sort_insert (x : CompletePart.t) (l : list CompletePart.t)
  : list CompletePart.t :=
  match l with
  | [] => [x]
  | y :: l' => if Less x y then x :: l else y :: sort_insert x l'
  end.

Definition sort_Sort (l : list CompletePart.t) : list CompletePart.t :=
  foldr sort_insert [] l.

(** ** completedParts as a [sort.Interface]

    [a[i]]: an index out of range is a run-time panic, [None] here. *)
Definition index {A : Type} (a : list A) (i : Z) : option A :=
  if i <? 0 then None else a !! Z.to_nat i.

Definition Len (a : list CompletePart.t) : Z := lengthZ a.

(** [a[i], a[j] = a[j], a[i]]: both right-hand sides are read before the
    first assignment. *)
Definition Swap (a : list CompletePart.t) (i j : Z) : option (list CompletePart.t) :=
  match index a i, index a j with
  | Some x, Some y => Some (<[Z.to_nat j := x]> (<[Z.to_nat i := y]> a))
  | _, _ => None
  end.

(** [a.Less(i, j)], the comparison [Less] of the two elements. *)
Definition Less_at (a : list CompletePart.t) (i j : Z) : option bool :=
  match index a i, index a j with
  | Some x, Some y => Some (Less x y)
  | _, _ => None
  end.

(** ** UploadOrchestrator *)

(** The [return] statements of [PutStream], in source order. *)
Inductive return_site : Type :=
  | ret_NewV2_failed
  | ret_NewMultipartUpload_failed
  | ret_optimalPartInfo_failed
  | ret_read_failed
  | ret_PutObjectPart_failed
  | ret_short_object
  | ret_missing_part
  | ret_completed.

#[global] Instance return_site_eq_dec : EqDecision return_site.
Proof. solve_decision. Defined.

(** What [PutStream] returns, with what it asked of the store and what the
    temporary buffer holds at that moment (nothing before it is made). *)
Record Return : Type := {
  ret_n : Z;
  ret_err : option error;
  ret_site : return_site;
  ret_calls : list call;
  ret_tmpBuffer : list byte
}.

Record LoopState : Type := {
  partNumber : Z;
  totalUploadedSize : Z;
  partsInfo : gmap Z ObjectPart.t;
  tmpBuffer : Writer;
  reader : Reader;
  calls : list call
}.

(** [minio.CompletePart{ETag: part.ETag, PartNumber: part.PartNumber}] *)
Definition to_CompletePart (part : ObjectPart.t) : CompletePart.t :=
  {| CompletePart.ETag := ObjectPart.ETag part;
     CompletePart.PartNumber := ObjectPart.PartNumber part |}.

(** The loop of the finalize step: parts [i], [i+1], ... [count] of them. *)
Fixpoint collectParts (partsInfo : gmap Z ObjectPart.t) (i : Z) (count : nat)
    (Parts : list CompletePart.t) : error + list CompletePart.t :=
  match count with
  | O => inr Parts
  | S count' =>
      match partsInfo !! i with
      | None => inl (MissingPartNumber i)
      | Some part =>
          collectParts partsInfo (i + 1) count' (Parts ++ [to_CompletePart part])
      end
  end.

Section Orchestrator.

Variable conv : F64.float64 -> Z.
(** [md5.New()] and [sha256.New()] *)
Variables md5_New sha256_New : Hash.
(** [os.Getenv] *)
Variable Getenv : string -> string.
Variable c : Store.

Section Upload.

Variables bucketName objectName uploadID : string.
Variables totalPartsCount partSize size : Z.

(** One turn of the part loop: a return, or the next state and whether
    the loop is left by [break]. *)
Definition partIteration (st : LoopState) : Return + LoopState * bool :=
  let hashSums : gmap string (list byte) := ∅ in
  let hashAlgos : gmap string Hash :=
    <["sha256" := sha256_New]> (<["md5" := md5_New]> ∅) in
  let r := hashCopyN hashAlgos hashSums (tmpBuffer st) (reader st) partSize in
  let prtSize := hc_size r in
  let rErr := hc_err r in
  if is_fault rErr then
    inl {| ret_n := 0; ret_err := rErr; ret_site := ret_read_failed;
           ret_calls := calls st;
           ret_tmpBuffer := wbytes (hc_writer r) |}
  else
    let data := wbytes (hc_writer r) in
    let md5Sum := default [] (hc_hashSums r !! "md5") in
    let sha256Sum := default [] (hc_hashSums r !! "sha256") in
    let answer :=
      PutObjectPart c bucketName objectName uploadID (partNumber st)
        prtSize data md5Sum sha256Sum in
    let calls' :=
      calls st ++
      [call_PutObjectPart (partNumber st) prtSize data md5Sum sha256Sum answer] in
    match answer with
    | inr err =>
        inl {| ret_n := totalUploadedSize st; ret_err := Some err;
               ret_site := ret_PutObjectPart_failed;
               ret_calls := calls';
               ret_tmpBuffer := wbytes (Reset (hc_writer r)) |}
    | inl objPart =>
        inr ({| partNumber := add64 (partNumber st) 1;
                totalUploadedSize := add64 (totalUploadedSize st) prtSize;
                partsInfo := <[partNumber st := objPart]> (partsInfo st);
                tmpBuffer := Reset (hc_writer r);
                reader := hc_reader r;
                calls := calls' |},
             (size <? 0) && bool_decide (rErr = Some EOF))
    end.

(** [for partNumber <= totalPartsCount { ... }]; the part number grows
    by one each turn, so [fuel] turns suffice when it is the number of
    part numbers left. *)
Fixpoint partLoop (fuel : nat) (st : LoopState) : Return + LoopState :=
  match fuel with
  | O => inr st
  | S fuel' =>
      if totalPartsCount <? partNumber st then inr st
      else
        match partIteration st with
        | inl r => inl r
        | inr (st', true) => inr st'
        | inr (st', false) => partLoop fuel' st'
        end
  end.

(** The size check and the finalize step. *)
Definition finalize (st : LoopState) : Return :=
  if (0 <? size) && negb (totalUploadedSize st =? size) then
    {| ret_n := totalUploadedSize st; ret_err := Some ErrUnexpectedEOF;
       ret_site := ret_short_object; ret_calls := calls st;
       ret_tmpBuffer := wbytes (tmpBuffer st) |}
  else
    match collectParts (partsInfo st) 1 (Z.to_nat (partNumber st - 1)) [] with
    | inl e =>
        {| ret_n := 0; ret_err := Some e; ret_site := ret_missing_part;
           ret_calls := calls st; ret_tmpBuffer := wbytes (tmpBuffer st) |}
    | inr Parts =>
        let Parts := sort_Sort Parts in
        {| ret_n := totalUploadedSize st;
           ret_err := CompleteMultipartUpload c bucketName objectName uploadID Parts;
           ret_site := ret_completed;
           ret_calls := calls st ++ [call_CompleteMultipartUpload Parts];
           ret_tmpBuffer := wbytes (tmpBuffer st) |}
    end.

End Upload.

Definition PutStream (bucketName objectName : string) (reader : Reader)
    (metaData : gmap string (list string)) : Return :=
  let ssl := bool_decide (Getenv "SSL" ≠ "") in
  match NewV2 c (Getenv "S3_ADDRESS") (Getenv "ACCESS_KEY") (Getenv "SECRET_KEY") ssl with
  | Some err =>
      {| ret_n := 0; ret_err := Some err; ret_site := ret_NewV2_failed;
         ret_calls := []; ret_tmpBuffer := [] |}
  | None =>
      match NewMultipartUpload c bucketName objectName metaData with
      | inr err =>
          {| ret_n := 0; ret_err := Some err;
             ret_site := ret_NewMultipartUpload_failed;
             ret_calls := [call_NewMultipartUpload]; ret_tmpBuffer := [] |}
      | inl uploadID =>
          let size := -1 in
          let '(totalPartsCount, partSize, _, err) := optimalPartInfo conv size in
          match err with
          | Some e =>
              {| ret_n := 0; ret_err := Some e;
                 ret_site := ret_optimalPartInfo_failed;
                 ret_calls := [call_NewMultipartUpload]; ret_tmpBuffer := [] |}
          | None =>
              let st :=
                {| partNumber := 1; totalUploadedSize := 0; partsInfo := ∅;
                   tmpBuffer := bytes_Buffer; reader := reader;
                   calls := [call_NewMultipartUpload] |} in
              match partLoop bucketName objectName uploadID totalPartsCount
                      partSize size (Z.to_nat totalPartsCount) st with
              | inl r => r
              | inr st' => finalize bucketName objectName uploadID size st'
              end
          end
      end
  end.

End Orchestrator.

(** ** Reading binary64 values

    [nothing_lost]: the bits shifted out of a mantissa so far were all
    zero. *)
Definition nothing_lost (mrs : shr_record) : Prop :=
  shr_r mrs = false /\ shr_s mrs = false.

(** The least exponent of binary64. *)
Definition emin64 : Z := -1074.

(** A positive binary64 value, by mantissa and exponent. *)
Definition fin (m e : Z) : F64.float64 := S754_finite false (Z.to_pos m) e.

(** The quotient rounded up. *)
Definition ceil_div (a b : Z) : Z := if a mod b =? 0 then a / b else a / b + 1.

(** ** Reading the record of calls *)

Definition is_put (x : call) : bool :=
  match x with call_PutObjectPart _ _ _ _ _ _ => true | _ => false end.

Definition put_number (x : call) : Z :=
  match x with call_PutObjectPart k _ _ _ _ _ => k | _ => 0 end.

Definition put_size (x : call) : Z :=
  match x with call_PutObjectPart _ sz _ _ _ _ => sz | _ => 0 end.

(** A part transfer that the store accepted. *)
Definition put_ok (x : call) : Prop :=
  match x with call_PutObjectPart _ _ _ _ _ (inl _) => True | _ => False end.

Definition sum_sizes (l : list call) : Z :=
  foldr (fun x acc => put_size x + acc) 0 l.

(** The digest a fresh hasher gives for a chunk. *)
Definition digest_of (fresh : Hash) (chunk : list byte) : list byte :=
  Hash_Sum (Hash_Write chunk fresh).

(** The state of the part loop between two turns: the store was asked for
    the parts 1, 2, ... below the current part number, once each and in this
    order, and accepted them all; their sizes add up to the running total;
    the answers are on record; the buffer is empty; the stream ends as it
    did at the start. *)
Definition loop_invariant (totalPartsCount partSize : Z) (term : error)
    (st : LoopState) : Prop :=
  exists puts,
    calls st = call_NewMultipartUpload :: puts
    /\ rterm (reader st) = term
    /\ Forall put_ok puts
    /\ put_number <$> puts = seqZ 1 (partNumber st - 1)
    /\ totalUploadedSize st = sum_sizes puts
    /\ 0 <= totalUploadedSize st <= (partNumber st - 1) * partSize
    /\ tmpBuffer st = bytes_Buffer
    /\ 1 <= partNumber st <= totalPartsCount + 1
    /\ (forall i, 1 <= i < partNumber st ->
        exists p sz d m s,
          partsInfo st !! i = Some p
          /\ In (call_PutObjectPart i sz d m s (inl p)) puts).

(** The two returns from inside the part loop, seen from the state [st] at
    the start of the turn that returns. *)
Definition read_failure (st : LoopState) (r : Return) : Prop :=
  ret_site r = ret_read_failed /\ ret_n r = 0
  /\ ret_err r = Some (rterm (reader st)) /\ rterm (reader st) <> EOF
  /\ ret_calls r = calls st /\ ret_tmpBuffer r = rdata (reader st).

Definition part_failure
    (answer_of : Z -> Z -> list byte -> list byte -> list byte -> ObjectPart.t + error)
    (st : LoopState) (r : Return) : Prop :=
  ret_site r = ret_PutObjectPart_failed /\ ret_n r = totalUploadedSize st
  /\ ret_tmpBuffer r = []
  /\ exists sz d m s e,
       answer_of (partNumber st) sz d m s = inr e
       /\ ret_err r = Some e
       /\ ret_calls r =
            calls st ++ [call_PutObjectPart (partNumber st) sz d m s (inr e)].

(** The records of the parts [i], [i+1], ... ([count] of them) that are
    there, as entries of the completion list. *)
Definition recorded_parts (partsInfo : gmap Z ObjectPart.t) (i : Z) (count : nat)
  : list CompletePart.t :=
  omap (fun j => to_CompletePart <$> partsInfo !! j) (seqZ i (Z.of_nat count)).

(** Ascending by part number. *)
Definition number_le (x y : CompletePart.t) : Prop :=
  CompletePart.PartNumber x <= CompletePart.PartNumber y.

(** The state in which [PutStream] enters the part loop. *)
Definition initial_state (src : Reader) : LoopState :=
  {| partNumber := 1; totalUploadedSize := 0; partsInfo := ∅;
     tmpBuffer := bytes_Buffer; reader := src;
     calls := [call_NewMultipartUpload] |}.

(** A store that always succeeds. *)
Definition always_succeeds (c : Store) : Prop :=
  (forall endpoint accessKey secretKey ssl,
     NewV2 c endpoint accessKey secretKey ssl = None)
  /\ (forall bucketName objectName metaData,
        exists uploadID,
          NewMultipartUpload c bucketName objectName metaData = inl uploadID)
  /\ (forall bucketName objectName uploadID k sz d m s,
        exists p, PutObjectPart c bucketName objectName uploadID k sz d m s = inl p)
  /\ (forall bucketName objectName uploadID Parts,
        CompleteMultipartUpload c bucketName objectName uploadID Parts = None).

(** A store that refuses nothing, except possibly an empty part. *)
Definition accepts_nonempty_parts (c : Store) : Prop :=
  (forall endpoint accessKey secretKey ssl,
     NewV2 c endpoint accessKey secretKey ssl = None)
  /\ (forall bucketName objectName metaData,
        exists uploadID,
          NewMultipartUpload c bucketName objectName metaData = inl uploadID)
  /\ (forall bucketName objectName uploadID k sz d m s,
        0 < sz ->
        exists p, PutObjectPart c bucketName objectName uploadID k sz d m s = inl p).

(** The plan [PutStream] makes: the part count that caps the loop and the
    part size. *)
Definition planned_count (conv : F64.float64 -> Z) : Z :=
  fst (fst (fst (optimalPartInfo conv (-1)))).

Definition planned_size (conv : F64.float64 -> Z) : Z :=
  snd (fst (fst (optimalPartInfo conv (-1)))).

(** ** Reading the part transfers on a record of calls *)

Definition put_data (x : call) : list byte :=
  match x with call_PutObjectPart _ _ d _ _ _ => d | _ => [] end.

(** The entry of the completion list that an accepted part transfer
    gives. *)
Definition put_part (x : call) : option CompletePart.t :=
  match x with
  | call_PutObjectPart _ _ _ _ _ (inl p) => Some (to_CompletePart p)
  | _ => None
  end.

(** The part transfers among the calls. *)
Definition part_calls (l : list call) : list call :=
  filter (fun x => is_put x = true) l.

(** The bytes that the store accepted. *)
Definition accepted_size (x : call) : Z :=
  match x with call_PutObjectPart _ sz _ _ _ (inl _) => sz | _ => 0 end.

Definition accepted_bytes (l : list call) : Z :=
  foldr (fun x acc => accepted_size x + acc) 0 l.

(** A part transfer as the part loop makes it: the bytes are a chunk of at
    most [partSize] bytes, the size is their count and the digests are those
    of fresh hashers over them. *)
Definition chunk_put (md5_New sha256_New : Hash) (partSize : Z) (x : call) : Prop :=
  match x with
  | call_PutObjectPart _ sz d m s _ =>
      sz = lengthZ d /\ lengthZ d <= partSize
      /\ m = digest_of md5_New d /\ s = digest_of sha256_New d
  | _ => False
  end.

(** A part transfer on record with the answer that the store gave to it. *)
Definition put_answered (c : Store) (bucketName objectName uploadID : string)
    (x : call) : Prop :=
  match x with
  | call_PutObjectPart k sz d m s answer =>
      answer = PutObjectPart c bucketName objectName uploadID k sz d m s
  | _ => False
  end.

(** The state of the part loop between two turns, as to the bytes: the part
    transfers on record are full chunks, answered by the store, and the
    chunks in order, followed by what the stream still holds, are the bytes
    of the stream. *)
Definition stream_invariant (c : Store) (bucketName objectName uploadID : string)
    (md5_New sha256_New : Hash) (partSize : Z)
    (data : list byte) (st : LoopState) : Prop :=
  exists puts,
    calls st = call_NewMultipartUpload :: puts
    /\ Forall (chunk_put md5_New sha256_New partSize) puts
    /\ Forall (put_answered c bucketName objectName uploadID) puts
    /\ Forall (fun x => put_size x = partSize) puts
    /\ concat (put_data <$> puts) ++ rdata (reader st) = data.

(** The state in which the loop is left by [break]: the stream ended in
    the last part, which is short; the chunks are the bytes of the stream. *)
Definition stream_ended (c : Store) (bucketName objectName uploadID : string)
    (md5_New sha256_New : Hash) (partSize : Z)
    (data : list byte) (st : LoopState) : Prop :=
  exists puts x,
    calls st = call_NewMultipartUpload :: puts ++ [x]
    /\ Forall (chunk_put md5_New sha256_New partSize) (puts ++ [x])
    /\ Forall (put_answered c bucketName objectName uploadID) (puts ++ [x])
    /\ Forall (fun x => put_size x = partSize) puts
    /\ put_size x < partSize
    /\ concat (put_data <$> puts ++ [x]) = data
    /\ rterm (reader st) = EOF.

(** ** Sample collaborators, to run the definitions on *)

Definition sample_Hash (tag : byte) : Hash :=
  {| digest := fun bs => tag :: bs; fed := [] |}.

Definition sample_bytes : list byte := [Byte.x61; Byte.x62; Byte.x63].

Definition sample_Getenv (_ : string) : string := "".

(** A store that refuses the parts picked by [refuses] and accepts the
    others; the answer to an accepted part carries the number asked for. *)
Definition sample_Store (refuses : Z -> bool) : Store :=
  {| NewV2 := fun _ _ _ _ => None;
     NewMultipartUpload := fun _ _ _ => inl "upload-1";
     PutObjectPart := fun _ _ _ partNumber size _ _ _ =>
       if refuses partNumber then inr (Fault "part refused")
       else
         inl {| ObjectPart.PartNumber := partNumber; ObjectPart.ETag := "etag";
                ObjectPart.Size := size |};
     CompleteMultipartUpload := fun _ _ _ _ => None |}.

Definition accepting_Store : Store := sample_Store (fun _ => false).

(** A store that refuses the part [part] alone. *)
Definition refusing_Store (part : Z) : Store := sample_Store (fun k => k =? part).

(** A store that refuses a part without bytes, as most stores do, and
    accepts every other. *)
Definition strict_Store : Store :=
  {| NewV2 := fun _ _ _ _ => None;
     NewMultipartUpload := fun _ _ _ => inl "upload-1";
     PutObjectPart := fun _ _ _ partNumber size _ _ _ =>
       if size =? 0 then inr (Fault "empty part")
       else
         inl {| ObjectPart.PartNumber := partNumber; ObjectPart.ETag := "etag";
                ObjectPart.Size := size |};
     CompleteMultipartUpload := fun _ _ _ _ => None |}.

Definition sample_PutStream (c : Store) (src : Reader) : Return :=
  PutStream amd64_conv (sample_Hash Byte.x01) (sample_Hash Byte.x02)
    sample_Getenv c "bucket" "object" src ∅.

(** A stream of 5120 parts of 128 MiB: as long as the plan for the unknown
    size allows. *)
Definition cap_stream : list byte :=
  replicate (Z.to_nat (5120 * 134217728)) Byte.x00.

(** A stream of exactly one part of 128 MiB. *)
Definition one_part_stream : list byte :=
  replicate (Z.to_nat 134217728) Byte.x00.

(** A stream that breaks three bytes after its first 128 MiB. *)
Definition broken_stream : Reader :=
  {| rdata := replicate (Z.to_nat 134217728) Byte.x00 ++ sample_bytes;
     rterm := Fault "connection reset" |}.

Ltac pow64 :=
  change (2 ^ 63) with 9223372036854775808 in *;
  change (2 ^ 64) with 18446744073709551616 in *.

(** * Properties *)

(** ** Machine integers *)

Lemma wrap64_id (z : Z) : int64_range z -> wrap64 z = z.
Proof.
  unfold int64_range, wrap64. pow64. intros H.
  rewrite Z.mod_small; lia.
Qed.

Lemma wrap64_range (z : Z) : int64_range (wrap64 z).
Proof.
  unfold int64_range, wrap64. pow64.
  pose proof (Z.mod_pos_bound (z + 9223372036854775808) 18446744073709551616).
  lia.
Qed.

(** [wrap64 z] differs from [z] by a multiple of 2^64. *)
Lemma wrap64_spec (z : Z) : exists k, wrap64 z = z + k * 2 ^ 64.
Proof.
  unfold wrap64. pow64.
  exists (- ((z + 9223372036854775808) / 18446744073709551616)).
  pose proof (Z.div_mod (z + 9223372036854775808) 18446744073709551616).
  lia.
Qed.

Lemma wrap64_shift (z k : Z) : wrap64 (z + k * 2 ^ 64) = wrap64 z.
Proof.
  unfold wrap64. pow64.
  replace (z + k * 18446744073709551616 + 9223372036854775808)
    with (z + 9223372036854775808 + k * 18446744073709551616) by lia.
  by rewrite Z_mod_plus_full.
Qed.

(** The wrap-around commutes with sums, differences and products. *)
Lemma wrap64_add_l (a b : Z) : wrap64 (wrap64 a + b) = wrap64 (a + b).
Proof.
  destruct (wrap64_spec a) as [k ->].
  replace (a + k * 2 ^ 64 + b) with (a + b + k * 2 ^ 64) by lia.
  apply wrap64_shift.
Qed.

Lemma wrap64_sub_r (a b : Z) : wrap64 (a - wrap64 b) = wrap64 (a - b).
Proof.
  destruct (wrap64_spec b) as [k ->].
  replace (a - (b + k * 2 ^ 64)) with (a - b + (- k) * 2 ^ 64) by lia.
  apply wrap64_shift.
Qed.

Lemma wrap64_mul_l (a b : Z) : wrap64 (wrap64 a * b) = wrap64 (a * b).
Proof.
  destruct (wrap64_spec a) as [k ->].
  replace ((a + k * 2 ^ 64) * b) with (a * b + (k * b) * 2 ^ 64) by lia.
  apply wrap64_shift.
Qed.

(** ** Splitting a list at a machine integer *)

Lemma splitAtZ_take_drop {A : Type} (l : list A) (n : Z) :
  splitAtZ n l = (take (Z.to_nat n) l, drop (Z.to_nat n) l).
Proof.
  revert n. induction l as [|x l IH]; intros n; simpl.
  - by rewrite take_nil, drop_nil.
  - destruct (Z.leb_spec n 0) as [Hn|Hn].
    + replace (Z.to_nat n) with O by lia. reflexivity.
    + rewrite IH. replace (Z.to_nat n) with (S (Z.to_nat (n - 1))) by lia.
      reflexivity.
Qed.

Lemma lengthZ_take {A : Type} (l : list A) (n : Z) :
  0 <= n -> lengthZ (take (Z.to_nat n) l) = Z.min n (lengthZ l).
Proof. unfold lengthZ. intros Hn. rewrite length_take. lia. Qed.

Lemma lengthZ_drop {A : Type} (l : list A) (n : Z) :
  0 <= n -> lengthZ (drop (Z.to_nat n) l) = Z.max 0 (lengthZ l - n).
Proof. unfold lengthZ. intros Hn. rewrite length_drop. lia. Qed.

Lemma lengthZ_nonneg {A : Type} (l : list A) : 0 <= lengthZ l.
Proof. unfold lengthZ. lia. Qed.

Lemma take_all_Z {A : Type} (l : list A) (n : Z) :
  lengthZ l <= n -> take (Z.to_nat n) l = l.
Proof. unfold lengthZ. intros H. apply take_ge. lia. Qed.

Lemma drop_all_Z {A : Type} (l : list A) (n : Z) :
  lengthZ l <= n -> drop (Z.to_nat n) l = [].
Proof. unfold lengthZ. intros H. apply drop_ge. lia. Qed.

(** ** Copying into a healthy destination *)

Lemma Hash_Write_nil (h : Hash) : Hash_Write [] h = h.
Proof. destruct h. unfold Hash_Write. simpl. by rewrite app_nil_r. Qed.

Lemma io_CopyN_healthy (dst : Writer) (hashes : gmap string Hash) (src : Reader) (n : Z) :
  0 < n -> wfault dst = None ->
  let chunk := take (Z.to_nat n) (rdata src) in
  io_CopyN dst hashes src n =
    (lengthZ chunk,
     if lengthZ (rdata src) <? n then Some (rterm src) else None,
     {| wbytes := wbytes dst ++ chunk; wfault := None |},
     Hash_Write chunk <$> hashes,
     {| rdata := drop (Z.to_nat n) (rdata src); rterm := rterm src |}).
Proof.
  intros Hn Hw chunk. unfold io_CopyN.
  destruct (Z.leb_spec n 0) as [?|_]; [lia|].
  destruct src as [data term]. destruct dst as [buf fault].
  simpl in *. subst fault chunk.
  destruct data as [|b data].
  - rewrite take_nil, drop_nil, app_nil_r. unfold lengthZ. simpl.
    change (Z.of_nat 0) with 0.
    destruct (Z.ltb_spec 0 n) as [_|?]; [|lia].
    assert (Hid : Hash_Write [] <$> hashes = hashes).
    { rewrite <- (map_fmap_id hashes) at 2.
      apply map_fmap_ext. intros ? h _. by rewrite Hash_Write_nil. }
    by rewrite Hid.
  - rewrite splitAtZ_take_drop.
    set (data' := b :: data).
    rewrite lengthZ_take by lia.
    pose proof (lengthZ_nonneg data').
    destruct (Z.ltb_spec (lengthZ data') n) as [Hlt|Hge].
    + destruct (Z.eqb_spec (Z.min n (lengthZ data')) n); [lia|reflexivity].
    + destruct (Z.eqb_spec (Z.min n (lengthZ data')) n); [reflexivity|lia].
Qed.

(** ** ChunkHasher *)

Lemma hashCopyN_healthy (hashAlgorithms : gmap string Hash)
    (hashSums : gmap string (list byte)) (writer : Writer) (reader : Reader)
    (partSize : Z) :
  0 < partSize -> wfault writer = None ->
  let chunk := take (Z.to_nat partSize) (rdata reader) in
  let short := lengthZ (rdata reader) <? partSize in
  let writer' := {| wbytes := wbytes writer ++ chunk; wfault := None |} in
  let reader' :=
    {| rdata := drop (Z.to_nat partSize) (rdata reader); rterm := rterm reader |} in
  hashCopyN hashAlgorithms hashSums writer reader partSize =
    if short && negb (bool_decide (rterm reader = EOF)) then
      {| hc_size := 0; hc_err := Some (rterm reader); hc_hashSums := hashSums;
         hc_writer := writer';
         hc_hashAlgorithms := Hash_Write chunk <$> hashAlgorithms;
         hc_reader := reader' |}
    else
      {| hc_size := lengthZ chunk;
         hc_err := if short then Some (rterm reader) else None;
         hc_hashSums := (Hash_Sum <$> (Hash_Write chunk <$> hashAlgorithms)) ∪ hashSums;
         hc_writer := writer';
         hc_hashAlgorithms := Hash_Write chunk <$> hashAlgorithms;
         hc_reader := reader' |}.
Proof.
  intros Hn Hw. simpl. unfold hashCopyN.
  rewrite io_CopyN_healthy by assumption.
  destruct (lengthZ (rdata reader) <? partSize); simpl; [|reflexivity].
  destruct (bool_decide (rterm reader = EOF)); reflexivity.
Qed.

(** Whatever the streams are, an error other than the end of the stream
    comes back with a zero count and an untouched digest map. *)
Lemma hashCopyN_fault (hashAlgorithms : gmap string Hash)
    (hashSums : gmap string (list byte)) (writer : Writer) (reader : Reader)
    (partSize : Z) (e : error) :
  let r := hashCopyN hashAlgorithms hashSums writer reader partSize in
  hc_err r = Some e -> e <> EOF -> hc_size r = 0 /\ hc_hashSums r = hashSums.
Proof.
  simpl. unfold hashCopyN.
  destruct (io_CopyN writer hashAlgorithms reader partSize)
    as [[[[sz err] w] hs] rd].
  destruct (is_fault err) eqn:Hf; simpl; [tauto|].
  intros -> Hne. unfold is_fault in Hf.
  rewrite negb_false_iff, bool_decide_eq_true in Hf. contradiction.
Qed.

(** C6: when the stream ends before the limit, [hashCopyN] returns the count
    of the bytes copied with [io.EOF] and puts the digest of every requested
    algorithm into the out-parameter; on a read fault, a write fault, and in
    general whenever the error it returns is not [io.EOF], the count is zero,
    the error is the fault and the out-parameter is as it was. *)
Theorem hashCopyN_end_of_stream_or_fault (hashAlgorithms : gmap string Hash)
    (hashSums : gmap string (list byte)) (writer : Writer) (reader : Reader)
    (partSize : Z) :
  0 < partSize ->
  let r := hashCopyN hashAlgorithms hashSums writer reader partSize in
  (wfault writer = None -> rterm reader = EOF ->
   lengthZ (rdata reader) < partSize ->
   hc_size r = lengthZ (rdata reader) /\ hc_err r = Some EOF /\
   wbytes (hc_writer r) = wbytes writer ++ rdata reader /\
   forall k h, hashAlgorithms !! k = Some h ->
               hc_hashSums r !! k = Some (digest h (fed h ++ rdata reader)))
  /\ (wfault writer = None -> rterm reader <> EOF ->
      lengthZ (rdata reader) < partSize ->
      hc_size r = 0 /\ hc_err r = Some (rterm reader) /\ hc_hashSums r = hashSums)
  /\ (forall e, wfault writer = Some e -> e <> EOF -> rdata reader <> [] ->
      hc_size r = 0 /\ hc_err r = Some e /\ hc_hashSums r = hashSums)
  /\ (forall e, hc_err r = Some e -> e <> EOF ->
      hc_size r = 0 /\ hc_hashSums r = hashSums).
Proof.
  intros Hn r. subst r.
  split; [|split; [|split]].
  - intros Hw Hterm Hlen. rewrite hashCopyN_healthy by assumption.
    destruct (Z.ltb_spec (lengthZ (rdata reader)) partSize); [|lia].
    rewrite Hterm. simpl. rewrite take_all_Z by lia.
    split; [reflexivity|]. split; [reflexivity|]. split; [reflexivity|].
    intros k h Hk. rewrite lookup_union, !lookup_fmap, Hk. simpl.
    by destruct (hashSums !! k).
  - intros Hw Hterm Hlen. rewrite hashCopyN_healthy by assumption.
    destruct (Z.ltb_spec (lengthZ (rdata reader)) partSize); [|lia].
    by rewrite bool_decide_eq_false_2.
  - intros e Hw He Hdata. unfold hashCopyN, io_CopyN.
    destruct (Z.leb_spec partSize 0); [lia|].
    destruct (rdata reader) eqn:Hd; [done|]. rewrite Hw.
    destruct (splitAtZ _ _). simpl. by rewrite bool_decide_eq_false_2.
  - intros e Herr He. eapply hashCopyN_fault; eassumption.
Qed.

Lemma hashCopyN_end_of_stream_or_fault_witness :
  0 < 5 /\
  let r := hashCopyN {[ "md5" := sample_Hash Byte.x01 ]} ∅ bytes_Buffer
             {| rdata := sample_bytes; rterm := EOF |} 5 in
  hc_size r = 3 /\ hc_err r = Some EOF /\
  hc_hashSums r !! "md5" = Some (Byte.x01 :: sample_bytes).
Proof.
  split; [lia|].
  destruct (hashCopyN_end_of_stream_or_fault
              {[ "md5" := sample_Hash Byte.x01 ]} ∅ bytes_Buffer
              {| rdata := sample_bytes; rterm := EOF |} 5 ltac:(lia))
    as [Heof _].
  destruct Heof as (Hs & He & _ & Hd); [reflexivity|reflexivity|vm_compute; reflexivity|].
  split; [exact Hs|]. split; [exact He|].
  apply (Hd "md5" (sample_Hash Byte.x01)). reflexivity.
Defined.

(** ** Rounding to binary64 *)

Lemma Zdigits2_bounds (p : positive) :
  2 ^ (Zdigits2 (Z.pos p) - 1) <= Z.pos p < 2 ^ Zdigits2 (Z.pos p).
Proof.
  unfold Zdigits2. induction p as [p IH|p IH|]; cbn [digits2_pos].
  - rewrite Pos2Z.inj_succ.
    replace (Z.succ (Z.pos (digits2_pos p)) - 1)
      with (Z.succ (Z.pos (digits2_pos p) - 1)) by lia.
    rewrite !Z.pow_succ_r by lia. lia.
  - rewrite Pos2Z.inj_succ.
    replace (Z.succ (Z.pos (digits2_pos p)) - 1)
      with (Z.succ (Z.pos (digits2_pos p) - 1)) by lia.
    rewrite !Z.pow_succ_r by lia. lia.
  - simpl. lia.
Qed.

Lemma Zdigits2_pos (p : positive) : 1 <= Zdigits2 (Z.pos p).
Proof. unfold Zdigits2. lia. Qed.

(** The number of digits of a number below a power of two. *)
Lemma Zdigits2_le (p : positive) (d : Z) :
  0 <= d -> Z.pos p < 2 ^ d -> Zdigits2 (Z.pos p) <= d.
Proof.
  intros Hd Hlt. destruct (Z.le_gt_cases (Zdigits2 (Z.pos p)) d) as [?|Hgt]; [assumption|].
  pose proof (Zdigits2_bounds p) as [Hlo _].
  assert (2 ^ d <= 2 ^ (Zdigits2 (Z.pos p) - 1)) by (apply Z.pow_le_mono_r; lia).
  lia.
Qed.

Lemma Zdigits2_ge (p : positive) (d : Z) :
  2 ^ (d - 1) <= Z.pos p -> d <= Zdigits2 (Z.pos p).
Proof.
  intros Hle. destruct (Z.le_gt_cases d (Zdigits2 (Z.pos p))) as [?|Hgt]; [assumption|].
  pose proof (Zdigits2_bounds p) as [_ Hhi]. pose proof (Zdigits2_pos p).
  assert (2 ^ Zdigits2 (Z.pos p) <= 2 ^ (d - 1)) by (apply Z.pow_le_mono_r; lia).
  lia.
Qed.

(** One step to the right: the mantissa is halved, and the step loses
    nothing when the mantissa was even and nothing had been lost before. *)
Lemma shr_1_m (mrs : shr_record) :
  0 <= shr_m mrs -> shr_m (shr_1 mrs) = shr_m mrs / 2.
Proof.
  destruct mrs as [m r s]. simpl. intros Hm.
  rewrite <- Z.div2_div.
  destruct m as [|[p|p|]|p]; try reflexivity. lia.
Qed.

Lemma shr_1_nothing_lost (mrs : shr_record) :
  0 <= shr_m mrs -> nothing_lost mrs -> shr_m mrs mod 2 = 0 ->
  nothing_lost (shr_1 mrs).
Proof.
  destruct mrs as [m r s]. unfold nothing_lost. simpl. intros Hm [-> ->] Hmod.
  destruct m as [|[p|p|]|p]; simpl; try (split; reflexivity); try lia.
  - rewrite Pos2Z.inj_xI in Hmod.
    rewrite Z.add_comm, Z.mul_comm, Z_mod_plus_full in Hmod. discriminate.
  - discriminate.
Qed.

Lemma iter_shr_1 (n : positive) : forall mrs : shr_record,
  0 <= shr_m mrs ->
  shr_m (SpecFloat.iter_pos shr_1 n mrs) = shr_m mrs / 2 ^ Z.pos n
  /\ (nothing_lost mrs -> shr_m mrs mod 2 ^ Z.pos n = 0 ->
      nothing_lost (SpecFloat.iter_pos shr_1 n mrs)).
Proof.
  induction n as [n IH|n IH|]; intros mrs Hm; cbn [SpecFloat.iter_pos].
  - pose proof (shr_1_m mrs Hm) as H1.
    assert (Hm1 : 0 <= shr_m (shr_1 mrs)) by (rewrite H1; apply Z.div_pos; lia).
    destruct (IH (shr_1 mrs) Hm1) as [H2 E2].
    assert (Hm2 : 0 <= shr_m (SpecFloat.iter_pos shr_1 n (shr_1 mrs)))
      by (rewrite H2; apply Z.div_pos; lia).
    destruct (IH _ Hm2) as [H3 E3].
    assert (Hpow : 2 ^ Z.pos n~1 = 2 * 2 ^ Z.pos n * 2 ^ Z.pos n).
    { replace (Z.pos n~1) with (Z.pos n + Z.pos n + 1) by lia.
      rewrite !Z.pow_add_r, Z.pow_1_r by lia. lia. }
    assert (Hp : 0 < 2 ^ Z.pos n) by (apply Z.pow_pos_nonneg; lia).
    split.
    + rewrite H3, H2, H1, Hpow, !Z.div_div by lia. f_equal. lia.
    + intros Hnl Hmod. apply E3.
      * apply E2; [apply shr_1_nothing_lost; try assumption|].
        -- rewrite Hpow in Hmod. apply Z.mod_divide in Hmod; [|lia].
           apply Z.mod_divide; [lia|].
           destruct Hmod as [k Hk]. exists (k * 2 ^ Z.pos n * 2 ^ Z.pos n). lia.
        -- rewrite H1. rewrite Hpow in Hmod. apply Z.mod_divide in Hmod; [|lia].
           destruct Hmod as [k Hk]. rewrite Hk.
           replace (k * (2 * 2 ^ Z.pos n * 2 ^ Z.pos n))
             with ((k * 2 ^ Z.pos n * 2 ^ Z.pos n) * 2) by lia.
           rewrite Z.div_mul by lia.
           replace (k * 2 ^ Z.pos n * 2 ^ Z.pos n)
             with ((k * 2 ^ Z.pos n) * 2 ^ Z.pos n) by lia.
           apply Z.mod_mul. lia.
      * rewrite H2, H1. rewrite Hpow in Hmod. apply Z.mod_divide in Hmod; [|lia].
        destruct Hmod as [k Hk]. rewrite Hk.
        replace (k * (2 * 2 ^ Z.pos n * 2 ^ Z.pos n))
          with ((k * 2 ^ Z.pos n * 2 ^ Z.pos n) * 2) by lia.
        rewrite Z.div_mul by lia.
        replace (k * 2 ^ Z.pos n * 2 ^ Z.pos n)
          with ((k * 2 ^ Z.pos n) * 2 ^ Z.pos n) by lia.
        rewrite Z.div_mul by lia. apply Z.mod_mul. lia.
  - destruct (IH mrs Hm) as [H2 E2].
    assert (Hm2 : 0 <= shr_m (SpecFloat.iter_pos shr_1 n mrs))
      by (rewrite H2; apply Z.div_pos; lia).
    destruct (IH _ Hm2) as [H3 E3].
    assert (Hp : 0 < 2 ^ Z.pos n) by (apply Z.pow_pos_nonneg; lia).
    assert (Hpow : 2 ^ Z.pos n~0 = 2 ^ Z.pos n * 2 ^ Z.pos n).
    { replace (Z.pos n~0) with (Z.pos n + Z.pos n) by lia.
      apply Z.pow_add_r; lia. }
    split.
    + rewrite H3, H2, Hpow, Z.div_div by lia. reflexivity.
    + intros Hnl Hmod. rewrite Hpow in Hmod. apply Z.mod_divide in Hmod; [|lia].
      destruct Hmod as [k Hk]. apply E3.
      * apply E2; [assumption|]. rewrite Hk.
        replace (k * (2 ^ Z.pos n * 2 ^ Z.pos n))
          with ((k * 2 ^ Z.pos n) * 2 ^ Z.pos n) by lia.
        apply Z.mod_mul. lia.
      * rewrite H2, Hk.
        replace (k * (2 ^ Z.pos n * 2 ^ Z.pos n))
          with ((k * 2 ^ Z.pos n) * 2 ^ Z.pos n) by lia.
        rewrite Z.div_mul by lia. apply Z.mod_mul. lia.
  - split.
    + rewrite shr_1_m by assumption. reflexivity.
    + intros Hnl Hmod. apply shr_1_nothing_lost; assumption.
Qed.

Lemma record_of_loc_m (m : Z) (l : location) : shr_m (shr_record_of_loc m l) = m.
Proof. by destruct l as [|[]]. Qed.

Lemma record_of_loc_exact (m : Z) : nothing_lost (shr_record_of_loc m loc_Exact).
Proof. by split. Qed.

Lemma loc_of_nothing_lost (mrs : shr_record) :
  nothing_lost mrs -> loc_of_shr_record mrs = loc_Exact.
Proof. destruct mrs as [m r s]. intros [Hr Hs]. simpl in *. by subst. Qed.

(** A shift by [n] places, if [n] is positive: the exponent grows by [n],
    the mantissa is divided by [2^n]; an exact value that is a multiple of
    [2^n] stays exact. *)
Lemma shr_spec (m : Z) (l : location) (e n : Z) :
  0 <= m ->
  let k := Z.max 0 n in
  snd (shr (shr_record_of_loc m l) e n) = e + k
  /\ shr_m (fst (shr (shr_record_of_loc m l) e n)) = m / 2 ^ k
  /\ (l = loc_Exact -> m mod 2 ^ k = 0 ->
      loc_of_shr_record (fst (shr (shr_record_of_loc m l) e n)) = loc_Exact).
Proof.
  intros Hm k. subst k. destruct n as [|n|n]; simpl.
  - rewrite record_of_loc_m, Z.div_1_r. repeat split; try lia.
    intros -> _. reflexivity.
  - destruct (iter_shr_1 n (shr_record_of_loc m l)) as [H1 H2].
    { by rewrite record_of_loc_m. }
    rewrite record_of_loc_m in H1, H2.
    repeat split; try assumption.
    intros -> Hmod. apply loc_of_nothing_lost, H2; [apply record_of_loc_exact|assumption].
  - rewrite record_of_loc_m, Z.div_1_r. repeat split; try lia.
    intros -> _. reflexivity.
Qed.

Lemma round_nearest_even_bounds (m : Z) (l : location) :
  m <= round_nearest_even m l <= m + 1.
Proof. destruct l as [|[]]; simpl; try lia. destruct (Z.even m); lia. Qed.

Lemma fexp_eq (e : Z) : fexp F64.prec F64.emax e = Z.max (e - 53) emin64.
Proof. reflexivity. Qed.

(** What rounding to the format does to a mantissa with its exponent and
    the position of the exact value next to it: the exponent becomes [e1],
    the mantissa is cut to [m1] and then, by the position, kept or raised
    by one; a value that fits the format is kept as it is. *)
Lemma binary_round_aux_spec (sx : bool) (mx ex : Z) (lx : location) :
  0 < mx ->
  let e1 := Z.max ex (fexp F64.prec F64.emax (Zdigits2 mx + ex)) in
  let m1 := mx / 2 ^ (e1 - ex) in
  exists m2,
    m1 <= m2 <= m1 + 1
    /\ (lx = loc_Exact -> mx mod 2 ^ (e1 - ex) = 0 -> m2 = m1)
    /\ binary_round_aux F64.prec F64.emax sx mx ex lx =
         if m2 =? 0 then S754_zero sx
         else if m2 <? 2 ^ 53 then
           if e1 <=? 971 then S754_finite sx (Z.to_pos m2) e1
           else S754_infinity sx
         else
           if e1 + 1 <=? 971 then S754_finite sx (Z.to_pos (2 ^ 52)) (e1 + 1)
           else S754_infinity sx.
Proof.
  intros Hmx e1 m1.
  set (n := fexp F64.prec F64.emax (Zdigits2 mx + ex) - ex).
  assert (He1 : e1 = ex + Z.max 0 n) by (subst e1 n; lia).
  destruct (shr_spec mx lx ex n ltac:(lia)) as (Hs1 & Hs2 & Hs3).
  unfold binary_round_aux, shr_fexp. fold n.
  destruct (shr (shr_record_of_loc mx lx) ex n) as [mrs' e'] eqn:Hshr.
  simpl in Hs1, Hs2, Hs3.
  assert (He' : e' = e1) by lia.
  assert (Hk : Z.max 0 n = e1 - ex) by lia. rewrite Hk in Hs2, Hs3.
  clear Hs1 He1 Hk. subst e'.
  fold m1 in Hs2.
  set (m2 := round_nearest_even (shr_m mrs') (loc_of_shr_record mrs')).
  exists m2.
  pose proof (round_nearest_even_bounds (shr_m mrs') (loc_of_shr_record mrs')) as Hb.
  fold m2 in Hb. rewrite Hs2 in Hb.
  assert (Hm1 : 0 <= m1 < 2 ^ 53).
  { destruct mx as [|p|p]; try lia.
    pose proof (Zdigits2_bounds p) as [_ Hhi]. pose proof (Zdigits2_pos p) as Hd.
    split; [apply Z.div_pos; [lia|apply Z.pow_pos_nonneg; lia]|].
    subst m1. apply Z.div_lt_upper_bound; [apply Z.pow_pos_nonneg; lia|].
    rewrite <- Z.pow_add_r by lia.
    eapply Z.lt_le_trans; [exact Hhi|].
    apply Z.pow_le_mono_r; [lia|]. subst e1. rewrite fexp_eq. lia. }
  assert (Hemin : emin64 <= e1) by (subst e1; rewrite fexp_eq; lia).
  split; [exact Hb|]. split.
  { intros Hl Hmod. subst m2. rewrite (Hs3 Hl Hmod). simpl. exact Hs2. }
  (* the second shift *)
  destruct (Z.eqb_spec m2 0) as [H0|H0].
  { rewrite H0. simpl Zdigits2.
    assert (Hn2 : fexp F64.prec F64.emax (0 + e1) - e1 <= 0)
      by (rewrite fexp_eq; lia).
    destruct (fexp F64.prec F64.emax (0 + e1) - e1) as [|q|q] eqn:Hq;
      try lia; reflexivity. }
  destruct (Z.ltb_spec m2 (2 ^ 53)) as [Hlt|Hge].
  - destruct m2 as [|p2|p2] eqn:Hm2; try lia.
    pose proof (Zdigits2_le p2 53 ltac:(lia) Hlt) as Hd2.
    pose proof (Zdigits2_pos p2) as Hd2'.
    assert (Hn2 : fexp F64.prec F64.emax (Zdigits2 (Z.pos p2) + e1) - e1 <= 0)
      by (rewrite fexp_eq; lia).
    destruct (fexp F64.prec F64.emax (Zdigits2 (Z.pos p2) + e1) - e1)
      as [|q|q] eqn:Hq; try lia; reflexivity.
  - assert (Hm2 : m2 = 2 ^ 53) by lia. rewrite Hm2.
    change (Zdigits2 (2 ^ 53)) with 54.
    assert (Hn2 : fexp F64.prec F64.emax (54 + e1) - e1 = 1)
      by (rewrite fexp_eq; unfold emin64 in *; lia).
    rewrite Hn2. reflexivity.
Qed.

Lemma Pos_iter_xO (p k : positive) :
  Z.pos (Pos.iter xO p k) = Z.pos p * 2 ^ Z.pos k.
Proof.
  rewrite (Pos.iter_swap_gen _ _ Z.pos xO (Z.mul 2)) by reflexivity.
  change (Pos.iter (Z.mul 2) (Z.pos p) k) with (Z.shiftl (Z.pos p) (Z.pos k)).
  apply Z.shiftl_mul_pow2. lia.
Qed.

(** The mantissa of a number of [d] digits, moved up to 53 digits. *)
Lemma normal_mantissa (i d : Z) :
  1 <= d <= 53 -> 2 ^ (d - 1) <= i < 2 ^ d ->
  2 ^ 52 <= i * 2 ^ (53 - d) < 2 ^ 53.
Proof.
  intros Hd [Hlo Hhi].
  assert (H52 : 2 ^ 52 = 2 ^ (d - 1) * 2 ^ (53 - d))
    by (rewrite <- Z.pow_add_r by lia; f_equal; lia).
  assert (H53 : 2 ^ 53 = 2 ^ d * 2 ^ (53 - d))
    by (rewrite <- Z.pow_add_r by lia; f_equal; lia).
  assert (Hp : 0 < 2 ^ (53 - d)) by (apply Z.pow_pos_nonneg; lia).
  rewrite H52, H53. split.
  - apply Z.mul_le_mono_nonneg_r; lia.
  - apply Z.mul_lt_mono_pos_r; lia.
Qed.

Lemma Zdigits2_normal (m : Z) : 2 ^ 52 <= m < 2 ^ 53 -> Zdigits2 m = 53.
Proof.
  intros [Hlo Hhi]. destruct m as [|p|p]; try lia.
  pose proof (Zdigits2_le p 53 ltac:(lia) Hhi).
  pose proof (Zdigits2_ge p 53 Hlo). lia.
Qed.

(** A mantissa of 53 digits with an exponent in range is kept by the
    rounding. *)
Lemma binary_round_aux_normal (m e : Z) :
  2 ^ 52 <= m < 2 ^ 53 -> emin64 <= e <= 971 ->
  binary_round_aux F64.prec F64.emax false m e loc_Exact = fin m e.
Proof.
  intros Hm He.
  destruct (binary_round_aux_spec false m e loc_Exact ltac:(lia))
    as (m2 & Hb & Hex & ->).
  rewrite (Zdigits2_normal m Hm), fexp_eq in *.
  replace (Z.max e (Z.max (53 + e - 53) emin64)) with e in * by lia.
  rewrite Z.sub_diag, Z.pow_0_r, Z.div_1_r in *.
  rewrite (Hex eq_refl (Z.mod_1_r m)).
  destruct (Z.eqb_spec m 0); [lia|].
  destruct (Z.ltb_spec m (2 ^ 53)); [|lia].
  destruct (Z.leb_spec e 971); [reflexivity|lia].
Qed.

(** [float64(i)] is exact for a positive [i] below 2^53. *)
Lemma of_int_small (i : Z) :
  0 < i < 2 ^ 53 ->
  F64.of_int i = fin (i * 2 ^ (53 - Zdigits2 i)) (Zdigits2 i - 53).
Proof.
  intros Hi. destruct i as [|p|p]; try lia.
  pose proof (Zdigits2_bounds p) as Hb. pose proof (Zdigits2_pos p) as Hd1.
  pose proof (Zdigits2_le p 53 ltac:(lia) ltac:(lia)) as Hd2.
  pose proof (normal_mantissa (Z.pos p) (Zdigits2 (Z.pos p)) ltac:(lia) Hb) as Hn.
  unfold F64.of_int, binary_normalize, binary_round, shl_align.
  change (Z.pos (digits2_pos p)) with (Zdigits2 (Z.pos p)).
  rewrite Z.add_0_r, fexp_eq, Z.sub_0_r.
  replace (Z.max (Zdigits2 (Z.pos p) - 53) emin64)
    with (Zdigits2 (Z.pos p) - 53) by (unfold emin64; lia).
  destruct (Zdigits2 (Z.pos p) - 53) as [|k|k] eqn:Hk; try lia.
  - replace (53 - Zdigits2 (Z.pos p)) with 0 in * by lia.
    rewrite Z.pow_0_r, Z.mul_1_r in *.
    rewrite binary_round_aux_normal by (unfold emin64; lia). reflexivity.
  - rewrite Pos_iter_xO.
    replace (53 - Zdigits2 (Z.pos p)) with (Z.pos k) in * by lia.
    rewrite binary_round_aux_normal by (unfold emin64; lia). reflexivity.
Qed.

(** A mantissa of 53 digits followed by [k] zero bits is rounded to itself,
    the exponent raised by [k]. *)
Lemma binary_round_aux_shifted (m e k : Z) :
  2 ^ 52 <= m < 2 ^ 53 -> 0 <= k -> emin64 <= e + k <= 971 ->
  binary_round_aux F64.prec F64.emax false (m * 2 ^ k) e loc_Exact = fin m (e + k).
Proof.
  intros Hm Hk He.
  assert (Hp : 0 < 2 ^ k) by (apply Z.pow_pos_nonneg; lia).
  assert (Hd : Zdigits2 (m * 2 ^ k) = 53 + k).
  { destruct (m * 2 ^ k) as [|p|p] eqn:Hmk; try nia.
    assert (Hlo : 2 ^ (53 + k - 1) <= Z.pos p).
    { replace (53 + k - 1) with (52 + k) by lia.
      rewrite Z.pow_add_r by lia. nia. }
    assert (Hhi : Z.pos p < 2 ^ (53 + k)).
    { rewrite Z.pow_add_r by lia. nia. }
    pose proof (Zdigits2_le p (53 + k) ltac:(lia) Hhi).
    pose proof (Zdigits2_ge p (53 + k) Hlo). lia. }
  destruct (binary_round_aux_spec false (m * 2 ^ k) e loc_Exact ltac:(nia))
    as (m2 & Hb & Hex & ->).
  rewrite Hd, fexp_eq in *.
  replace (Z.max e (Z.max (53 + k + e - 53) emin64)) with (e + k) in * by lia.
  replace (e + k - e) with k in * by lia.
  rewrite Z.div_mul in * by lia.
  rewrite (Hex eq_refl (Z.mod_mul m (2 ^ k) ltac:(lia))).
  destruct (Z.eqb_spec m 0); [lia|].
  destruct (Z.ltb_spec m (2 ^ 53)); [|lia].
  destruct (Z.leb_spec (e + k) 971); [reflexivity|lia].
Qed.

(** The quotient of two values with mantissas of 53 digits, before the
    rounding. *)
Lemma div_normal (mx ex my ey : Z) :
  2 ^ 52 <= mx < 2 ^ 53 -> 2 ^ 52 <= my < 2 ^ 53 ->
  emin64 + 53 <= ex - ey ->
  F64.div (fin mx ex) (fin my ey) =
    binary_round_aux F64.prec F64.emax false (mx * 2 ^ 53 / my) (ex - ey - 53)
      (new_location my (mx * 2 ^ 53 mod my)).
Proof.
  intros Hmx Hmy He.
  unfold F64.div, fin, SFdiv, SFdiv_core_binary.
  rewrite !Z2Pos.id by lia.
  rewrite (Zdigits2_normal mx Hmx), (Zdigits2_normal my Hmy), fexp_eq.
  replace (Z.min (Z.max (53 + ex - (53 + ey) - 53) emin64) (ex - ey))
    with (ex - ey - 53) by (unfold emin64 in *; lia).
  replace (ex - ey - (ex - ey - 53)) with 53 by lia.
  cbv iota. rewrite Z.shiftl_mul_pow2 by lia.
  unfold Z.div, Z.modulo.
  destruct (Z.div_eucl (mx * 2 ^ 53) my) as [q r]. reflexivity.
Qed.

Lemma minPartSize_float : F64.of_int minPartSize = fin (2 ^ 52) (-26).
Proof. reflexivity. Qed.

(** Dividing by 2^26 and multiplying by 2^26 move the exponent. *)
Lemma div_minPartSize (m e : Z) :
  2 ^ 52 <= m < 2 ^ 53 -> -1000 <= e <= 900 ->
  F64.div (fin m e) (F64.of_int minPartSize) = fin m (e - 26).
Proof.
  intros Hm He. rewrite minPartSize_float.
  rewrite div_normal by (unfold emin64; lia).
  replace (m * 2 ^ 53) with ((m * 2) * 2 ^ 52) by lia.
  rewrite Z.div_mul, Z.mod_mul by lia.
  change (new_location (2 ^ 52) 0) with loc_Exact.
  replace (m * 2) with (m * 2 ^ 1) by lia.
  rewrite binary_round_aux_shifted by (unfold emin64; lia).
  f_equal. lia.
Qed.

Lemma mul_minPartSize (m e : Z) :
  2 ^ 52 <= m < 2 ^ 53 -> -1000 <= e <= 900 ->
  F64.mul (fin m e) (F64.of_int minPartSize) = fin m (e + 26).
Proof.
  intros Hm He. rewrite minPartSize_float.
  unfold F64.mul, fin, SFmul. simpl xorb.
  rewrite Pos2Z.inj_mul, !Z2Pos.id by lia.
  rewrite binary_round_aux_shifted by (unfold emin64; lia).
  unfold fin. f_equal. lia.
Qed.

(** [math.Ceil] of a positive value with a negative exponent. *)
Lemma Ceil_fin (m e : Z) :
  0 < m -> e < 0 ->
  F64.Ceil (fin m e) =
    F64.of_int (if m mod 2 ^ (- e) =? 0 then m / 2 ^ (- e) else m / 2 ^ (- e) + 1).
Proof.
  intros Hm He. unfold F64.Ceil, fin, F64.of_int.
  destruct (Z.leb_spec 0 e); [lia|].
  by rewrite Z2Pos.id by lia.
Qed.

(** The conversion to integer of a positive value with a negative
    exponent. *)
Lemma to_int_fin (conv : F64.float64 -> Z) (m e : Z) :
  0 < m -> e < 0 -> m / 2 ^ (- e) < 2 ^ 63 ->
  F64.to_int conv (fin m e) = m / 2 ^ (- e).
Proof.
  intros Hm He Hlt. unfold F64.to_int, F64.trunc, fin.
  destruct (Z.leb_spec 0 e); [lia|].
  rewrite Z2Pos.id by lia.
  assert (0 <= m / 2 ^ (- e)) by (apply Z.div_pos; [lia|apply Z.pow_pos_nonneg; lia]).
  destruct (Z.leb_spec (- 2 ^ 63) (m / 2 ^ (- e))); [|lia].
  destruct (Z.ltb_spec (m / 2 ^ (- e)) (2 ^ 63)); [reflexivity|lia].
Qed.

(** A positive integer below 2^52 goes to floating point and back, and is
    its own ceiling. *)
Lemma to_int_of_int (conv : F64.float64 -> Z) (i : Z) :
  0 < i < 2 ^ 52 -> F64.to_int conv (F64.of_int i) = i.
Proof.
  intros Hi. rewrite of_int_small by lia.
  destruct i as [|p|p]; try lia.
  pose proof (Zdigits2_bounds p) as Hb. pose proof (Zdigits2_pos p) as Hd1.
  pose proof (Zdigits2_le p 52 ltac:(lia) ltac:(lia)) as Hd2.
  set (d := Zdigits2 (Z.pos p)) in *.
  assert (Hp : 0 < 2 ^ (53 - d)) by (apply Z.pow_pos_nonneg; lia).
  rewrite to_int_fin.
  - replace (- (d - 53)) with (53 - d) by lia. apply Z.div_mul. lia.
  - nia.
  - lia.
  - replace (- (d - 53)) with (53 - d) by lia. rewrite Z.div_mul by lia. lia.
Qed.

Lemma Ceil_of_int (i : Z) :
  0 < i < 2 ^ 52 -> F64.Ceil (F64.of_int i) = F64.of_int i.
Proof.
  intros Hi. rewrite of_int_small by lia.
  destruct i as [|p|p]; try lia.
  pose proof (Zdigits2_pos p) as Hd1.
  pose proof (Zdigits2_le p 52 ltac:(lia) ltac:(lia)) as Hd2.
  set (d := Zdigits2 (Z.pos p)) in *.
  assert (Hp : 0 < 2 ^ (53 - d)) by (apply Z.pow_pos_nonneg; lia).
  rewrite Ceil_fin by nia.
  replace (- (d - 53)) with (53 - d) by lia.
  rewrite Z.mod_mul, Z.div_mul by lia. rewrite Z.eqb_refl.
  rewrite of_int_small by lia. reflexivity.
Qed.

(** [float64(o)] for a positive [int64]: a mantissa of 53 digits, and a
    value of at most 2^63. *)
Lemma of_int_pos (o : Z) :
  0 < o < 2 ^ 63 ->
  exists mo eo,
    F64.of_int o = fin mo eo
    /\ 2 ^ 52 <= mo < 2 ^ 53 /\ -52 <= eo <= 11
    /\ mo * 2 ^ (eo + 52) <= 2 ^ 115.
Proof.
  intros Ho. destruct o as [|p|p]; try lia.
  pose proof (Zdigits2_bounds p) as Hb. pose proof (Zdigits2_pos p) as Hd1.
  pose proof (Zdigits2_le p 63 ltac:(lia) ltac:(lia)) as Hd2.
  destruct (Z.lt_ge_cases (Z.pos p) (2 ^ 53)) as [Hsmall|Hlarge].
  - pose proof (Zdigits2_le p 53 ltac:(lia) Hsmall) as Hd3.
    pose proof (normal_mantissa (Z.pos p) (Zdigits2 (Z.pos p)) ltac:(lia) Hb)
      as Hn.
    rewrite of_int_small by lia.
    set (d := Zdigits2 (Z.pos p)) in *.
    exists (Z.pos p * 2 ^ (53 - d)), (d - 53).
    split; [reflexivity|]. split; [exact Hn|]. split; [lia|].
    replace (d - 53 + 52) with (d - 1) by lia.
    rewrite <- Z.mul_assoc, <- Z.pow_add_r by lia.
    replace (53 - d + (d - 1)) with 52 by lia.
    change (2 ^ 115) with (2 ^ 63 * 2 ^ 52). nia.
  - pose proof (Zdigits2_ge p 54 ltac:(simpl; lia)) as Hd3.
    set (d := Zdigits2 (Z.pos p)) in *.
    assert (Hp : 0 < 2 ^ (d - 53)) by (apply Z.pow_pos_nonneg; lia).
    assert (Hm1 : 2 ^ 52 <= Z.pos p / 2 ^ (d - 53) < 2 ^ 53).
    { split.
      - apply Z.div_le_lower_bound; [lia|].
        rewrite <- Z.pow_add_r by lia.
        replace (d - 53 + 52) with (d - 1) by lia. lia.
      - apply Z.div_lt_upper_bound; [lia|].
        rewrite <- Z.pow_add_r by lia.
        replace (d - 53 + 53) with d by lia. lia. }
    unfold F64.of_int, binary_normalize, binary_round, shl_align.
    change (Z.pos (digits2_pos p)) with d.
    rewrite Z.add_0_r, fexp_eq, Z.sub_0_r.
    replace (Z.max (d - 53) emin64) with (d - 53) by (unfold emin64; lia).
    destruct (d - 53) as [|k|k] eqn:Hk; try lia.
    destruct (binary_round_aux_spec false (Z.pos p) 0 loc_Exact ltac:(lia))
      as (m2 & Hm2 & _ & ->).
    fold d in Hm2 |- *. rewrite fexp_eq, Z.add_0_r in *.
    replace (Z.max 0 (Z.max (d - 53) emin64)) with (d - 53) in *
      by (unfold emin64; lia).
    rewrite Z.sub_0_r, Hk in *. rewrite <- Hk in *.
    assert (Hpow : 2 ^ (d - 53 + 52) <= 2 ^ 62)
      by (apply Z.pow_le_mono_r; lia).
    assert (Hpow' : 0 < 2 ^ (d - 53 + 52)) by (apply Z.pow_pos_nonneg; lia).
    destruct (Z.eqb_spec m2 0); [lia|].
    destruct (Z.ltb_spec m2 (2 ^ 53)).
    + destruct (Z.leb_spec (d - 53) 971); [|lia].
      exists m2, (d - 53). split; [reflexivity|].
      split; [lia|]. split; [lia|].
      change (2 ^ 115) with (2 ^ 53 * 2 ^ 62). nia.
    + destruct (Z.leb_spec (d - 53 + 1) 971); [|lia].
      exists (2 ^ 52), (d - 53 + 1). split; [reflexivity|].
      split; [lia|]. split; [lia|].
      replace (d - 53 + 1 + 52) with (d - 53 + 52 + 1) by lia.
      rewrite Z.pow_add_r, Z.pow_1_r by lia.
      change (2 ^ 115) with (2 ^ 52 * (2 ^ 62 * 2)). nia.
Qed.

Lemma new_location_exact (n : Z) : new_location n 0 = loc_Exact.
Proof. unfold new_location. by destruct (Z.even n). Qed.

(** The rounded quotient does not exceed an integer that the exact quotient
    does not exceed. *)
Lemma div_upper (mx ex my ey K : Z) :
  2 ^ 52 <= mx < 2 ^ 53 -> 2 ^ 52 <= my < 2 ^ 53 ->
  -100 <= ex - ey <= 50 -> 0 < K ->
  mx * 2 ^ 53 <= K * 2 ^ (53 - (ex - ey)) * my ->
  exists mz ez,
    F64.div (fin mx ex) (fin my ey) = fin mz ez
    /\ 0 < mz /\ ez < 0 /\ mz <= K * 2 ^ (- ez).
Proof.
  intros Hmx Hmy HE HK Hle.
  rewrite div_normal by (unfold emin64; lia).
  remember (ex - ey) as E eqn:HeqE.
  remember (mx * 2 ^ 53 / my) as qq eqn:Heqqq.
  remember (mx * 2 ^ 53 mod my) as r eqn:Heqr.
  assert (Hdm : mx * 2 ^ 53 = my * qq + r) by (subst qq r; apply Z.div_mod; lia).
  assert (Hr : 0 <= r < my) by (subst r; apply Z.mod_pos_bound; lia).
  assert (Hqq : 2 ^ 52 <= qq < 2 ^ 54).
  { subst qq. split.
    - apply Z.div_le_lower_bound; [lia|]. nia.
    - apply Z.div_lt_upper_bound; [lia|]. nia. }
  clear Heqqq Heqr.
  destruct (binary_round_aux_spec false qq (E - 53) (new_location my r) ltac:(lia))
    as (m2 & Hb & Hex & ->).
  assert (Hloc : r = 0 -> new_location my r = loc_Exact)
    by (intros ->; apply new_location_exact).
  assert (Hdq : Zdigits2 qq = 53 \/ Zdigits2 qq = 54).
  { destruct qq as [|pq|pq]; try lia.
    pose proof (Zdigits2_le pq 54 ltac:(lia) ltac:(lia)).
    pose proof (Zdigits2_ge pq 53 ltac:(lia)). lia. }
  rewrite fexp_eq in *. unfold emin64 in *.
  destruct Hdq as [Hdq|Hdq]; rewrite Hdq in *.
  - (* the quotient has 53 digits: no shift *)
    replace (Z.max (E - 53) (Z.max (53 + (E - 53) - 53) (-1074)))
      with (E - 53) in * by lia.
    rewrite Z.sub_diag, Z.pow_0_r, Z.div_1_r in *.
    replace (53 - E) with (- (E - 53)) in Hle by lia.
    assert (HP : 0 < 2 ^ (- (E - 53))) by (apply Z.pow_pos_nonneg; lia).
    set (P := 2 ^ (- (E - 53))) in *.
    assert (Hm2 : m2 <= K * P).
    { destruct (Z.eq_dec r 0) as [Hr0|Hr0].
      - rewrite (Hex (Hloc Hr0) (Z.mod_1_r qq)). nia.
      - assert (qq < K * P) by nia. lia. }
    destruct (Z.eqb_spec m2 0); [lia|].
    destruct (Z.ltb_spec m2 (2 ^ 53)).
    + destruct (Z.leb_spec (E - 53) 971); [|lia].
      exists m2, (E - 53). repeat split; lia.
    + destruct (Z.leb_spec (E - 53 + 1) 971); [|lia].
      exists (2 ^ 52), (E - 53 + 1). repeat split; try lia.
      assert (HP2 : P = 2 * 2 ^ (- (E - 53 + 1))).
      { subst P. replace (- (E - 53)) with (1 + - (E - 53 + 1)) by lia.
        rewrite Z.pow_add_r by lia. reflexivity. }
      rewrite HP2 in Hm2. lia.
  - (* the quotient has 54 digits: one bit is shifted out *)
    replace (Z.max (E - 53) (Z.max (54 + (E - 53) - 53) (-1074)))
      with (E - 52) in * by lia.
    replace (E - 52 - (E - 53)) with 1 in * by lia.
    rewrite Z.pow_1_r in *.
    assert (HP : 0 < 2 ^ (- (E - 52))) by (apply Z.pow_pos_nonneg; lia).
    assert (HP2 : 2 ^ (53 - E) = 2 * 2 ^ (- (E - 52))).
    { replace (53 - E) with (1 + - (E - 52)) by lia.
      rewrite Z.pow_add_r by lia. reflexivity. }
    rewrite HP2 in Hle.
    set (P := 2 ^ (- (E - 52))) in *.
    pose proof (Z.div_mod qq 2 ltac:(lia)) as Hq2.
    pose proof (Z.mod_pos_bound qq 2 ltac:(lia)) as Ht.
    assert (Hm2 : m2 <= K * P).
    { destruct (Z.eq_dec r 0) as [Hr0|Hr0];
        [destruct (Z.eq_dec (qq mod 2) 0) as [Ht0|Ht0]|].
      - rewrite (Hex (Hloc Hr0) Ht0). nia.
      - assert (qq / 2 < K * P) by nia. lia.
      - assert (qq / 2 < K * P) by nia. lia. }
    assert (Hq53 : 2 ^ 53 <= qq).
    { destruct qq as [|pq|pq]; try lia.
      pose proof (Zdigits2_bounds pq) as [Hlo _]. rewrite Hdq in Hlo. exact Hlo. }
    assert (Hm1 : 2 ^ 52 <= qq / 2) by (apply Z.div_le_lower_bound; lia).
    destruct (Z.eqb_spec m2 0); [lia|].
    destruct (Z.ltb_spec m2 (2 ^ 53)).
    + destruct (Z.leb_spec (E - 52) 971); [|lia].
      exists m2, (E - 52). repeat split; lia.
    + destruct (Z.leb_spec (E - 52 + 1) 971); [|lia].
      exists (2 ^ 52), (E - 52 + 1). repeat split; try lia.
      assert (HP3 : P = 2 * 2 ^ (- (E - 52 + 1))).
      { subst P. replace (- (E - 52)) with (1 + - (E - 52 + 1)) by lia.
        rewrite Z.pow_add_r by lia. reflexivity. }
      rewrite HP3 in Hm2. lia.
Qed.

(** The ceiling of a positive value that does not exceed the integer [K]
    converts to an integer from 1 to [K]. *)
Lemma Ceil_to_int_upper (conv : F64.float64 -> Z) (mz ez K : Z) :
  0 < mz -> ez < 0 -> 0 < K < 2 ^ 52 -> mz <= K * 2 ^ (- ez) ->
  1 <= F64.to_int conv (F64.Ceil (fin mz ez)) <= K.
Proof.
  intros Hmz Hez HK Hle.
  assert (HP : 0 < 2 ^ (- ez)) by (apply Z.pow_pos_nonneg; lia).
  set (P := 2 ^ (- ez)) in *.
  pose proof (Z.div_mod mz P ltac:(lia)) as Hdm.
  pose proof (Z.mod_pos_bound mz P ltac:(lia)) as Hmod.
  rewrite Ceil_fin by lia. fold P.
  destruct (Z.eqb_spec (mz mod P) 0) as [H0|H0].
  - assert (1 <= mz / P <= K) by nia.
    rewrite to_int_of_int by lia. lia.
  - assert (0 <= mz / P < K) by nia.
    rewrite to_int_of_int by lia. lia.
Qed.

Lemma ceil_div_spec (a b : Z) :
  0 < b -> (ceil_div a b - 1) * b < a <= ceil_div a b * b.
Proof.
  intros Hb. unfold ceil_div.
  pose proof (Z.div_mod a b ltac:(lia)). pose proof (Z.mod_pos_bound a b Hb).
  destruct (Z.eqb_spec (a mod b) 0); nia.
Qed.

(** The part size as a float: the quotient by 10000, rounded up to a
    multiple of 64 MiB. *)
Lemma partSizeFlt_value (q : Z) :
  1 <= q < 2 ^ 50 ->
  let c := ceil_div q (2 ^ 26) in
  F64.mul
    (F64.Ceil (F64.div (F64.Ceil (F64.of_int q)) (F64.of_int minPartSize)))
    (F64.of_int minPartSize)
  = fin (c * 2 ^ (53 - Zdigits2 c)) (Zdigits2 c - 27)
  /\ 1 <= c <= 2 ^ 24.
Proof.
  intros Hq c.
  pose proof (ceil_div_spec q (2 ^ 26) ltac:(lia)) as Hc. fold c in Hc.
  assert (Hc' : 1 <= c <= 2 ^ 24) by lia.
  split; [|exact Hc'].
  rewrite Ceil_of_int, of_int_small by lia.
  destruct q as [|pq|pq]; try lia.
  pose proof (Zdigits2_bounds pq) as Hb. pose proof (Zdigits2_pos pq) as Hd1.
  pose proof (Zdigits2_le pq 50 ltac:(lia) ltac:(lia)) as Hd2.
  set (q := Z.pos pq) in *. set (d := Zdigits2 q) in *.
  pose proof (normal_mantissa q d ltac:(lia) Hb) as Hn.
  rewrite div_minPartSize by lia.
  assert (HP : 0 < 2 ^ (53 - d)) by (apply Z.pow_pos_nonneg; lia).
  rewrite Ceil_fin by lia.
  replace (- (d - 53 - 26)) with (26 + (53 - d)) by lia.
  rewrite Z.pow_add_r by lia.
  rewrite Z.mul_mod_distr_r, Z.div_mul_cancel_r by lia.
  assert (Hif : (if q mod 2 ^ 26 * 2 ^ (53 - d) =? 0
                 then q / 2 ^ 26 else q / 2 ^ 26 + 1) = c).
  { subst c. unfold ceil_div.
    destruct (Z.eqb_spec (q mod 2 ^ 26) 0) as [->|Hne]; [reflexivity|].
    destruct (Z.eqb_spec (q mod 2 ^ 26 * 2 ^ (53 - d)) 0); [nia|reflexivity]. }
  rewrite Hif. clear Hif.
  rewrite of_int_small by lia.
  destruct c as [|pc|pc] eqn:Hpc; try lia.
  pose proof (Zdigits2_bounds pc) as Hbc. pose proof (Zdigits2_pos pc) as Hdc1.
  pose proof (Zdigits2_le pc 25 ltac:(lia) ltac:(lia)) as Hdc2.
  pose proof (normal_mantissa (Z.pos pc) (Zdigits2 (Z.pos pc)) ltac:(lia) Hbc).
  rewrite mul_minPartSize by lia.
  f_equal. lia.
Qed.

Lemma Zdigits2_bounds_Z (m : Z) :
  0 < m -> 2 ^ (Zdigits2 m - 1) <= m < 2 ^ Zdigits2 m /\ 1 <= Zdigits2 m.
Proof.
  intros Hm. destruct m as [|p|p]; try lia.
  split; [apply Zdigits2_bounds|apply Zdigits2_pos].
Qed.

Lemma Zdigits2_le_Z (m d : Z) :
  0 < m -> 0 <= d -> m < 2 ^ d -> Zdigits2 m <= d.
Proof. intros Hm. destruct m as [|p|p]; try lia. apply Zdigits2_le. Qed.

(** The plan for a known size of at least 10000 bytes: the part size is
    the quotient by 10000 rounded up to a multiple of 64 MiB, and the part
    count is small enough for the sizes of all parts but the last to stay
    below 2^63. *)
Lemma optimalPartInfo_known (conv : F64.float64 -> Z) (o : Z) :
  10000 <= o < 2 ^ 63 ->
  let p := ceil_div (o / 10000) (2 ^ 26) * 2 ^ 26 in
  exists t,
    optimalPartInfo conv o = (t, p, o - (t - 1) * p, None)
    /\ 1 <= t /\ (t - 1) * p < 2 ^ 63.
Proof.
  intros Ho p.
  assert (Hq : 1 <= o / 10000 < 2 ^ 50).
  { split; [apply Z.div_le_lower_bound; lia|].
    apply Z.div_lt_upper_bound; lia. }
  destruct (partSizeFlt_value (o / 10000) Hq) as [Hflt Hc].
  subst p. remember (ceil_div (o / 10000) (2 ^ 26)) as c eqn:Heqc. clear Heqc.
  set (p := c * 2 ^ 26).
  destruct (Zdigits2_bounds_Z c ltac:(lia)) as [Hbc Hdc1].
  pose proof (Zdigits2_le_Z c 25 ltac:(lia) ltac:(lia) ltac:(lia)) as Hdc2.
  remember (Zdigits2 c) as dc eqn:Heqdc. clear Heqdc.
  pose proof (normal_mantissa c dc ltac:(lia) Hbc) as Hmc.
  set (mc := c * 2 ^ (53 - dc)) in *.
  assert (HP : 0 < 2 ^ (27 - dc)) by (apply Z.pow_pos_nonneg; lia).
  assert (Hmcp : mc = p * 2 ^ (27 - dc)).
  { subst mc p. replace (53 - dc) with (26 + (27 - dc)) by lia.
    rewrite Z.pow_add_r by lia. lia. }
  assert (Hp : 2 ^ 26 <= p <= 2 ^ 50) by (subst p; lia).
  (* the part size as an integer *)
  assert (Hpint : F64.to_int conv (fin mc (dc - 27)) = p).
  { rewrite to_int_fin; replace (- (dc - 27)) with (27 - dc) by lia;
      rewrite ?Hmcp, ?Z.div_mul by lia; lia. }
  (* the object size as a float, and the quotient *)
  destruct (of_int_pos o ltac:(lia)) as (mo & eo & Hfo & Hmo & Heo & Hval).
  set (K := (2 ^ 63 - 1) / p + 1).
  assert (HK : (K - 1) * p <= 2 ^ 63 - 1 < K * p).
  { subst K. pose proof (Z.div_mod (2 ^ 63 - 1) p ltac:(lia)).
    pose proof (Z.mod_pos_bound (2 ^ 63 - 1) p ltac:(lia)). nia. }
  assert (HK' : 0 < K < 2 ^ 52) by nia.
  destruct (div_upper mo eo mc (dc - 27) K Hmo Hmc ltac:(lia) ltac:(lia))
    as (mz & ez & Hdiv & Hmz & Hez & Hle).
  { assert (HA : 0 < 2 ^ (eo + 52)) by (apply Z.pow_pos_nonneg; lia).
    assert (HB : 0 < 2 ^ (53 - eo)) by (apply Z.pow_pos_nonneg; lia).
    assert (HAB : 2 ^ (eo + 52) * 2 ^ (53 - eo) = 2 ^ 105)
      by (rewrite <- Z.pow_add_r by lia; f_equal; lia).
    assert (HX : 2 ^ (53 - (eo - (dc - 27))) * 2 ^ (27 - dc) = 2 ^ (53 - eo))
      by (rewrite <- Z.pow_add_r by lia; f_equal; lia).
    assert (H1 : mo <= 2 ^ 10 * 2 ^ (53 - eo)).
    { apply Z.mul_le_mono_pos_r with (p := 2 ^ (eo + 52)); [lia|].
      replace (2 ^ 10 * 2 ^ (53 - eo) * 2 ^ (eo + 52))
        with (2 ^ 10 * (2 ^ (eo + 52) * 2 ^ (53 - eo))) by lia.
      rewrite HAB. change (2 ^ 10 * 2 ^ 105) with (2 ^ 115). exact Hval. }
    rewrite Hmcp.
    replace (K * 2 ^ (53 - (eo - (dc - 27))) * (p * 2 ^ (27 - dc)))
      with (K * p * (2 ^ (53 - (eo - (dc - 27))) * 2 ^ (27 - dc))) by lia.
    rewrite HX.
    assert (H63 : 2 ^ 10 * 2 ^ 53 <= K * p) by lia.
    nia. }
  pose proof (Ceil_to_int_upper conv mz ez K Hmz Hez HK' Hle) as Ht.
  exists (F64.to_int conv (F64.Ceil (fin mz ez))).
  set (t := F64.to_int conv (F64.Ceil (fin mz ez))) in *.
  assert (Htp : 0 <= (t - 1) * p < 2 ^ 63) by nia.
  split; [|split; [lia|lia]].
  unfold optimalPartInfo.
  destruct (Z.eqb_spec o (-1)); [lia|].
  assert (Hdiv64 : div64 o maxPartsCount = o / 10000).
  { unfold div64, maxPartsCount. rewrite Z.quot_div_nonneg by lia.
    apply wrap64_id. unfold int64_range. lia. }
  rewrite Hdiv64, Hflt, Hfo, Hdiv, Hpint. fold t.
  unfold sub64, mul64.
  rewrite (wrap64_id (t - 1)) by (unfold int64_range; nia).
  rewrite (wrap64_id ((t - 1) * p)) by (unfold int64_range; lia).
  rewrite wrap64_id by (unfold int64_range; lia).
  reflexivity.
Qed.

(** Below 10000 bytes the quotient by 10000 is zero, and so is the part
    size. *)
Lemma optimalPartInfo_tiny (conv : F64.float64 -> Z) (o : Z) :
  0 <= o < 10000 ->
  exists t, optimalPartInfo conv o = (t, 0, o, None).
Proof.
  intros Ho. unfold optimalPartInfo.
  destruct (Z.eqb_spec o (-1)); [lia|].
  assert (Hdiv64 : div64 o maxPartsCount = 0).
  { unfold div64, maxPartsCount. rewrite Z.quot_div_nonneg by lia.
    rewrite Z.div_small by lia. reflexivity. }
  rewrite Hdiv64.
  change (F64.mul
            (F64.Ceil (F64.div (F64.Ceil (F64.of_int 0)) (F64.of_int minPartSize)))
            (F64.of_int minPartSize)) with (S754_zero false).
  change (F64.to_int conv (S754_zero false)) with 0.
  eexists. f_equal. f_equal.
  unfold sub64, mul64. rewrite Z.mul_0_r.
  change (wrap64 0) with 0. rewrite Z.sub_0_r.
  apply wrap64_id. unfold int64_range. lia.
Qed.

(** For a size from 0 up, the parts add up over the integers. *)
Lemma optimalPartInfo_exact (conv : F64.float64 -> Z) (o : Z) :
  0 <= o < 2 ^ 63 ->
  let '(t, p, l, _) := optimalPartInfo conv o in (t - 1) * p + l = o.
Proof.
  intros Ho. destruct (Z.lt_ge_cases o 10000) as [Hlt|Hge].
  - destruct (optimalPartInfo_tiny conv o ltac:(lia)) as [t ->]. lia.
  - destruct (optimalPartInfo_known conv o ltac:(lia)) as (t & -> & _). lia.
Qed.

(** ** PartPlanner *)

(** C9: 200 MiB is planned as four parts of 64 MiB, the last one 8 MiB. *)
Theorem optimalPartInfo_200MiB (conv : F64.float64 -> Z) :
  optimalPartInfo conv (200 * 1024 * 1024) =
    (4, 64 * 1024 * 1024, 8 * 1024 * 1024, None).
Proof. vm_compute. reflexivity. Qed.

(** The plan of [PutStream], made for the unknown size. *)
Lemma optimalPartInfo_unknown (conv : F64.float64 -> Z) :
  optimalPartInfo conv (-1) = (5120, 134217728, 134217728, None).
Proof. vm_compute. reflexivity. Qed.

(** C1: the object size is divided by [maxPartsCount] as an integer, before
    the conversion to floating point, so the part size is found from the
    quotient rounded down: an object of 10000 * 64 MiB + 1 bytes is cut into
    10001 parts, and an object of one byte gets the part size 0. *)
Theorem optimalPartInfo_floor_division (conv : F64.float64 -> Z) :
  optimalPartInfo conv (maxPartsCount * minPartSize + 1) =
    (maxPartsCount + 1, minPartSize, 1, None)
  /\ snd (fst (fst (optimalPartInfo conv 1))) = 0.
Proof. split; vm_compute; reflexivity. Qed.

Lemma wrap64_add_r (a b : Z) : wrap64 (a + wrap64 b) = wrap64 (a + b).
Proof. rewrite (Z.add_comm a), wrap64_add_l. f_equal. lia. Qed.

(** C7: for a known size the parts add up to the object: the part count
    less one, times the part size, plus the last part size is the object
    size. For a size from 0 up this is an equation between integers: no
    operation of the planner wraps around. For every [int64] size other than
    the value -1 for the unknown size it holds as the program computes the
    last part size, on [int64], whatever the conversions to integer give. *)
Theorem optimalPartInfo_parts_add_up (conv : F64.float64 -> Z) (objectSize : Z) :
  int64_range objectSize -> objectSize <> -1 ->
  let '(totalPartsCount, partSize, lastPartSize, _) :=
    optimalPartInfo conv objectSize in
  add64 (mul64 (sub64 totalPartsCount 1) partSize) lastPartSize = objectSize
  /\ (0 <= objectSize ->
      (totalPartsCount - 1) * partSize + lastPartSize = objectSize).
Proof.
  intros Hr Hk.
  pose proof (optimalPartInfo_exact conv objectSize) as Hexact.
  unfold optimalPartInfo in *.
  destruct (Z.eqb_spec objectSize (-1)) as [?|_]; [contradiction|].
  split.
  - unfold add64, sub64 at 2.
    rewrite wrap64_add_r.
    replace (_ + (objectSize - _)) with objectSize by lia.
    by apply wrap64_id.
  - intros Hpos. apply Hexact. unfold int64_range in Hr. lia.
Qed.

Lemma optimalPartInfo_parts_add_up_witness :
  int64_range 671088640001 /\ 671088640001 <> -1 /\
  add64 (mul64 (sub64 10001 1) 67108864) 1 = 671088640001
  /\ (0 <= 671088640001 -> (10001 - 1) * 67108864 + 1 = 671088640001).
Proof.
  split; [unfold int64_range; lia|]. split; [lia|].
  exact (optimalPartInfo_parts_add_up amd64_conv 671088640001
           ltac:(unfold int64_range; lia) ltac:(lia)).
Defined.

(** ** UploadOrchestrator: one turn of the part loop *)

Section PartLoop.

Variable conv : F64.float64 -> Z.
Variables md5_New sha256_New : Hash.
Variable Getenv : string -> string.
Variable c : Store.
Variables bucketName objectName uploadID : string.
Variables totalPartsCount partSize size : Z.
Variable term : error.

Hypothesis partSize_pos : 0 < partSize.

Lemma hashSums_md5 (chunk : list byte) :
  default [] (((Hash_Sum <$> (Hash_Write chunk <$>
                  <["sha256" := sha256_New]>
                    (<["md5" := md5_New]> (∅ : gmap string Hash))))
                ∪ (∅ : gmap string (list byte)))
                !! "md5")
  = digest_of md5_New chunk.
Proof.
  rewrite lookup_union, !lookup_fmap, lookup_insert_ne by done.
  by rewrite lookup_insert_eq, lookup_empty.
Qed.

Lemma hashSums_sha256 (chunk : list byte) :
  default [] (((Hash_Sum <$> (Hash_Write chunk <$>
                  <["sha256" := sha256_New]>
                    (<["md5" := md5_New]> (∅ : gmap string Hash))))
                ∪ (∅ : gmap string (list byte)))
                !! "sha256")
  = digest_of sha256_New chunk.
Proof.
  rewrite lookup_union, !lookup_fmap, lookup_insert_eq.
  by rewrite lookup_empty.
Qed.

Local Abbreviation turn :=
  (partIteration md5_New sha256_New c bucketName objectName uploadID partSize size).
Local Abbreviation loop :=
  (partLoop md5_New sha256_New c bucketName objectName uploadID
     totalPartsCount partSize size).
Local Abbreviation fin := (finalize c bucketName objectName uploadID size).

(** A turn that starts with an empty buffer, by what the stream holds. *)
Lemma partIteration_spec (st : LoopState) :
  tmpBuffer st = bytes_Buffer ->
  let data := rdata (reader st) in
  let chunk := take (Z.to_nat partSize) data in
  let short := lengthZ data <? partSize in
  turn st =
    if short && negb (bool_decide (rterm (reader st) = EOF)) then
      inl {| ret_n := 0; ret_err := Some (rterm (reader st));
             ret_site := ret_read_failed; ret_calls := calls st;
             ret_tmpBuffer := chunk |}
    else
      let answer :=
        PutObjectPart c bucketName objectName uploadID (partNumber st)
          (lengthZ chunk) chunk (digest_of md5_New chunk)
          (digest_of sha256_New chunk) in
      let calls' :=
        calls st ++
        [call_PutObjectPart (partNumber st) (lengthZ chunk) chunk
           (digest_of md5_New chunk) (digest_of sha256_New chunk) answer] in
      match answer with
      | inr err =>
          inl {| ret_n := totalUploadedSize st; ret_err := Some err;
                 ret_site := ret_PutObjectPart_failed; ret_calls := calls';
                 ret_tmpBuffer := [] |}
      | inl objPart =>
          inr ({| partNumber := add64 (partNumber st) 1;
                  totalUploadedSize := add64 (totalUploadedSize st) (lengthZ chunk);
                  partsInfo := <[partNumber st := objPart]> (partsInfo st);
                  tmpBuffer := bytes_Buffer;
                  reader := {| rdata := drop (Z.to_nat partSize) data;
                               rterm := rterm (reader st) |};
                  calls := calls' |},
               (size <? 0) && short)
      end.
Proof.
  intros Hbuf. simpl. unfold partIteration.
  rewrite hashCopyN_healthy by (by rewrite ?Hbuf).
  rewrite Hbuf. simpl.
  destruct (lengthZ (rdata (reader st)) <? partSize) eqn:Hshort; simpl.
  - destruct (bool_decide (rterm (reader st) = EOF)) eqn:Heof; simpl.
    + rewrite hashSums_md5, hashSums_sha256.
      apply bool_decide_eq_true in Heof. rewrite Heof.
      rewrite (bool_decide_eq_true_2 (EOF = EOF)) by done.
      rewrite (bool_decide_eq_true_2 (Some EOF = Some EOF)) by done.
      simpl. by destruct (PutObjectPart _ _ _ _ _ _ _ _ _).
    + apply bool_decide_eq_false in Heof.
      by rewrite bool_decide_eq_false_2.
  - rewrite hashSums_md5, hashSums_sha256.
    destruct (PutObjectPart _ _ _ _ _ _ _ _ _); [|reflexivity].
    by rewrite andb_false_r.
Qed.


Hypothesis plan_fits : 0 <= totalPartsCount < 2 ^ 62 /\ totalPartsCount * partSize < 2 ^ 63.

Lemma sum_sizes_app (l1 l2 : list call) :
  sum_sizes (l1 ++ l2) = sum_sizes l1 + sum_sizes l2.
Proof. unfold sum_sizes. induction l1; simpl; lia. Qed.

(** A turn that the store accepts keeps the invariant. *)
Lemma loop_invariant_step (st : LoopState) (p : ObjectPart.t) (b : bool) :
  loop_invariant totalPartsCount partSize term st ->
  partNumber st <= totalPartsCount ->
  let chunk := take (Z.to_nat partSize) (rdata (reader st)) in
  PutObjectPart c bucketName objectName uploadID (partNumber st)
    (lengthZ chunk) chunk (digest_of md5_New chunk) (digest_of sha256_New chunk)
    = inl p ->
  forall st',
  turn st = inr (st', b) ->
  loop_invariant totalPartsCount partSize term st'
  /\ partNumber st' = partNumber st + 1
  /\ totalUploadedSize st' = totalUploadedSize st + lengthZ chunk
  /\ rdata (reader st') = drop (Z.to_nat partSize) (rdata (reader st))
  /\ rterm (reader st') = rterm (reader st)
  /\ calls st' =
       calls st ++
       [call_PutObjectPart (partNumber st) (lengthZ chunk) chunk
          (digest_of md5_New chunk) (digest_of sha256_New chunk) (inl p)].
Proof.
  intros (puts & Hcalls & Hterm & Hok & Hnum & Htot & Hbound & Hbuf & Hpn & Hinfo) Hle.
  simpl. intros Hans st' Hturn.
  rewrite partIteration_spec in Hturn by assumption.
  simpl in Hturn. rewrite Hans in Hturn.
  destruct (_ && negb _) in Hturn; [discriminate|].
  injection Hturn as <- _.
  set (chunk := take (Z.to_nat partSize) (rdata (reader st))) in *.
  assert (Hlen : 0 <= lengthZ chunk <= partSize).
  { subst chunk. rewrite lengthZ_take by lia.
    pose proof (lengthZ_nonneg (rdata (reader st))). lia. }
  destruct plan_fits as [Htpc Hprod].
  assert (Hpn1 : add64 (partNumber st) 1 = partNumber st + 1).
  { apply wrap64_id. unfold int64_range. pow64.
    change (2 ^ 62) with 4611686018427387904 in *. lia. }
  assert (Htot1 : add64 (totalUploadedSize st) (lengthZ chunk)
                  = totalUploadedSize st + lengthZ chunk).
  { apply wrap64_id. unfold int64_range. pow64. nia. }
  simpl. rewrite Hpn1, Htot1.
  repeat split; try reflexivity.
  exists (puts ++ [call_PutObjectPart (partNumber st) (lengthZ chunk) chunk
                     (digest_of md5_New chunk) (digest_of sha256_New chunk) (inl p)]).
  simpl. repeat split.
  - by rewrite Hcalls.
  - assumption.
  - apply Forall_app. split; [assumption|]. by repeat constructor.
  - rewrite fmap_app, Hnum. simpl.
    replace (partNumber st + 1 - 1) with ((partNumber st - 1) + 1) by lia.
    rewrite seqZ_app by lia. simpl.
    replace (1 + (partNumber st - 1)) with (partNumber st) by lia.
    reflexivity.
  - rewrite sum_sizes_app, Htot. simpl. lia.
  - lia.
  - nia.
  - lia.
  - lia.
  - intros i Hi.
    destruct (decide (i = partNumber st)) as [->|Hne].
    + exists p, (lengthZ chunk), chunk, (digest_of md5_New chunk),
        (digest_of sha256_New chunk).
      split; [apply lookup_insert_eq|].
      apply in_or_app. right. by left.
    + destruct (Hinfo i) as (p' & sz & d & m & s & Hl & Hin); [lia|].
      exists p', sz, d, m, s. split.
      * by rewrite lookup_insert_ne.
      * apply in_or_app. by left.
Qed.

(** The part loop ends in a state of the invariant, or returns from a turn
    that started in one. *)
Lemma partLoop_outcome (fuel : nat) (st : LoopState) :
  loop_invariant totalPartsCount partSize term st ->
  match loop fuel st with
  | inl r =>
      exists st', loop_invariant totalPartsCount partSize term st'
                  /\ partNumber st' <= totalPartsCount
                  /\ (read_failure st' r
                      \/ part_failure
                           (PutObjectPart c bucketName objectName uploadID) st' r)
  | inr st' => loop_invariant totalPartsCount partSize term st'
  end.
Proof.
  revert st. induction fuel as [|fuel IH]; intros st Hinv; simpl; [assumption|].
  destruct (Z.ltb_spec totalPartsCount (partNumber st)) as [Hgt|Hle]; [assumption|].
  destruct (turn st) as [r|[st' b]] eqn:Hturn.
  - exists st. split; [assumption|]. split; [assumption|].
    pose proof Hinv as (puts & _ & _ & _ & _ & _ & _ & Hbuf & _).
    rewrite partIteration_spec in Hturn by assumption. simpl in Hturn.
    destruct (lengthZ (rdata (reader st)) <? partSize) eqn:Hshort;
      [destruct (bool_decide (rterm (reader st) = EOF)) eqn:Heof|];
      simpl in Hturn.
    + destruct (PutObjectPart _ _ _ _ _ _ _ _ _) as [?|e] eqn:Hans;
        [discriminate|].
      injection Hturn as <-. right. unfold part_failure. simpl.
      repeat split. eauto 10.
    + injection Hturn as <-. left. unfold read_failure. simpl.
      apply bool_decide_eq_false in Heof. apply Z.ltb_lt in Hshort.
      repeat split; try assumption.
      by rewrite take_all_Z by lia.
    + destruct (PutObjectPart _ _ _ _ _ _ _ _ _) as [?|e] eqn:Hans;
        [discriminate|].
      injection Hturn as <-. right. unfold part_failure. simpl.
      repeat split. eauto 10.
  - assert (Hinv' : loop_invariant totalPartsCount partSize term st').
    { pose proof Hinv as (puts & _ & _ & _ & _ & _ & _ & Hbuf & _).
      pose proof Hturn as Hturn'.
      rewrite partIteration_spec in Hturn' by assumption. simpl in Hturn'.
      destruct (_ && negb _) in Hturn'; [discriminate|].
      destruct (PutObjectPart _ _ _ _ _ _ _ _ _) as [p|] eqn:Hans;
        [|discriminate].
      by destruct (loop_invariant_step st p b Hinv Hle Hans st' Hturn). }
    destruct b; [assumption|]. by apply IH.
Qed.

Lemma partLoop_S (fuel : nat) (st : LoopState) :
  loop (S fuel) st =
    if totalPartsCount <? partNumber st then inr st
    else match turn st with
         | inl r => inl r
         | inr (st', true) => inr st'
         | inr (st', false) => loop fuel st'
         end.
Proof. reflexivity. Qed.

(** The loop never stops for lack of fuel: once the fuel covers the part
    numbers left, one more turn of fuel changes nothing. *)
Lemma partLoop_fuel (fuel : nat) (st : LoopState) :
  loop_invariant totalPartsCount partSize term st ->
  totalPartsCount + 1 - partNumber st <= Z.of_nat fuel ->
  loop (S fuel) st = loop fuel st.
Proof.
  revert st. induction fuel as [|fuel IH]; intros st Hinv Hfuel.
  - rewrite partLoop_S.
    by destruct (Z.ltb_spec totalPartsCount (partNumber st)); [|lia].
  - rewrite (partLoop_S (S fuel)), (partLoop_S fuel).
    destruct (Z.ltb_spec totalPartsCount (partNumber st)) as [Hgt|Hle];
      [reflexivity|].
    destruct (turn st) as [r|[st' [|]]] eqn:Hturn; try reflexivity.
    pose proof Hinv as (puts & _ & _ & _ & _ & _ & _ & Hbuf & _).
    pose proof Hturn as Hturn'.
    rewrite partIteration_spec in Hturn' by assumption. simpl in Hturn'.
    destruct (_ && negb _) in Hturn'; [discriminate|].
    destruct (PutObjectPart _ _ _ _ _ _ _ _ _) as [p|] eqn:Hans; [|discriminate].
    destruct (loop_invariant_step st p false Hinv Hle Hans st' Hturn)
      as (Hinv' & Hpn' & _).
    apply IH; [assumption|lia].
Qed.

Lemma partLoop_fuel_enough (fuel extra : nat) (st : LoopState) :
  loop_invariant totalPartsCount partSize term st ->
  totalPartsCount + 1 - partNumber st <= Z.of_nat fuel ->
  loop (fuel + extra) st = loop fuel st.
Proof.
  intros Hinv Hfuel. induction extra as [|extra IH].
  - by rewrite Nat.add_0_r.
  - rewrite Nat.add_succ_r, partLoop_fuel by (assumption || lia). exact IH.
Qed.

(** The finalize step adds at most the completion call to the record. *)
Lemma finalize_calls (st : LoopState) :
  exists rest,
    ret_calls (fin st) = calls st ++ rest
    /\ Forall (fun x => is_put x = false) rest
    /\ ret_tmpBuffer (fin st) = wbytes (tmpBuffer st).
Proof.
  unfold finalize.
  destruct (_ && _).
  - exists []. simpl. by rewrite app_nil_r.
  - destruct (collectParts _ _ _ _).
    + exists []. simpl. by rewrite app_nil_r.
    + eexists [_]. simpl. repeat split. by repeat constructor.
Qed.

(** While the stream holds full parts and the store accepts them, the loop
    takes them one after the other. *)
Lemma partLoop_full_parts (j : nat) (fuel : nat) (st : LoopState) :
  (forall k sz d m s, 0 < sz ->
     exists p, PutObjectPart c bucketName objectName uploadID k sz d m s = inl p) ->
  loop_invariant totalPartsCount partSize term st ->
  partNumber st + Z.of_nat j <= totalPartsCount + 1 ->
  Z.of_nat j * partSize <= lengthZ (rdata (reader st)) ->
  (j <= fuel)%nat ->
  exists st',
    loop fuel st = loop (fuel - j) st'
    /\ loop_invariant totalPartsCount partSize term st'
    /\ partNumber st' = partNumber st + Z.of_nat j
    /\ rdata (reader st') = drop (Z.to_nat (Z.of_nat j * partSize)) (rdata (reader st))
    /\ rterm (reader st') = rterm (reader st)
    /\ exists puts, calls st' = calls st ++ puts
                    /\ Forall (fun x => put_size x = partSize) puts
                    /\ length puts = j.
Proof.
  intros Hacc. revert fuel st.
  induction j as [|j IH]; intros fuel st Hinv Hpn Hlen Hfuel.
  - exists st. rewrite Nat.sub_0_r. simpl.
    repeat split; try assumption; try lia.
    exists []. by rewrite app_nil_r.
  - destruct fuel as [|fuel]; [lia|].
    pose proof Hinv as (puts0 & _ & _ & _ & _ & _ & _ & Hbuf & _).
    set (data := rdata (reader st)) in *.
    set (chunk := take (Z.to_nat partSize) data).
    assert (Hchunk : lengthZ chunk = partSize).
    { subst chunk. rewrite lengthZ_take by lia. nia. }
    destruct (Hacc (partNumber st) (lengthZ chunk) chunk
                (digest_of md5_New chunk) (digest_of sha256_New chunk))
      as [p Hans]; [lia|].
    assert (Hturn : exists st1, turn st = inr (st1, false)).
    { rewrite partIteration_spec by assumption. simpl.
      fold data. fold chunk. rewrite Hans.
      destruct (Z.ltb_spec (lengthZ data) partSize) as [?|_]; [nia|].
      simpl. rewrite andb_false_r. eauto. }
    destruct Hturn as [st1 Hturn].
    destruct (loop_invariant_step st p false Hinv ltac:(lia) Hans st1 Hturn)
      as (Hinv1 & Hpn1 & _ & Hdata1 & Hterm1 & Hcalls1).
    fold data in Hdata1. fold chunk in Hcalls1.
    destruct (IH fuel st1 Hinv1) as (st' & Hloop & Hinv' & Hpn' & Hdata' & Hterm' & puts & Hcalls' & Hsizes & Hcount).
    + lia.
    + rewrite Hdata1, lengthZ_drop by lia. nia.
    + lia.
    + exists st'. repeat split.
      * simpl. destruct (Z.ltb_spec totalPartsCount (partNumber st)); [lia|].
        rewrite Hturn. exact Hloop.
      * assumption.
      * lia.
      * rewrite Hdata', Hdata1, drop_drop. f_equal. nia.
      * congruence.
      * eexists (_ :: puts). rewrite Hcalls', Hcalls1, <- app_assoc. simpl.
        repeat split.
        -- constructor; [simpl; assumption|assumption].
        -- simpl. by rewrite Hcount.
Qed.

End PartLoop.

(** ** The finalize step: collecting and sorting the records *)

Lemma recorded_parts_S (partsInfo : gmap Z ObjectPart.t) (i : Z) (count : nat) :
  recorded_parts partsInfo i (S count) =
    match partsInfo !! i with
    | Some part => to_CompletePart part :: recorded_parts partsInfo (i + 1) count
    | None => recorded_parts partsInfo (i + 1) count
    end.
Proof.
  unfold recorded_parts.
  rewrite Nat2Z.inj_succ, seqZ_cons by lia. simpl.
  replace (Z.pred (Z.succ (Z.of_nat count))) with (Z.of_nat count) by lia.
  replace (Z.succ i) with (i + 1) by lia.
  by destruct (partsInfo !! i).
Qed.

(** The collecting loop stops at the first part number without a record. *)
Lemma collectParts_inl (partsInfo : gmap Z ObjectPart.t) (count : nat) (i : Z)
    (acc : list CompletePart.t) (e : error) :
  collectParts partsInfo i count acc = inl e ->
  exists j, e = MissingPartNumber j
            /\ i <= j < i + Z.of_nat count
            /\ partsInfo !! j = None
            /\ forall j', i <= j' < j -> is_Some (partsInfo !! j').
Proof.
  revert i acc. induction count as [|count IH]; intros i acc; simpl.
  - discriminate.
  - destruct (partsInfo !! i) as [part|] eqn:Hi.
    + intros Hrec. destruct (IH _ _ Hrec) as (j & -> & Hj & Hnone & Hbelow).
      exists j. repeat split; try lia; try assumption.
      intros j' Hj'. destruct (decide (j' = i)) as [->|?]; [eauto|].
      apply Hbelow. lia.
    + intros [= <-]. exists i. repeat split; try lia; try assumption.
Qed.

(** With a record for every part number it appends them all, in order. *)
Lemma collectParts_inr (partsInfo : gmap Z ObjectPart.t) (count : nat) (i : Z)
    (acc Parts : list CompletePart.t) :
  collectParts partsInfo i count acc = inr Parts ->
  Parts = acc ++ recorded_parts partsInfo i count
  /\ forall j, i <= j < i + Z.of_nat count -> is_Some (partsInfo !! j).
Proof.
  revert i acc. induction count as [|count IH]; intros i acc; simpl.
  - intros [= <-]. split; [by rewrite app_nil_r|]. intros j Hj. lia.
  - rewrite recorded_parts_S.
    destruct (partsInfo !! i) as [part|] eqn:Hi; [|discriminate].
    intros Hrec. destruct (IH _ _ Hrec) as [-> Hall].
    split; [by rewrite <- app_assoc|].
    intros j Hj. destruct (decide (j = i)) as [->|?]; [eauto|].
    apply Hall. lia.
Qed.

Lemma sort_insert_perm (x : CompletePart.t) (l : list CompletePart.t) :
  sort_insert x l ≡ₚ x :: l.
Proof.
  induction l as [|y l IH]; simpl; [reflexivity|].
  destruct (Less x y); [reflexivity|].
  rewrite IH. apply Permutation_swap.
Qed.

Lemma sort_Sort_perm (l : list CompletePart.t) : sort_Sort l ≡ₚ l.
Proof.
  induction l as [|x l IH]; simpl; [reflexivity|].
  by rewrite sort_insert_perm, IH.
Qed.

Lemma sort_insert_sorted (x : CompletePart.t) (l : list CompletePart.t) :
  StronglySorted number_le l -> StronglySorted number_le (sort_insert x l).
Proof.
  induction l as [|y l IH]; simpl; intros Hs.
  - repeat constructor.
  - apply StronglySorted_inv in Hs. destruct Hs as [Hl Hy].
    unfold Less. destruct (Z.ltb_spec (CompletePart.PartNumber x)
                                      (CompletePart.PartNumber y)) as [Hlt|Hge].
    + constructor; [by constructor|].
      constructor; [unfold number_le; lia|].
      eapply Forall_impl; [exact Hy|]. unfold number_le. intros z Hz. lia.
    + constructor; [by apply IH|].
      rewrite sort_insert_perm. constructor; [exact Hge|exact Hy].
Qed.

Lemma sort_Sort_sorted (l : list CompletePart.t) :
  StronglySorted number_le (sort_Sort l).
Proof.
  induction l as [|x l IH]; simpl; [constructor|].
  by apply sort_insert_sorted.
Qed.

(** A list already in strictly ascending order is left as it is. *)
Lemma sort_Sort_ascending (l : list CompletePart.t) (i : Z) :
  CompletePart.PartNumber <$> l = seqZ i (Z.of_nat (length l)) ->
  sort_Sort l = l.
Proof.
  revert i. induction l as [|x l IH]; intros i; [reflexivity|].
  simpl length. rewrite Nat2Z.inj_succ, seqZ_cons by lia.
  rewrite fmap_cons. intros [= Hx Hl].
  replace (Z.pred (Z.succ (Z.of_nat (length l)))) with (Z.of_nat (length l))
    in Hl by lia.
  simpl. rewrite (IH _ Hl).
  destruct l as [|y l]; [reflexivity|].
  simpl in Hl. rewrite Nat2Z.inj_succ, seqZ_cons in Hl by lia.
  injection Hl as Hy _.
  simpl. unfold Less.
  destruct (Z.ltb_spec (CompletePart.PartNumber x) (CompletePart.PartNumber y));
    [reflexivity|lia].
Qed.

Lemma recorded_parts_length (partsInfo : gmap Z ObjectPart.t) (count : nat) (i : Z) :
  (forall j, i <= j < i + Z.of_nat count -> is_Some (partsInfo !! j)) ->
  length (recorded_parts partsInfo i count) = count.
Proof.
  revert i. induction count as [|count IH]; intros i Hall; [reflexivity|].
  rewrite recorded_parts_S.
  destruct (Hall i ltac:(lia)) as [part ->]. simpl.
  rewrite IH; [reflexivity|]. intros j Hj. apply Hall. lia.
Qed.

(** When every record carries the number it is kept under, the collected
    numbers are those of the range, in order. *)
Lemma recorded_parts_numbers (partsInfo : gmap Z ObjectPart.t) (count : nat) (i : Z) :
  (forall j, i <= j < i + Z.of_nat count ->
     exists part, partsInfo !! j = Some part /\ ObjectPart.PartNumber part = j) ->
  CompletePart.PartNumber <$> recorded_parts partsInfo i count
    = seqZ i (Z.of_nat count).
Proof.
  revert i. induction count as [|count IH]; intros i Hall; [reflexivity|].
  rewrite recorded_parts_S.
  destruct (Hall i ltac:(lia)) as (part & -> & Hnum).
  rewrite Nat2Z.inj_succ, seqZ_cons by lia.
  rewrite fmap_cons. simpl. rewrite Hnum. f_equal.
  replace (Z.pred (Z.succ (Z.of_nat count))) with (Z.of_nat count) by lia.
  replace (Z.succ i) with (i + 1) by lia.
  apply IH. intros j Hj. apply Hall. lia.
Qed.

(** C5: the finalize step of [PutStream] (entered with the unknown size).
    If a part number from 1 up to the current one less one has no record,
    it returns the missing-part error for the first such number and asks
    nothing of the store. Otherwise it issues the completion call with the
    recorded parts in ascending order of part number; with every record
    carrying the number it is kept under, as the store client hands them
    out, these are the numbers 1, 2, ... up to the current one less one. *)
Theorem finalize_part_list (c : Store) (bucketName objectName uploadID : string)
    (st : LoopState) :
  let r := finalize c bucketName objectName uploadID (-1) st in
  let count := Z.to_nat (partNumber st - 1) in
  ((exists i, 1 <= i < partNumber st /\ partsInfo st !! i = None) ->
   exists i,
     1 <= i < partNumber st /\ partsInfo st !! i = None
     /\ (forall i', 1 <= i' < i -> is_Some (partsInfo st !! i'))
     /\ ret_err r = Some (MissingPartNumber i) /\ ret_n r = 0
     /\ ret_site r = ret_missing_part /\ ret_calls r = calls st)
  /\ ((forall i, 1 <= i < partNumber st -> is_Some (partsInfo st !! i)) ->
      exists Parts,
        ret_calls r = calls st ++ [call_CompleteMultipartUpload Parts]
        /\ ret_site r = ret_completed
        /\ ret_err r = CompleteMultipartUpload c bucketName objectName uploadID Parts
        /\ ret_n r = totalUploadedSize st
        /\ StronglySorted number_le Parts
        /\ Parts ≡ₚ recorded_parts (partsInfo st) 1 count
        /\ length Parts = count
        /\ ((forall i part, partsInfo st !! i = Some part ->
                            ObjectPart.PartNumber part = i) ->
            CompletePart.PartNumber <$> Parts = seqZ 1 (partNumber st - 1))).
Proof.
  simpl. unfold finalize. simpl.
  destruct (collectParts (partsInfo st) 1 (Z.to_nat (partNumber st - 1)) [])
    as [e|Parts] eqn:Hcollect.
  - destruct (collectParts_inl _ _ _ _ _ Hcollect)
      as (j & -> & Hj & Hnone & Hbelow).
    split.
    + intros _. exists j. simpl. repeat split; try lia; assumption.
    + intros Hall. destruct (Hall j ltac:(lia)) as [part Hpart]. congruence.
  - destruct (collectParts_inr _ _ _ _ _ Hcollect) as [-> Hall]. simpl.
    split.
    + intros (i & Hi & Hnone). destruct (Hall i ltac:(lia)) as [part Hpart].
      congruence.
    + intros _. eexists. repeat split.
      * apply sort_Sort_sorted.
      * apply sort_Sort_perm.
      * rewrite sort_Sort_perm. apply recorded_parts_length. exact Hall.
      * intros Hecho.
        assert (Hnum : CompletePart.PartNumber <$>
                         recorded_parts (partsInfo st) 1 (Z.to_nat (partNumber st - 1))
                       = seqZ 1 (Z.of_nat (Z.to_nat (partNumber st - 1)))).
        { apply recorded_parts_numbers. intros j Hj.
          destruct (Hall j Hj) as [part Hpart]. eauto. }
        rewrite (sort_Sort_ascending _ 1).
        -- rewrite Hnum.
           destruct (Z.le_gt_cases 1 (partNumber st)); [f_equal; lia|].
           rewrite !seqZ_nil; [reflexivity|lia|lia].
        -- by rewrite recorded_parts_length.
Qed.

Lemma finalize_part_list_witness :
  let st :=
    {| partNumber := 3; totalUploadedSize := 6;
       partsInfo :=
         <[2 := {| ObjectPart.PartNumber := 2; ObjectPart.ETag := "b";
                   ObjectPart.Size := 3 |}]>
           (<[1 := {| ObjectPart.PartNumber := 1; ObjectPart.ETag := "a";
                      ObjectPart.Size := 3 |}]> ∅);
       tmpBuffer := bytes_Buffer;
       reader := {| rdata := []; rterm := EOF |};
       calls := [call_NewMultipartUpload] |} in
  exists Parts,
    ret_calls (finalize accepting_Store "bucket" "object" "upload-1" (-1) st)
      = calls st ++ [call_CompleteMultipartUpload Parts]
    /\ CompletePart.PartNumber <$> Parts = [1; 2].
Proof.
  intros st.
  destruct (finalize_part_list accepting_Store "bucket" "object" "upload-1" st)
    as [_ Hall].
  destruct Hall as (Parts & Hcalls & _ & _ & _ & _ & _ & _ & Hnum).
  - intros i Hi. simpl in Hi.
    assert (Hcase : i = 1 \/ i = 2) by lia.
    destruct Hcase as [-> | ->]; vm_compute; eauto.
  - exists Parts. split; [exact Hcalls|].
    apply Hnum. intros i part. subst st. simpl.
    destruct (decide (i = 2)) as [->|?].
    { rewrite lookup_insert_eq. by intros [= <-]. }
    rewrite lookup_insert_ne by done.
    destruct (decide (i = 1)) as [->|?].
    { rewrite lookup_insert_eq. by intros [= <-]. }
    rewrite lookup_insert_ne by done. by rewrite lookup_empty.
Defined.

(** ** UploadOrchestrator: the whole operation *)

Section PutStreamFacts.

Variable conv : F64.float64 -> Z.
Variables md5_New sha256_New : Hash.
Variable Getenv : string -> string.
Variable c : Store.
Variables bucketName objectName : string.
Variable src : Reader.
Variable metaData : gmap string (list string).

Local Abbreviation PutStream_here :=
  (PutStream conv md5_New sha256_New Getenv c bucketName objectName src metaData).

Lemma initial_state_invariant :
  loop_invariant 5120 134217728 (rterm src) (initial_state src).
Proof.
  exists []. simpl. repeat split; try reflexivity; try lia.
  constructor.
Qed.

(** Once the client is made and the upload initiated, [PutStream] is the
    part loop under the plan for the unknown size, then the finalize step. *)
Lemma PutStream_started (uploadID : string) :
  NewV2 c (Getenv "S3_ADDRESS") (Getenv "ACCESS_KEY") (Getenv "SECRET_KEY")
    (bool_decide (Getenv "SSL" ≠ "")) = None ->
  NewMultipartUpload c bucketName objectName metaData = inl uploadID ->
  PutStream_here =
    match partLoop md5_New sha256_New c bucketName objectName uploadID
            5120 134217728 (-1) (Z.to_nat 5120) (initial_state src) with
    | inl r => r
    | inr st' => finalize c bucketName objectName uploadID (-1) st'
    end.
Proof.
  intros Hnew Hinit. unfold PutStream.
  rewrite Hnew, Hinit, optimalPartInfo_unknown. reflexivity.
Qed.

Lemma plan_fits_unknown :
  0 <= 5120 < 2 ^ 62 /\ 5120 * 134217728 < 2 ^ 63.
Proof. split; [split|]; lia. Qed.

(** The turns [PutStream] gives its part loop are all the loop can take:
    with any number of turns more it ends the same way. *)
Lemma PutStream_loop_fuel (uploadID : string) (extra : nat) :
  partLoop md5_New sha256_New c bucketName objectName uploadID
    5120 134217728 (-1) (Z.to_nat 5120 + extra) (initial_state src)
  = partLoop md5_New sha256_New c bucketName objectName uploadID
      5120 134217728 (-1) (Z.to_nat 5120) (initial_state src).
Proof.
  apply (partLoop_fuel_enough md5_New sha256_New c bucketName objectName
           uploadID 5120 134217728 (-1) (rterm src) ltac:(lia)
           plan_fits_unknown).
  - apply initial_state_invariant.
  - rewrite Z2Nat.id by lia. simpl. lia.
Qed.

(** Every way [PutStream] can go. *)
Lemma PutStream_cases :
  (exists e,
     NewV2 c (Getenv "S3_ADDRESS") (Getenv "ACCESS_KEY") (Getenv "SECRET_KEY")
       (bool_decide (Getenv "SSL" ≠ "")) = Some e
     /\ PutStream_here =
          {| ret_n := 0; ret_err := Some e; ret_site := ret_NewV2_failed;
             ret_calls := []; ret_tmpBuffer := [] |})
  \/ (exists e,
        NewMultipartUpload c bucketName objectName metaData = inr e
        /\ PutStream_here =
             {| ret_n := 0; ret_err := Some e;
                ret_site := ret_NewMultipartUpload_failed;
                ret_calls := [call_NewMultipartUpload]; ret_tmpBuffer := [] |})
  \/ (exists uploadID st,
        NewMultipartUpload c bucketName objectName metaData = inl uploadID
        /\ loop_invariant 5120 134217728 (rterm src) st
        /\ (read_failure st PutStream_here
            \/ part_failure (PutObjectPart c bucketName objectName uploadID)
                 st PutStream_here
            \/ PutStream_here = finalize c bucketName objectName uploadID (-1) st)).
Proof.
  destruct (NewV2 c (Getenv "S3_ADDRESS") (Getenv "ACCESS_KEY")
              (Getenv "SECRET_KEY") (bool_decide (Getenv "SSL" ≠ "")))
    as [e|] eqn:Hnew.
  { left. exists e. split; [reflexivity|]. unfold PutStream. by rewrite Hnew. }
  destruct (NewMultipartUpload c bucketName objectName metaData)
    as [uploadID|e] eqn:Hinit.
  2:{ right. left. exists e. split; [reflexivity|].
      unfold PutStream. by rewrite Hnew, Hinit. }
  right. right. exists uploadID.
  rewrite (PutStream_started uploadID Hnew Hinit).
  pose proof (partLoop_outcome md5_New sha256_New c bucketName objectName
                uploadID 5120 134217728 (-1) (rterm src) ltac:(lia)
                plan_fits_unknown (Z.to_nat 5120) (initial_state src)
                initial_state_invariant) as Hout.
  destruct (partLoop _ _ _ _ _ _ _ _ _ _ _) as [r|st'].
  - destruct Hout as (st' & Hinv & _ & [Hread|Hpart]); exists st'; tauto.
  - exists st'. tauto.
Qed.

(** The size check of the finalize step lets the unknown size through. *)
Lemma finalize_unknown_site (uploadID : string) (st : LoopState) :
  let r := finalize c bucketName objectName uploadID (-1) st in
  (ret_site r = ret_missing_part /\ exists i, ret_err r = Some (MissingPartNumber i))
  \/ (ret_site r = ret_completed
      /\ exists Parts,
           ret_err r = CompleteMultipartUpload c bucketName objectName uploadID Parts).
Proof.
  unfold finalize. simpl.
  destruct (collectParts _ _ _ _) as [e|Parts] eqn:Hcollect; simpl; [left|right; eauto].
  split; [reflexivity|].
  destruct (collectParts_inl _ _ _ _ _ Hcollect) as (j & -> & _). eauto.
Qed.

(** C10: [PutStream] never returns from the size check, whose error is the
    unexpected end of the stream: the size it plans with is the unknown-size
    value -1. An unexpected-end error can therefore only be one that a
    collaborator (the stream or the store) handed over. *)
Theorem PutStream_never_short_object :
  let r :=
    PutStream conv md5_New sha256_New Getenv c bucketName objectName src metaData in
  ret_site r <> ret_short_object
  /\ ((forall endpoint accessKey secretKey ssl,
         NewV2 c endpoint accessKey secretKey ssl <> Some ErrUnexpectedEOF) ->
      (NewMultipartUpload c bucketName objectName metaData
         <> inr ErrUnexpectedEOF) ->
      (forall uploadID k sz d m s,
         PutObjectPart c bucketName objectName uploadID k sz d m s
           <> inr ErrUnexpectedEOF) ->
      (forall uploadID Parts,
         CompleteMultipartUpload c bucketName objectName uploadID Parts
           <> Some ErrUnexpectedEOF) ->
      rterm src <> ErrUnexpectedEOF ->
      ret_err r <> Some ErrUnexpectedEOF).
Proof.
  cbv zeta.
  destruct PutStream_cases
    as [(e & He & ->)|[(e & He & ->)|(uploadID & st & Hinit & Hinv & Hcase)]].
  - split; [discriminate|]. simpl. intros H _ _ _ _ [= ->]. by eapply H.
  - split; [discriminate|]. simpl. intros _ H _ _ _ [= ->]. by apply H.
  - destruct Hinv as (puts & _ & Hterm & _).
    destruct Hcase as [Hread|[Hpart|Hfin]].
    + destruct Hread as (Hsite & _ & Herr & _).
      split; [rewrite Hsite; discriminate|].
      intros _ _ _ _ Hsrc. rewrite Herr, Hterm. congruence.
    + destruct Hpart as (Hsite & _ & _ & sz & d & m & s & e & Hans & Herr & _).
      split; [rewrite Hsite; discriminate|].
      intros _ _ H _ _. rewrite Herr. intros [= ->]. by eapply H.
    + rewrite Hfin.
      destruct (finalize_unknown_site uploadID st)
        as [(Hsite & i & Herr)|(Hsite & Parts & Herr)].
      * split; [rewrite Hsite; discriminate|].
        intros _ _ _ _ _. rewrite Herr. discriminate.
      * split; [rewrite Hsite; discriminate|].
        intros _ _ _ H _. rewrite Herr. apply H.
Qed.

(** C3: when the store refuses a part, that transfer is the last thing
    asked of the store: before it come the transfers of the parts 1, 2, ...
    below it, once each and all accepted, and no completion call follows.
    [PutStream] returns the error of the store with the total size of those
    earlier parts, and the temporary buffer is empty. *)
Theorem PutStream_part_failure (k sz : Z) (d m s : list byte) (e : error) :
  let r :=
    PutStream conv md5_New sha256_New Getenv c bucketName objectName src metaData in
  In (call_PutObjectPart k sz d m s (inr e)) (ret_calls r) ->
  exists puts,
    ret_calls r =
      call_NewMultipartUpload :: puts ++ [call_PutObjectPart k sz d m s (inr e)]
    /\ Forall put_ok puts
    /\ put_number <$> puts = seqZ 1 (k - 1)
    /\ ret_err r = Some e
    /\ ret_n r = sum_sizes puts
    /\ ret_tmpBuffer r = []
    /\ ret_site r = ret_PutObjectPart_failed.
Proof.
  cbv zeta.
  assert (Hgood : forall puts, Forall put_ok puts ->
            ~ In (call_PutObjectPart k sz d m s (inr e)) puts).
  { intros puts Hok Hin. rewrite Forall_forall in Hok.
    apply list_elem_of_In in Hin. exact (Hok _ Hin). }
  destruct PutStream_cases
    as [(e' & He & ->)|[(e' & He & ->)|(uploadID & st & Hinit & Hinv & Hcase)]].
  - simpl. tauto.
  - simpl. intros [[=]|[]].
  - destruct Hinv as (puts & Hcalls & _ & Hok & Hnum & Htot & _).
    destruct Hcase as [Hread|[Hpart|Hfin]].
    + destruct Hread as (_ & _ & _ & _ & Hc & _). rewrite Hc, Hcalls.
      intros [[=]|Hin]. by apply Hgood in Hin.
    + destruct Hpart
        as (Hsite & Hn & Hbuf & sz' & d' & m' & s' & e' & Hans & Herr & Hc).
      rewrite Hc, Hcalls. simpl. intros [[=]|Hin].
      apply in_app_or in Hin. destruct Hin as [Hin|[Heq|[]]];
        [by apply Hgood in Hin|].
      injection Heq as <- <- <- <- <- <-.
      exists puts. repeat split; try assumption. congruence.
    + rewrite Hfin.
      destruct (finalize_calls c bucketName objectName uploadID (-1) st)
        as (rest & Hc & Hrest & _).
      rewrite Hc, Hcalls. simpl. intros [[=]|Hin].
      apply in_app_or in Hin. destruct Hin as [Hin|Hin];
        [by apply Hgood in Hin|].
      rewrite Forall_forall in Hrest. apply list_elem_of_In in Hin.
      by apply Hrest in Hin.
Qed.

End PutStreamFacts.

Section Streams.

Variable conv : F64.float64 -> Z.
Variables md5_New sha256_New : Hash.
Variable Getenv : string -> string.
Variable c : Store.
Variables bucketName objectName : string.
Variable metaData : gmap string (list string).

Local Abbreviation PutStream_of src :=
  (PutStream conv md5_New sha256_New Getenv c bucketName objectName src metaData).

Lemma planned_size_unknown : planned_size conv = 134217728.
Proof. unfold planned_size. by rewrite optimalPartInfo_unknown. Qed.

Lemma planned_count_unknown : planned_count conv = 5120.
Proof. unfold planned_count. by rewrite optimalPartInfo_unknown. Qed.

(** C4: a stream shorter than the planned part size, sent to a store that
    always succeeds, is uploaded as the single part 1 of the length of the
    stream; the completion call follows, and [PutStream] returns that length
    without an error. *)
Theorem PutStream_short_stream (data : list byte) :
  always_succeeds c ->
  lengthZ data < planned_size conv ->
  let r :=
    PutStream conv md5_New sha256_New Getenv c bucketName objectName
      {| rdata := data; rterm := EOF |} metaData in
  exists answer Parts,
    ret_calls r =
      [call_NewMultipartUpload;
       call_PutObjectPart 1 (lengthZ data) data (digest_of md5_New data)
         (digest_of sha256_New data) (inl answer);
       call_CompleteMultipartUpload Parts]
    /\ ret_n r = lengthZ data
    /\ ret_err r = None
    /\ ret_site r = ret_completed.
Proof.
  intros (Hnew & Hinit & Hput & Hdone) Hshort. simpl.
  rewrite planned_size_unknown in Hshort.
  destruct (Hinit bucketName objectName metaData) as [uploadID HuploadID].
  rewrite (PutStream_started _ _ _ _ _ _ _ _ _ uploadID (Hnew _ _ _ _) HuploadID).
  replace (Z.to_nat 5120) with (S (Z.to_nat 5119)) by lia.
  cbn [partLoop]. change (5120 <? partNumber (initial_state _)) with false.
  cbv iota.
  rewrite partIteration_spec by (lia || reflexivity).
  cbn [initial_state reader rdata rterm partNumber totalUploadedSize calls partsInfo].
  rewrite (take_all_Z data) by lia.
  destruct (Z.ltb_spec (lengthZ data) 134217728) as [_|?]; [|lia].
  rewrite (bool_decide_eq_true_2 (EOF = EOF)) by done.
  cbn [andb negb].
  destruct (Hput bucketName objectName uploadID 1 (lengthZ data) data
              (digest_of md5_New data) (digest_of sha256_New data))
    as [answer Hanswer].
  rewrite Hanswer. cbv iota beta.
  change (-1 <? 0) with true. cbn [andb].
  unfold finalize.
  cbn [partNumber totalUploadedSize calls partsInfo tmpBuffer].
  change (0 <? -1) with false. cbn [andb].
  change (Z.to_nat (add64 1 1 - 1)) with 1%nat.
  cbn [collectParts]. rewrite lookup_insert_eq.
  exists answer. eexists. cbn [ret_calls ret_n ret_err ret_site app].
  split; [reflexivity|]. split; [|split; [apply Hdone|reflexivity]].
  unfold add64. apply wrap64_id. unfold int64_range. pow64.
  pose proof (lengthZ_nonneg data). lia.
Qed.

(** A stream that starts with [j] full parts, on a store that accepts
    them: [PutStream] uploads these parts and goes on from there. *)
Lemma PutStream_after_full_parts (src : Reader) (j : nat) (uploadID : string) :
  NewV2 c (Getenv "S3_ADDRESS") (Getenv "ACCESS_KEY") (Getenv "SECRET_KEY")
    (bool_decide (Getenv "SSL" ≠ "")) = None ->
  NewMultipartUpload c bucketName objectName metaData = inl uploadID ->
  (forall k sz d m s, 0 < sz ->
     exists p, PutObjectPart c bucketName objectName uploadID k sz d m s = inl p) ->
  Z.of_nat j <= 5120 ->
  Z.of_nat j * 134217728 <= lengthZ (rdata src) ->
  exists st puts,
    PutStream_of src =
      match partLoop md5_New sha256_New c bucketName objectName uploadID
              5120 134217728 (-1) (Z.to_nat 5120 - j) st with
      | inl r => r
      | inr st' => finalize c bucketName objectName uploadID (-1) st'
      end
    /\ loop_invariant 5120 134217728 (rterm src) st
    /\ partNumber st = 1 + Z.of_nat j
    /\ rdata (reader st) = drop (Z.to_nat (Z.of_nat j * 134217728)) (rdata src)
    /\ rterm (reader st) = rterm src
    /\ calls st = call_NewMultipartUpload :: puts
    /\ Forall (fun x => put_size x = 134217728) puts
    /\ Forall put_ok puts
    /\ length puts = j
    /\ totalUploadedSize st = sum_sizes puts.
Proof.
  intros Hnew Hinit Hacc Hj Hlen.
  rewrite (PutStream_started _ _ _ _ _ _ _ _ _ uploadID Hnew Hinit).
  destruct (partLoop_full_parts md5_New sha256_New c bucketName objectName
              uploadID 5120 134217728 (-1) (rterm src) ltac:(lia)
              plan_fits_unknown j (Z.to_nat 5120) (initial_state src) Hacc
              (initial_state_invariant src))
    as (st & Hloop & Hinv & Hpn & Hdata & Hterm & puts & Hcalls & Hsizes & Hcount).
  - cbn [initial_state partNumber]. lia.
  - exact Hlen.
  - lia.
  - exists st, puts. rewrite Hloop.
    pose proof Hinv as (puts' & Hcalls' & Hterm' & Hok & Hnum & Htot & Hrest).
    assert (puts' = puts) as ->
      by (cbn [initial_state calls app] in Hcalls; congruence).
    split; [reflexivity|]. split; [exact Hinv|].
    cbn [initial_state partNumber reader] in Hpn, Hdata.
    repeat split; try assumption; lia.
Qed.

(** C8, as the code has it: a stream of [k] full parts, with [k] below the
    planned part count, on a store that accepts the parts that are not
    empty: after these [k] parts [PutStream] asks the store for part [k+1]
    with no data and size zero, and for no part after it. *)
Theorem PutStream_trailing_empty_part (data : list byte) (k : Z) :
  accepts_nonempty_parts c ->
  1 <= k < planned_count conv ->
  lengthZ data = k * planned_size conv ->
  let r :=
    PutStream conv md5_New sha256_New Getenv c bucketName objectName
      {| rdata := data; rterm := EOF |} metaData in
  exists puts answer rest,
    ret_calls r =
      call_NewMultipartUpload :: puts ++
      call_PutObjectPart (k + 1) 0 [] (digest_of md5_New [])
        (digest_of sha256_New []) answer :: rest
    /\ length puts = Z.to_nat k
    /\ Forall (fun x => put_size x = planned_size conv) puts
    /\ Forall put_ok puts
    /\ Forall (fun x => is_put x = false) rest.
Proof.
  intros (Hnew & Hinit & Hacc) Hk Hlen. simpl.
  rewrite planned_count_unknown in Hk. rewrite planned_size_unknown in *.
  destruct (Hinit bucketName objectName metaData) as [uploadID HuploadID].
  destruct (PutStream_after_full_parts {| rdata := data; rterm := EOF |}
              (Z.to_nat k) uploadID (Hnew _ _ _ _) HuploadID (Hacc _ _ _)
              ltac:(lia) ltac:(cbn [rdata]; lia))
    as (st & puts & -> & Hinv & Hpn & Hdata & Hterm & Hcalls & Hsizes & Hok
        & Hcount & _).
  cbn [rdata rterm] in *.
  replace (Z.to_nat 5120 - Z.to_nat k)%nat
    with (S (Z.to_nat 5120 - Z.to_nat k - 1)) by lia.
  cbn [partLoop].
  destruct (Z.ltb_spec 5120 (partNumber st)) as [?|_]; [lia|].
  pose proof Hinv as (_ & _ & _ & _ & _ & _ & _ & Hbuf & _).
  rewrite partIteration_spec by (lia || assumption).
  rewrite Hdata, Hterm, drop_all_Z by lia.
  cbv zeta. rewrite take_nil.
  change (lengthZ (@nil byte)) with 0.
  change (0 <? 134217728) with true.
  rewrite (bool_decide_eq_true_2 (EOF = EOF)) by done.
  cbn [andb negb]. rewrite Hpn, Hcalls.
  replace (1 + Z.of_nat (Z.to_nat k)) with (k + 1) by lia.
  destruct (PutObjectPart c bucketName objectName uploadID (k + 1) 0 []
              (digest_of md5_New []) (digest_of sha256_New [])) as [p|e].
  - change (-1 <? 0) with true. cbn [andb].
    match goal with |- context [finalize _ _ _ _ _ ?st'] =>
      destruct (finalize_calls c bucketName objectName uploadID (-1) st')
        as (rest & -> & Hrest & _)
    end.
    cbn [calls]. exists puts, (inl p), rest.
    rewrite <- !app_assoc. simpl. repeat split; assumption.
  - exists puts, (inr e), []. cbn [ret_calls]. simpl.
    repeat split; try assumption. constructor.
Qed.

End Streams.

(** ** The theorems at sample streams and stores *)

Lemma accepting_Store_always_succeeds : always_succeeds accepting_Store.
Proof. repeat split; intros; simpl; eauto. Qed.

Lemma accepting_Store_accepts_nonempty_parts :
  accepts_nonempty_parts accepting_Store.
Proof. repeat split; intros; simpl; eauto. Qed.

Lemma cap_stream_length : lengthZ cap_stream = 5120 * 134217728.
Proof. unfold lengthZ, cap_stream. rewrite length_replicate. lia. Qed.

Lemma broken_stream_length : lengthZ (rdata broken_stream) = 134217728 + 3.
Proof.
  unfold lengthZ, broken_stream, rdata.
  rewrite length_app, length_replicate.
  change (length sample_bytes) with 3%nat. lia.
Qed.

Lemma broken_stream_term : rterm broken_stream = Fault "connection reset".
Proof. reflexivity. Qed.

(** C8 as stated fails at the cap of the plan: of a stream of exactly 5120
    parts of 128 MiB, on a store that always succeeds, the loop uploads the
    5120 parts and stops there; no part of size zero is asked for. *)
Lemma PutStream_no_empty_part_at_cap :
  always_succeeds accepting_Store
  /\ lengthZ cap_stream = 5120 * planned_size amd64_conv
  /\ forall k d m s answer,
       ~ In (call_PutObjectPart k 0 d m s answer)
            (ret_calls (sample_PutStream accepting_Store
                          {| rdata := cap_stream; rterm := EOF |})).
Proof.
  split; [exact accepting_Store_always_succeeds|].
  split; [by rewrite planned_size_unknown, cap_stream_length|].
  intros k d m s answer. unfold sample_PutStream.
  destruct (PutStream_after_full_parts amd64_conv (sample_Hash Byte.x01)
              (sample_Hash Byte.x02) sample_Getenv accepting_Store
              "bucket" "object" ∅ {| rdata := cap_stream; rterm := EOF |}
              (Z.to_nat 5120) "upload-1")
    as (st & puts & -> & _ & _ & _ & _ & Hcalls & Hsizes & _).
  - reflexivity.
  - reflexivity.
  - intros. simpl. eauto.
  - lia.
  - cbn [rdata]. rewrite cap_stream_length. lia.
  - rewrite Nat.sub_diag. cbn [partLoop].
    destruct (finalize_calls accepting_Store "bucket" "object" "upload-1" (-1) st)
      as (rest & -> & Hrest & _).
    rewrite Hcalls. intros [[=]|Hin]. apply in_app_or in Hin.
    rewrite Forall_forall in Hsizes. rewrite Forall_forall in Hrest.
    destruct Hin as [Hin|Hin]; apply list_elem_of_In in Hin.
    + apply Hsizes in Hin. discriminate.
    + apply Hrest in Hin. discriminate.
Qed.

(** C2: the stream breaks three bytes into the second part, after a first
    part of 128 MiB that the store accepted. [PutStream] returns the error
    of the stream with the count 0, not the 128 MiB transferred, and the
    temporary buffer still holds the three bytes. *)
Theorem PutStream_read_failure_reports_nothing :
  let r := sample_PutStream accepting_Store broken_stream in
  ret_site r = ret_read_failed
  /\ ret_err r = Some (Fault "connection reset")
  /\ ret_n r = 0
  /\ sum_sizes (ret_calls r) = 134217728
  /\ ret_tmpBuffer r = sample_bytes.
Proof.
  cbv zeta. unfold sample_PutStream.
  destruct (PutStream_after_full_parts amd64_conv (sample_Hash Byte.x01)
              (sample_Hash Byte.x02) sample_Getenv accepting_Store
              "bucket" "object" ∅ broken_stream 1 "upload-1")
    as (st & puts & Heq & Hinv & Hpn & Hdata & Hterm & Hcalls & Hsizes & _
        & Hcount & Htot).
  - reflexivity.
  - reflexivity.
  - intros. simpl. eauto.
  - lia.
  - rewrite broken_stream_length. lia.
  - rewrite Heq. clear Heq.
    replace (Z.to_nat 5120 - 1)%nat with (S (Z.to_nat 5120 - 2)) by lia.
    cbn [partLoop].
    destruct (Z.ltb_spec 5120 (partNumber st)) as [?|_]; [lia|].
    pose proof Hinv as (_ & _ & _ & _ & _ & _ & _ & Hbuf & _).
    rewrite partIteration_spec by (lia || assumption).
    assert (Hrest : rdata (reader st) = sample_bytes).
    { rewrite Hdata. unfold broken_stream, rdata.
      apply drop_app_length'. rewrite length_replicate. lia. }
    rewrite Hrest, Hterm. cbv zeta.
    change (lengthZ sample_bytes <? 134217728) with true.
    rewrite !broken_stream_term.
    rewrite bool_decide_eq_false_2 by discriminate.
    cbn [andb negb ret_site ret_err ret_n ret_calls ret_tmpBuffer].
    split; [reflexivity|]. split; [reflexivity|]. split; [reflexivity|].
    split.
    + rewrite Hcalls. clear - Hsizes Hcount.
      destruct puts as [|x puts]; [cbn [length] in Hcount; lia|].
      destruct puts; [|cbn [length] in Hcount; lia].
      apply Forall_inv in Hsizes. cbn [sum_sizes foldr put_size]. lia.
    + apply take_all_Z. change (lengthZ sample_bytes) with 3. lia.
Qed.

Lemma one_part_stream_length : lengthZ one_part_stream = 134217728.
Proof. unfold lengthZ, one_part_stream. rewrite length_replicate. lia. Qed.

Lemma PutStream_part_failure_witness :
  let r := sample_PutStream (refusing_Store 1)
             {| rdata := sample_bytes; rterm := EOF |} in
  let refused :=
    call_PutObjectPart 1 3 sample_bytes (Byte.x01 :: sample_bytes)
      (Byte.x02 :: sample_bytes) (inr (Fault "part refused")) in
  In refused (ret_calls r)
  /\ exists puts,
       ret_calls r = call_NewMultipartUpload :: puts ++ [refused]
       /\ Forall put_ok puts
       /\ put_number <$> puts = seqZ 1 (1 - 1)
       /\ ret_err r = Some (Fault "part refused")
       /\ ret_n r = sum_sizes puts
       /\ ret_tmpBuffer r = []
       /\ ret_site r = ret_PutObjectPart_failed.
Proof.
  cbv zeta. split.
  - vm_compute. right. left. reflexivity.
  - apply (PutStream_part_failure amd64_conv (sample_Hash Byte.x01)
             (sample_Hash Byte.x02) sample_Getenv (refusing_Store 1)
             "bucket" "object" {| rdata := sample_bytes; rterm := EOF |} ∅).
    vm_compute. right. left. reflexivity.
Defined.

Lemma PutStream_short_stream_witness :
  let r := sample_PutStream accepting_Store
             {| rdata := sample_bytes; rterm := EOF |} in
  always_succeeds accepting_Store
  /\ lengthZ sample_bytes < planned_size amd64_conv
  /\ exists answer Parts,
       ret_calls r =
         [call_NewMultipartUpload;
          call_PutObjectPart 1 (lengthZ sample_bytes) sample_bytes
            (digest_of (sample_Hash Byte.x01) sample_bytes)
            (digest_of (sample_Hash Byte.x02) sample_bytes) (inl answer);
          call_CompleteMultipartUpload Parts]
       /\ ret_n r = lengthZ sample_bytes
       /\ ret_err r = None
       /\ ret_site r = ret_completed.
Proof.
  cbv zeta.
  split; [exact accepting_Store_always_succeeds|].
  split; [vm_compute; reflexivity|].
  apply (PutStream_short_stream amd64_conv (sample_Hash Byte.x01)
           (sample_Hash Byte.x02) sample_Getenv accepting_Store
           "bucket" "object" ∅ sample_bytes accepting_Store_always_succeeds).
  vm_compute. reflexivity.
Defined.

Lemma PutStream_trailing_empty_part_witness :
  let r := sample_PutStream accepting_Store
             {| rdata := one_part_stream; rterm := EOF |} in
  accepts_nonempty_parts accepting_Store
  /\ 1 <= 1 < planned_count amd64_conv
  /\ lengthZ one_part_stream = 1 * planned_size amd64_conv
  /\ exists puts answer rest,
       ret_calls r =
         call_NewMultipartUpload :: puts ++
         call_PutObjectPart (1 + 1) 0 [] (digest_of (sample_Hash Byte.x01) [])
           (digest_of (sample_Hash Byte.x02) []) answer :: rest
       /\ length puts = Z.to_nat 1
       /\ Forall (fun x => put_size x = planned_size amd64_conv) puts
       /\ Forall put_ok puts
       /\ Forall (fun x => is_put x = false) rest.
Proof.
  cbv zeta.
  assert (Hcount : 1 <= 1 < planned_count amd64_conv)
    by (rewrite planned_count_unknown; lia).
  assert (Hlen : lengthZ one_part_stream = 1 * planned_size amd64_conv)
    by (rewrite planned_size_unknown, one_part_stream_length; lia).
  split; [exact accepting_Store_accepts_nonempty_parts|].
  split; [exact Hcount|]. split; [exact Hlen|].
  exact (PutStream_trailing_empty_part amd64_conv (sample_Hash Byte.x01)
           (sample_Hash Byte.x02) sample_Getenv accepting_Store
           "bucket" "object" ∅ one_part_stream 1
           accepting_Store_accepts_nonempty_parts Hcount Hlen).
Defined.

(** * Further properties of the code *)

(** ** PartPlanner: the part size and the part count of a known size *)

Lemma fin_inj (m e m' e' : Z) :
  0 < m -> 0 < m' -> fin m e = fin m' e' -> m = m' /\ e = e'.
Proof.
  intros Hm Hm'. unfold fin. intros [= Hpos He].
  split; [|exact He]. apply Z2Pos.inj; assumption.
Qed.

(** The rounded quotient stays above an integer that the exact quotient
    exceeds by two units of the last place. *)
Lemma div_lower (mx ex my ey J mz ez : Z) :
  2 ^ 52 <= mx < 2 ^ 53 -> 2 ^ 52 <= my < 2 ^ 53 ->
  -100 <= ex - ey <= 50 -> 0 <= J ->
  (J * 2 ^ (53 - (ex - ey)) + 2) * my <= mx * 2 ^ 53 ->
  F64.div (fin mx ex) (fin my ey) = fin mz ez -> 0 < mz ->
  J * 2 ^ (- ez) < mz.
Proof.
  intros Hmx Hmy HE HJ Hle.
  rewrite div_normal by (unfold emin64; lia).
  remember (ex - ey) as E eqn:HeqE.
  remember (mx * 2 ^ 53 / my) as qq eqn:Heqqq.
  remember (mx * 2 ^ 53 mod my) as r eqn:Heqr.
  assert (Hdm : mx * 2 ^ 53 = my * qq + r) by (subst qq r; apply Z.div_mod; lia).
  assert (Hr : 0 <= r < my) by (subst r; apply Z.mod_pos_bound; lia).
  assert (Hqq : 2 ^ 52 <= qq < 2 ^ 54).
  { subst qq. split.
    - apply Z.div_le_lower_bound; [lia|]. nia.
    - apply Z.div_lt_upper_bound; [lia|]. nia. }
  clear Heqqq Heqr.
  destruct (binary_round_aux_spec false qq (E - 53) (new_location my r) ltac:(lia))
    as (m2 & Hb & _ & ->).
  assert (Hdq : Zdigits2 qq = 53 \/ Zdigits2 qq = 54).
  { destruct qq as [|pq|pq]; try lia.
    pose proof (Zdigits2_le pq 54 ltac:(lia) ltac:(lia)).
    pose proof (Zdigits2_ge pq 53 ltac:(lia)). lia. }
  pose proof (Zdigits2_bounds_Z qq ltac:(lia)) as [Hqb _].
  rewrite fexp_eq in *. unfold emin64 in *.
  destruct Hdq as [Hdq|Hdq]; rewrite Hdq in *.
  - replace (Z.max (E - 53) (Z.max (53 + (E - 53) - 53) (-1074)))
      with (E - 53) in * by lia.
    rewrite Z.sub_diag, Z.pow_0_r, Z.div_1_r in *.
    replace (53 - E) with (- (E - 53)) in Hle by lia.
    assert (HP : 0 < 2 ^ (- (E - 53))) by (apply Z.pow_pos_nonneg; lia).
    set (P := 2 ^ (- (E - 53))) in *.
    assert (Hlow : J * P + 1 < qq) by nia.
    destruct (Z.eqb_spec m2 0); [lia|].
    destruct (Z.ltb_spec m2 (2 ^ 53)).
    + destruct (Z.leb_spec (E - 53) 971); [|lia].
      intros Heq Hmz. destruct (fin_inj m2 (E - 53) mz ez ltac:(lia) Hmz Heq) as [<- <-].
      fold P. lia.
    + destruct (Z.leb_spec (E - 53 + 1) 971); [|lia].
      intros Heq Hmz. destruct (fin_inj (2 ^ 52) (E - 53 + 1) mz ez ltac:(lia) Hmz Heq) as [<- <-].
      assert (HP2 : P = 2 * 2 ^ (- (E - 53 + 1))).
      { subst P. replace (- (E - 53)) with (1 + - (E - 53 + 1)) by lia.
        rewrite Z.pow_add_r by lia. reflexivity. }
      lia.
  - replace (Z.max (E - 53) (Z.max (54 + (E - 53) - 53) (-1074)))
      with (E - 52) in * by lia.
    replace (E - 52 - (E - 53)) with 1 in * by lia.
    rewrite Z.pow_1_r in *.
    assert (HP : 0 < 2 ^ (- (E - 52))) by (apply Z.pow_pos_nonneg; lia).
    assert (HP2 : 2 ^ (53 - E) = 2 * 2 ^ (- (E - 52))).
    { replace (53 - E) with (1 + - (E - 52)) by lia.
      rewrite Z.pow_add_r by lia. reflexivity. }
    rewrite HP2 in Hle.
    set (P := 2 ^ (- (E - 52))) in *.
    pose proof (Z.div_mod qq 2 ltac:(lia)) as Hq2.
    pose proof (Z.mod_pos_bound qq 2 ltac:(lia)) as Ht.
    assert (Hlow : J * P < qq / 2) by nia.
    destruct (Z.eqb_spec m2 0); [lia|].
    destruct (Z.ltb_spec m2 (2 ^ 53)).
    + destruct (Z.leb_spec (E - 52) 971); [|lia].
      intros Heq Hmz. destruct (fin_inj m2 (E - 52) mz ez ltac:(lia) Hmz Heq) as [<- <-].
      fold P. lia.
    + destruct (Z.leb_spec (E - 52 + 1) 971); [|lia].
      intros Heq Hmz. destruct (fin_inj (2 ^ 52) (E - 52 + 1) mz ez ltac:(lia) Hmz Heq) as [<- <-].
      assert (HP3 : P = 2 * 2 ^ (- (E - 52 + 1))).
      { subst P. replace (- (E - 52)) with (1 + - (E - 52 + 1)) by lia.
        rewrite Z.pow_add_r by lia. reflexivity. }
      lia.
Qed.

(** The ceiling of a positive value above [K - 1] and not above [K]
    converts to the integer [K]. *)
Lemma Ceil_to_int_exact (conv : F64.float64 -> Z) (mz ez K : Z) :
  0 < mz -> ez < 0 -> 0 < K < 2 ^ 52 ->
  (K - 1) * 2 ^ (- ez) < mz <= K * 2 ^ (- ez) ->
  F64.to_int conv (F64.Ceil (fin mz ez)) = K.
Proof.
  intros Hmz Hez HK [Hlo Hhi].
  assert (HP : 0 < 2 ^ (- ez)) by (apply Z.pow_pos_nonneg; lia).
  set (P := 2 ^ (- ez)) in *.
  pose proof (Z.div_mod mz P ltac:(lia)) as Hdm.
  pose proof (Z.mod_pos_bound mz P ltac:(lia)) as Hmod.
  rewrite Ceil_fin by lia. fold P.
  destruct (Z.eqb_spec (mz mod P) 0) as [H0|H0].
  - assert (mz / P = K) by nia.
    rewrite to_int_of_int by lia. lia.
  - assert (mz / P = K - 1) by nia.
    rewrite to_int_of_int by lia. lia.
Qed.

(** The plan for a known size from 10000 bytes up to 2^52: the part count
    is the quotient of the size by the part size, rounded up. *)
Lemma optimalPartInfo_count (conv : F64.float64 -> Z) (o : Z) :
  10000 <= o < 2 ^ 52 ->
  let p := ceil_div (o / 10000) (2 ^ 26) * 2 ^ 26 in
  let t := ceil_div o p in
  optimalPartInfo conv o = (t, p, o - (t - 1) * p, None)
  /\ 2 ^ 26 <= p /\ (t - 1) * p < o <= t * p.
Proof.
  intros Ho p t.
  assert (Hq : 1 <= o / 10000 < 2 ^ 50).
  { split; [apply Z.div_le_lower_bound; lia|].
    apply Z.div_lt_upper_bound; lia. }
  destruct (partSizeFlt_value (o / 10000) Hq) as [Hflt Hc].
  subst t p. remember (ceil_div (o / 10000) (2 ^ 26)) as c eqn:Heqc. clear Heqc.
  set (p := c * 2 ^ 26).
  pose proof (ceil_div_spec o p ltac:(subst p; lia)) as Ht.
  remember (ceil_div o p) as t eqn:Heqt. clear Heqt.
  destruct (Zdigits2_bounds_Z c ltac:(lia)) as [Hbc Hdc1].
  pose proof (Zdigits2_le_Z c 25 ltac:(lia) ltac:(lia) ltac:(lia)) as Hdc2.
  remember (Zdigits2 c) as dc eqn:Heqdc. clear Heqdc.
  pose proof (normal_mantissa c dc ltac:(lia) Hbc) as Hmc.
  set (mc := c * 2 ^ (53 - dc)) in *.
  assert (HP : 0 < 2 ^ (27 - dc)) by (apply Z.pow_pos_nonneg; lia).
  assert (Hmcp : mc = p * 2 ^ (27 - dc)).
  { subst mc p. replace (53 - dc) with (26 + (27 - dc)) by lia.
    rewrite Z.pow_add_r by lia. lia. }
  assert (Hp : 2 ^ 26 <= p <= 2 ^ 50) by (subst p; lia).
  assert (Ht' : 1 <= t < 2 ^ 27) by nia.
  split; [|split; [lia|exact Ht]].
  assert (Hpint : F64.to_int conv (fin mc (dc - 27)) = p).
  { rewrite to_int_fin; replace (- (dc - 27)) with (27 - dc) by lia;
      rewrite ?Hmcp, ?Z.div_mul by lia; lia. }
  (* the object size as a float: exact *)
  destruct (Zdigits2_bounds_Z o ltac:(lia)) as [Hbo Hdo1].
  pose proof (Zdigits2_le_Z o 52 ltac:(lia) ltac:(lia) ltac:(lia)) as Hdo2.
  assert (Hdo3 : 14 <= Zdigits2 o).
  { destruct (Z.lt_ge_cases (Zdigits2 o) 14) as [Hlt|]; [|lia].
    assert (2 ^ Zdigits2 o <= 2 ^ 13) by (apply Z.pow_le_mono_r; lia). lia. }
  pose proof (of_int_small o ltac:(lia)) as Hfo.
  remember (Zdigits2 o) as do eqn:Heqdo. clear Heqdo.
  pose proof (normal_mantissa o do ltac:(lia) Hbo) as Hmo.
  set (mo := o * 2 ^ (53 - do)) in *.
  assert (HA : 0 < 2 ^ (106 - do)) by (apply Z.pow_pos_nonneg; lia).
  assert (H1 : 2 ^ (53 - (do - 53 - (dc - 27))) * 2 ^ (27 - dc) = 2 ^ (106 - do))
    by (rewrite <- Z.pow_add_r by lia; f_equal; lia).
  assert (H2 : 2 ^ (53 - do) * 2 ^ 53 = 2 ^ (106 - do))
    by (rewrite <- Z.pow_add_r by lia; f_equal; lia).
  assert (H3 : 2 ^ 54 <= 2 ^ (106 - do)) by (apply Z.pow_le_mono_r; lia).
  assert (Hmo53 : mo * 2 ^ 53 = o * 2 ^ (106 - do)) by (subst mo; nia).
  assert (Hscale : forall k, k * 2 ^ (53 - (do - 53 - (dc - 27))) * mc
                             = k * p * 2 ^ (106 - do)).
  { intros k. rewrite Hmcp.
    replace (k * 2 ^ (53 - (do - 53 - (dc - 27))) * (p * 2 ^ (27 - dc)))
      with (k * p * (2 ^ (53 - (do - 53 - (dc - 27))) * 2 ^ (27 - dc))) by lia.
    by rewrite H1. }
  destruct (div_upper mo (do - 53) mc (dc - 27) t Hmo Hmc ltac:(lia) ltac:(lia))
    as (mz & ez & Hdiv & Hmz & Hez & Hle).
  { rewrite Hscale, Hmo53. nia. }
  assert (Hlow : (t - 1) * 2 ^ (- ez) < mz).
  { apply (div_lower mo (do - 53) mc (dc - 27) (t - 1) mz ez Hmo Hmc);
      try lia; try assumption.
    rewrite Z.mul_add_distr_r, Hscale, Hmo53. nia. }
  pose proof (Ceil_to_int_exact conv mz ez t Hmz Hez ltac:(lia) (conj Hlow Hle))
    as Hcount.
  assert (Htp : 0 <= (t - 1) * p < 2 ^ 63) by nia.
  unfold optimalPartInfo.
  destruct (Z.eqb_spec o (-1)); [lia|].
  assert (Hdiv64 : div64 o maxPartsCount = o / 10000).
  { unfold div64, maxPartsCount. rewrite Z.quot_div_nonneg by lia.
    apply wrap64_id. unfold int64_range. lia. }
  rewrite Hdiv64, Hflt, Hfo, Hdiv, Hpint, Hcount.
  unfold sub64, mul64.
  rewrite (wrap64_id (t - 1)) by (unfold int64_range; nia).
  rewrite (wrap64_id ((t - 1) * p)) by (unfold int64_range; lia).
  rewrite wrap64_id by (unfold int64_range; lia).
  reflexivity.
Qed.

(** X1: for a known size of at least [maxPartsCount] bytes the part size is a
    positive multiple of [minPartSize], and the least one that is not below
    the size divided by [maxPartsCount] as integers, rounding down. *)
Theorem optimalPartInfo_part_size (conv : F64.float64 -> Z) (objectSize : Z) :
  maxPartsCount <= objectSize < 2 ^ 63 ->
  let '(_, partSize, _, _) := optimalPartInfo conv objectSize in
  0 < partSize
  /\ partSize mod minPartSize = 0
  /\ partSize - minPartSize < objectSize / maxPartsCount <= partSize.
Proof.
  unfold maxPartsCount. intros Ho.
  destruct (optimalPartInfo_known conv objectSize Ho) as (t & -> & _).
  assert (Hq : 1 <= objectSize / 10000)
    by (apply Z.div_le_lower_bound; lia).
  pose proof (ceil_div_spec (objectSize / 10000) (2 ^ 26) ltac:(lia)) as Hc.
  change minPartSize with (2 ^ 26).
  split; [lia|]. split; [apply Z.mod_mul; lia|lia].
Qed.

Lemma optimalPartInfo_part_size_witness :
  maxPartsCount <= 1000000000000 < 2 ^ 63
  /\ 0 < 134217728
  /\ 134217728 mod minPartSize = 0
  /\ 134217728 - minPartSize < 1000000000000 / maxPartsCount <= 134217728.
Proof.
  split; [unfold maxPartsCount; lia|].
  exact (optimalPartInfo_part_size amd64_conv 1000000000000
           ltac:(unfold maxPartsCount; lia)).
Defined.

(** X2: for a known size from [maxPartsCount] bytes up to 2^52 the part count is
    the size divided by the part size, rounded up: the parts cover the
    object, all but the last are needed in full, the last part is not empty
    and not longer than the others, and there are at most
    [maxPartsCount + 1] parts. *)
Theorem optimalPartInfo_part_count (conv : F64.float64 -> Z) (objectSize : Z) :
  maxPartsCount <= objectSize < 2 ^ 52 ->
  let '(totalPartsCount, partSize, lastPartSize, _) :=
    optimalPartInfo conv objectSize in
  1 <= totalPartsCount <= maxPartsCount + 1
  /\ (totalPartsCount - 1) * partSize < objectSize <= totalPartsCount * partSize
  /\ 0 < lastPartSize <= partSize.
Proof.
  unfold maxPartsCount. intros Ho.
  destruct (optimalPartInfo_count conv objectSize Ho) as (-> & Hp & Ht).
  assert (Hq : 1 <= objectSize / 10000)
    by (apply Z.div_le_lower_bound; lia).
  pose proof (ceil_div_spec (objectSize / 10000) (2 ^ 26) ltac:(lia)) as Hc.
  pose proof (Z.div_mod objectSize 10000 ltac:(lia)) as Hdm.
  pose proof (Z.mod_pos_bound objectSize 10000 ltac:(lia)) as Hmod.
  set (p := ceil_div (objectSize / 10000) (2 ^ 26) * 2 ^ 26) in *.
  set (t := ceil_div objectSize p) in *.
  split; [|split; [exact Ht|lia]].
  split; [nia|].
  destruct (Z.le_gt_cases t 10001) as [?|Hgt]; [assumption|].
  assert (10001 * p <= (t - 1) * p) by (apply Z.mul_le_mono_nonneg_r; lia).
  lia.
Qed.

Lemma optimalPartInfo_part_count_witness :
  maxPartsCount <= 1000000000000 < 2 ^ 52
  /\ 1 <= 7451 <= maxPartsCount + 1
  /\ (7451 - 1) * 134217728 < 1000000000000 <= 7451 * 134217728
  /\ 0 < 78374400 <= 134217728.
Proof.
  split; [unfold maxPartsCount; lia|].
  exact (optimalPartInfo_part_count amd64_conv 1000000000000
           ltac:(unfold maxPartsCount; lia)).
Defined.

(** X3: when the limit on the part count is passed: a known size up to 2^52 is
    planned as [maxPartsCount + 1] parts exactly when it is not a multiple of
    [maxPartsCount] and its quotient by [maxPartsCount] is a multiple of
    [minPartSize]; every other size is planned within the limit. *)
Theorem optimalPartInfo_over_the_limit (conv : F64.float64 -> Z) (objectSize : Z) :
  maxPartsCount <= objectSize < 2 ^ 52 ->
  let '(totalPartsCount, _, _, _) := optimalPartInfo conv objectSize in
  (maxPartsCount < totalPartsCount
   <-> (objectSize / maxPartsCount) mod minPartSize = 0
       /\ objectSize mod maxPartsCount <> 0).
Proof.
  unfold maxPartsCount. intros Ho.
  destruct (optimalPartInfo_count conv objectSize Ho) as (-> & Hp & Ht).
  assert (Hq : 1 <= objectSize / 10000)
    by (apply Z.div_le_lower_bound; lia).
  pose proof (ceil_div_spec (objectSize / 10000) (2 ^ 26) ltac:(lia)) as Hc.
  pose proof (Z.div_mod objectSize 10000 ltac:(lia)) as Hdm.
  pose proof (Z.mod_pos_bound objectSize 10000 ltac:(lia)) as Hmod.
  change minPartSize with (2 ^ 26).
  assert (Hmult : (objectSize / 10000) mod 2 ^ 26 = 0
                  <-> objectSize / 10000
                      = ceil_div (objectSize / 10000) (2 ^ 26) * 2 ^ 26).
  { unfold ceil_div.
    pose proof (Z.div_mod (objectSize / 10000) (2 ^ 26) ltac:(lia)).
    pose proof (Z.mod_pos_bound (objectSize / 10000) (2 ^ 26) ltac:(lia)).
    destruct (Z.eqb_spec ((objectSize / 10000) mod 2 ^ 26) 0); lia. }
  rewrite Hmult.
  set (p := ceil_div (objectSize / 10000) (2 ^ 26) * 2 ^ 26) in *.
  set (t := ceil_div objectSize p) in *.
  set (q := objectSize / 10000) in *. set (r := objectSize mod 10000) in *.
  split.
  - intros Hover.
    assert (10000 * p <= (t - 1) * p) by (apply Z.mul_le_mono_nonneg_r; lia).
    split; lia.
  - intros [Hqp Hr].
    destruct (Z.le_gt_cases t 10000) as [Hle|?]; [|lia].
    assert (t * p <= 10000 * p) by (apply Z.mul_le_mono_nonneg_r; lia).
    lia.
Qed.

Lemma optimalPartInfo_over_the_limit_witness :
  maxPartsCount <= 671088640001 < 2 ^ 52
  /\ (maxPartsCount < 10001
      <-> (671088640001 / maxPartsCount) mod minPartSize = 0
          /\ 671088640001 mod maxPartsCount <> 0).
Proof.
  split; [unfold maxPartsCount; lia|].
  exact (optimalPartInfo_over_the_limit amd64_conv 671088640001
           ltac:(unfold maxPartsCount; lia)).
Defined.

(** X4: a known size of less than [maxPartsCount] bytes, negative ones down to
    [- maxPartsCount] included, gets the part size zero, and the whole size
    is the last part; the part count is then the conversion of a quotient by
    zero. *)
Theorem optimalPartInfo_below_maxPartsCount (conv : F64.float64 -> Z)
    (objectSize : Z) :
  - maxPartsCount < objectSize < maxPartsCount -> objectSize <> -1 ->
  let '(_, partSize, lastPartSize, _) := optimalPartInfo conv objectSize in
  partSize = 0 /\ lastPartSize = objectSize.
Proof.
  unfold maxPartsCount. intros Ho Hk. unfold optimalPartInfo.
  destruct (Z.eqb_spec objectSize (-1)); [lia|].
  assert (Hdiv64 : div64 objectSize maxPartsCount = 0).
  { unfold div64, maxPartsCount.
    assert (Hquot : Z.quot objectSize 10000 = 0)
      by (apply Z.quot_small_iff; lia).
    rewrite Hquot. reflexivity. }
  rewrite Hdiv64.
  change (F64.mul
            (F64.Ceil (F64.div (F64.Ceil (F64.of_int 0)) (F64.of_int minPartSize)))
            (F64.of_int minPartSize)) with (S754_zero false).
  change (F64.to_int conv (S754_zero false)) with 0.
  split; [reflexivity|].
  unfold sub64, mul64. rewrite Z.mul_0_r.
  change (wrap64 0) with 0. rewrite Z.sub_0_r.
  apply wrap64_id. unfold int64_range. lia.
Qed.

Lemma optimalPartInfo_below_maxPartsCount_witness :
  - maxPartsCount < 9999 < maxPartsCount /\ 9999 <> -1
  /\ 0 = 0 /\ 9999 = 9999.
Proof.
  split; [unfold maxPartsCount; lia|]. split; [lia|].
  exact (optimalPartInfo_below_maxPartsCount amd64_conv 9999
           ltac:(unfold maxPartsCount; lia) ltac:(lia)).
Defined.

(** ** ChunkHasher: a full part, and what a call moves *)

(** X5: when the stream still holds a full part, [hashCopyN] copies exactly
    [partSize] bytes into a healthy destination, reports no error, not even
    the end of the stream, leaves the rest of the stream to be read, and
    every hasher has taken in the bytes of the part after what it had been
    fed before. *)
Theorem hashCopyN_full_part (hashAlgorithms : gmap string Hash)
    (hashSums : gmap string (list byte)) (writer : Writer) (reader : Reader)
    (partSize : Z) :
  0 < partSize -> wfault writer = None ->
  partSize <= lengthZ (rdata reader) ->
  let r := hashCopyN hashAlgorithms hashSums writer reader partSize in
  let chunk := take (Z.to_nat partSize) (rdata reader) in
  hc_size r = partSize /\ hc_err r = None
  /\ lengthZ chunk = partSize
  /\ wbytes (hc_writer r) = wbytes writer ++ chunk
  /\ rdata (hc_reader r) = drop (Z.to_nat partSize) (rdata reader)
  /\ rterm (hc_reader r) = rterm reader
  /\ forall k h, hashAlgorithms !! k = Some h ->
                 hc_hashSums r !! k = Some (digest h (fed h ++ chunk)).
Proof.
  intros Hn Hw Hlen. cbv zeta.
  rewrite hashCopyN_healthy by assumption.
  destruct (Z.ltb_spec (lengthZ (rdata reader)) partSize) as [?|_]; [lia|].
  cbn [andb hc_size hc_err hc_writer hc_reader hc_hashSums wbytes rdata rterm].
  assert (Hchunk : lengthZ (take (Z.to_nat partSize) (rdata reader)) = partSize)
    by (rewrite lengthZ_take by lia; lia).
  repeat split; try assumption.
  intros k h Hk. rewrite lookup_union, !lookup_fmap, Hk. simpl.
  by destruct (hashSums !! k).
Qed.

Lemma hashCopyN_full_part_witness :
  0 < 2 /\ wfault bytes_Buffer = None
  /\ 2 <= lengthZ sample_bytes
  /\ let r := hashCopyN {[ "md5" := sample_Hash Byte.x01 ]} ∅ bytes_Buffer
                {| rdata := sample_bytes; rterm := EOF |} 2 in
     hc_size r = 2 /\ hc_err r = None
     /\ wbytes (hc_writer r) = [Byte.x61; Byte.x62]
     /\ rdata (hc_reader r) = [Byte.x63]
     /\ hc_hashSums r !! "md5" = Some [Byte.x01; Byte.x61; Byte.x62].
Proof.
  split; [lia|]. split; [reflexivity|]. split; [vm_compute; discriminate|].
  destruct (hashCopyN_full_part {[ "md5" := sample_Hash Byte.x01 ]} ∅
              bytes_Buffer {| rdata := sample_bytes; rterm := EOF |} 2
              ltac:(lia) eq_refl ltac:(vm_compute; discriminate))
    as (Hs & He & _ & Hw & Hr & _ & Hd).
  cbv zeta. split; [exact Hs|]. split; [exact He|]. split; [exact Hw|].
  split; [exact Hr|].
  apply (Hd "md5" (sample_Hash Byte.x01)). reflexivity.
Defined.

(** X6: what one call moves, whatever the limit and whatever the stream does:
    with a healthy destination, some bytes [moved] from the front of the
    stream, at most [partSize] of them, are appended to the destination and
    fed to every hasher; the stream keeps the bytes after them, so nothing
    is lost or repeated. The count returned is their number, or zero with
    a fault when the stream broke. *)
Theorem hashCopyN_moves_a_prefix (hashAlgorithms : gmap string Hash)
    (hashSums : gmap string (list byte)) (writer : Writer) (reader : Reader)
    (partSize : Z) :
  wfault writer = None ->
  let r := hashCopyN hashAlgorithms hashSums writer reader partSize in
  exists moved,
    rdata reader = moved ++ rdata (hc_reader r)
    /\ rterm (hc_reader r) = rterm reader
    /\ wbytes (hc_writer r) = wbytes writer ++ moved
    /\ wfault (hc_writer r) = None
    /\ hc_hashAlgorithms r = Hash_Write moved <$> hashAlgorithms
    /\ lengthZ moved <= Z.max 0 partSize
    /\ (hc_size r = lengthZ moved
        \/ hc_size r = 0 /\ hc_err r = Some (rterm reader) /\ rterm reader <> EOF)
    /\ (hc_err r = None <-> lengthZ moved = Z.max 0 partSize).
Proof.
  intros Hw. cbv zeta.
  assert (Hid : Hash_Write [] <$> hashAlgorithms = hashAlgorithms).
  { rewrite <- (map_fmap_id hashAlgorithms) at 2.
    apply map_fmap_ext. intros ? h _. by rewrite Hash_Write_nil. }
  destruct (Z.leb_spec partSize 0) as [Hle|Hpos].
  - exists []. unfold hashCopyN, io_CopyN.
    destruct (Z.leb_spec partSize 0) as [_|?]; [|lia].
    cbn [is_fault hc_size hc_err hc_writer hc_reader hc_hashAlgorithms app].
    rewrite app_nil_r, Hid.
    change (lengthZ (@nil byte)) with 0.
    repeat split; try tauto; try lia.
  - exists (take (Z.to_nat partSize) (rdata reader)).
    rewrite hashCopyN_healthy by assumption.
    pose proof (lengthZ_nonneg (rdata reader)) as Hnn.
    assert (Hlen : lengthZ (take (Z.to_nat partSize) (rdata reader))
                   = Z.min partSize (lengthZ (rdata reader)))
      by (apply lengthZ_take; lia).
    destruct (Z.ltb_spec (lengthZ (rdata reader)) partSize) as [Hshort|Hfull];
      [destruct (bool_decide (rterm reader = EOF)) eqn:Heof|];
      cbn [andb negb hc_size hc_err hc_writer hc_reader hc_hashAlgorithms
           wbytes wfault rdata rterm].
    + split; [by rewrite take_drop|].
      repeat split; try lia; try discriminate; by left.
    + apply bool_decide_eq_false in Heof.
      split; [by rewrite take_drop|].
      repeat split; try lia; try discriminate; right; by repeat split.
    + split; [by rewrite take_drop|].
      repeat split; try lia; by left.
Qed.

Lemma hashCopyN_moves_a_prefix_witness :
  wfault bytes_Buffer = None
  /\ exists moved,
       sample_bytes
       = moved ++ rdata (hc_reader (hashCopyN ∅ ∅ bytes_Buffer
                           {| rdata := sample_bytes; rterm := EOF |} 2))
       /\ lengthZ moved <= Z.max 0 2.
Proof.
  split; [reflexivity|].
  destruct (hashCopyN_moves_a_prefix ∅ ∅ bytes_Buffer
              {| rdata := sample_bytes; rterm := EOF |} 2 eq_refl)
    as (moved & Hdata & _ & _ & _ & _ & Hlen & _).
  exists moved. split; [exact Hdata|exact Hlen].
Defined.

(** X7: the digest map is an out-parameter: an entry under a name that is not
    among the requested algorithms is never touched; unless a fault is
    returned, every requested algorithm gets the digest of its hasher as the
    call leaves it, over an entry that was there before; with a fault the
    map is as it was. This holds for a broken destination as well. *)
Theorem hashCopyN_digest_map (hashAlgorithms : gmap string Hash)
    (hashSums : gmap string (list byte)) (writer : Writer) (reader : Reader)
    (partSize : Z) :
  let r := hashCopyN hashAlgorithms hashSums writer reader partSize in
  (forall k, hashAlgorithms !! k = None -> hc_hashSums r !! k = hashSums !! k)
  /\ (forall k, is_Some (hc_hashAlgorithms r !! k) <-> is_Some (hashAlgorithms !! k))
  /\ (is_fault (hc_err r) = false ->
      forall k h, hc_hashAlgorithms r !! k = Some h ->
                  hc_hashSums r !! k = Some (Hash_Sum h))
  /\ (is_fault (hc_err r) = true -> hc_size r = 0 /\ hc_hashSums r = hashSums).
Proof.
  cbv zeta. unfold hashCopyN.
  assert (Hdom : forall k,
            is_Some (snd (fst (io_CopyN writer hashAlgorithms reader partSize)) !! k)
            <-> is_Some (hashAlgorithms !! k)).
  { intros k. unfold io_CopyN.
    destruct (partSize <=? 0); [reflexivity|].
    destruct (rdata reader); [reflexivity|].
    destruct (wfault writer).
    - destruct (splitAtZ _ _). reflexivity.
    - destruct (splitAtZ _ _). cbn [fst snd].
      rewrite lookup_fmap. by rewrite fmap_is_Some. }
  destruct (io_CopyN writer hashAlgorithms reader partSize)
    as [[[[sz err] w] hs] rd].
  cbn [fst snd] in Hdom.
  destruct (is_fault err) eqn:Hf;
    cbn [hc_size hc_err hc_hashSums hc_hashAlgorithms].
  - rewrite Hf. repeat split; try done; apply Hdom.
  - rewrite Hf. split; [|split; [exact Hdom|split; [|discriminate]]].
    + intros k Hk. rewrite lookup_union, lookup_fmap.
      assert (Hnone : hs !! k = None).
      { destruct (hs !! k) eqn:Hhs; [|reflexivity].
        assert (Hs : is_Some (hashAlgorithms !! k)) by (apply Hdom; eauto).
        rewrite Hk in Hs. by destruct Hs. }
      rewrite Hnone. simpl. by destruct (hashSums !! k).
    + intros _ k h Hk. rewrite lookup_union, lookup_fmap, Hk. simpl.
      by destruct (hashSums !! k).
Qed.

(** ** completedParts as a [sort.Interface] *)

Lemma index_Some {A : Type} (a : list A) (i : Z) (x : A) :
  index a i = Some x <-> 0 <= i /\ a !! Z.to_nat i = Some x.
Proof.
  unfold index. destruct (Z.ltb_spec i 0).
  - split; [discriminate|lia].
  - split; [by split|by intros [_ ?]].
Qed.

Lemma index_is_Some {A : Type} (a : list A) (i : Z) :
  is_Some (index a i) <-> 0 <= i < lengthZ a.
Proof.
  unfold index, lengthZ. destruct (Z.ltb_spec i 0).
  - split; [intros [x [=]]|lia].
  - rewrite lookup_lt_is_Some. lia.
Qed.

(** X8: [Swap] exchanges the two entries and touches no other: the result has
    the length of the list, holds at [i] what was at [j] and at [j] what was
    at [i], is a rearrangement of the list, and a second [Swap] undoes the
    first. An index out of range makes it panic. *)
Theorem Swap_exchanges (a : list CompletePart.t) (i j : Z) :
  (0 <= i < Len a /\ 0 <= j < Len a ->
   exists a',
     Swap a i j = Some a'
     /\ Len a' = Len a
     /\ index a' i = index a j
     /\ index a' j = index a i
     /\ (forall k, k <> i -> k <> j -> index a' k = index a k)
     /\ a' ≡ₚ a
     /\ Swap a' i j = Some a)
  /\ (~ (0 <= i < Len a /\ 0 <= j < Len a) -> Swap a i j = None).
Proof.
  unfold Len. split.
  - intros [Hi Hj].
    destruct (proj2 (index_is_Some a i) Hi) as [x Hx].
    destruct (proj2 (index_is_Some a j) Hj) as [y Hy].
    unfold Swap. rewrite Hx, Hy. eexists. split; [reflexivity|].
    apply index_Some in Hx as [_ Hx]. apply index_Some in Hy as [_ Hy].
    set (a' := <[Z.to_nat j := x]> (<[Z.to_nat i := y]> a)).
    assert (Hlen : length a' = length a)
      by (subst a'; by rewrite !length_insert).
    assert (Hlook : forall k : nat,
              a' !! k = if decide (k = Z.to_nat j) then Some x
                        else if decide (k = Z.to_nat i) then Some y
                        else a !! k).
    { intros k. subst a'. unfold lengthZ in *.
      destruct (decide (k = Z.to_nat j)) as [->|Hkj].
      - rewrite list_lookup_insert_eq; [reflexivity|].
        rewrite length_insert. lia.
      - rewrite list_lookup_insert_ne by done.
        destruct (decide (k = Z.to_nat i)) as [->|Hki].
        + rewrite list_lookup_insert_eq; [reflexivity|lia].
        + by rewrite list_lookup_insert_ne. }
    assert (Hai : a' !! Z.to_nat i = a !! Z.to_nat j).
    { rewrite Hlook. destruct (decide (Z.to_nat i = Z.to_nat j)) as [Heq|_].
      - rewrite <- Heq. by rewrite Hx.
      - rewrite decide_True by done. by rewrite Hy. }
    assert (Haj : a' !! Z.to_nat j = a !! Z.to_nat i).
    { rewrite Hlook, decide_True by done. by rewrite Hx. }
    split; [unfold lengthZ; by rewrite Hlen|].
    split; [unfold index; destruct (Z.ltb_spec i 0), (Z.ltb_spec j 0); try lia;
            by rewrite Hai|].
    split; [unfold index; destruct (Z.ltb_spec i 0), (Z.ltb_spec j 0); try lia;
            by rewrite Haj|].
    split.
    { intros k Hki Hkj. unfold index. destruct (Z.ltb_spec k 0); [reflexivity|].
      rewrite Hlook, !decide_False by lia. reflexivity. }
    split.
    { apply Permutation_inj. split; [exact Hlen|].
      exists (fun k : nat =>
                if decide (k = Z.to_nat j) then Z.to_nat i
                else if decide (k = Z.to_nat i) then Z.to_nat j else k).
      split.
      - intros k1 k2.
        destruct (decide (k1 = Z.to_nat j)), (decide (k1 = Z.to_nat i)),
          (decide (k2 = Z.to_nat j)), (decide (k2 = Z.to_nat i)); congruence.
      - intros k. rewrite Hlook.
        destruct (decide (k = Z.to_nat j)); [by rewrite Hx|].
        destruct (decide (k = Z.to_nat i)); [by rewrite Hy|reflexivity]. }
    unfold index.
    destruct (Z.ltb_spec i 0), (Z.ltb_spec j 0); try lia.
    rewrite Hai, Haj, Hx, Hy. f_equal.
    apply list_eq. intros k.
    destruct (decide (k = Z.to_nat j)) as [->|Hkj].
    + rewrite list_lookup_insert_eq; [by rewrite Hy|].
      rewrite length_insert, Hlen. unfold lengthZ in *. lia.
    + rewrite list_lookup_insert_ne by done.
      destruct (decide (k = Z.to_nat i)) as [->|Hki].
      * rewrite list_lookup_insert_eq; [by rewrite Hx|].
        rewrite Hlen. unfold lengthZ in *. lia.
      * rewrite list_lookup_insert_ne by done.
        rewrite Hlook, !decide_False by done. reflexivity.
  - intros Hout. unfold Swap.
    destruct (index a i) as [x|] eqn:Hx; [|reflexivity].
    destruct (index a j) as [y|] eqn:Hy; [|reflexivity].
    exfalso. apply Hout. split; apply index_is_Some; eauto.
Qed.

(** X9: [Less] on a list is a strict order that looks at the part numbers only:
    no entry is less than itself, of two entries at most one is less than
    the other, and the order passes on; an index out of range panics. *)
Theorem Less_at_strict_order (a : list CompletePart.t) (i j k : Z) :
  (0 <= i < Len a -> Less_at a i i = Some false)
  /\ (Less_at a i j = Some true -> Less_at a j i = Some false)
  /\ (Less_at a i j = Some true -> Less_at a j k = Some true ->
      Less_at a i k = Some true)
  /\ (Less_at a i j = Some false -> Less_at a j i = Some false ->
      exists x y, index a i = Some x /\ index a j = Some y
                  /\ CompletePart.PartNumber x = CompletePart.PartNumber y)
  /\ (is_Some (Less_at a i j) <-> 0 <= i < Len a /\ 0 <= j < Len a).
Proof.
  unfold Less_at, Less, Len.
  split; [|split; [|split; [|split]]].
  - intros Hi. destruct (proj2 (index_is_Some a i) Hi) as [x ->].
    by rewrite Z.ltb_irrefl.
  - destruct (index a i) as [x|], (index a j) as [y|]; try discriminate.
    intros [= H]. f_equal. apply Z.ltb_lt in H. apply Z.ltb_ge. lia.
  - destruct (index a i) as [x|], (index a j) as [y|], (index a k) as [z|];
      try discriminate.
    intros [= H1] [= H2]. f_equal.
    apply Z.ltb_lt in H1. apply Z.ltb_lt in H2. apply Z.ltb_lt. lia.
  - destruct (index a i) as [x|], (index a j) as [y|]; try discriminate.
    intros [= H1] [= H2]. exists x, y.
    apply Z.ltb_ge in H1. apply Z.ltb_ge in H2.
    repeat split; lia.
  - rewrite <- !index_is_Some.
    destruct (index a i) as [x|], (index a j) as [y|]; split;
      try (intros [? [=]]); try (intros [[? [=]] [? [=]]]); eauto.
Qed.

(** ** UploadOrchestrator: the bytes of the stream in the part loop *)

Section StreamLoop.

Variables md5_New sha256_New : Hash.
Variable c : Store.
Variables bucketName objectName uploadID : string.
Variables totalPartsCount partSize size : Z.
Variable term : error.
Variable data : list byte.

Hypothesis partSize_pos : 0 < partSize.
Hypothesis plan_fits :
  0 <= totalPartsCount < 2 ^ 62 /\ totalPartsCount * partSize < 2 ^ 63.
Hypothesis size_unknown : size < 0.

Local Abbreviation turn :=
  (partIteration md5_New sha256_New c bucketName objectName uploadID partSize size).
Local Abbreviation loop :=
  (partLoop md5_New sha256_New c bucketName objectName uploadID
     totalPartsCount partSize size).
Local Abbreviation inv := (loop_invariant totalPartsCount partSize term).
Local Abbreviation sinv :=
  (stream_invariant c bucketName objectName uploadID md5_New sha256_New
     partSize data).
Local Abbreviation send :=
  (stream_ended c bucketName objectName uploadID md5_New sha256_New
     partSize data).

(** The part loop, with the bytes: it returns from a turn that started
    between two turns, on a short read that is not the end of the stream or
    on a part that the store refused, or it ends at the cap of the plan or
    at the end of the stream. *)
Lemma partLoop_stream (fuel : nat) (st : LoopState) :
  inv st -> sinv st ->
  totalPartsCount + 1 - partNumber st <= Z.of_nat fuel ->
  match loop fuel st with
  | inl r =>
      exists st',
        inv st' /\ sinv st' /\ partNumber st' <= totalPartsCount
        /\ ((read_failure st' r /\ lengthZ (rdata (reader st')) < partSize)
            \/ exists e,
                 (partSize <= lengthZ (rdata (reader st'))
                  \/ rterm (reader st') = EOF)
                 /\ let chunk := take (Z.to_nat partSize) (rdata (reader st')) in
                 PutObjectPart c bucketName objectName uploadID (partNumber st')
                   (lengthZ chunk) chunk (digest_of md5_New chunk)
                   (digest_of sha256_New chunk) = inr e
                 /\ r = {| ret_n := totalUploadedSize st'; ret_err := Some e;
                           ret_site := ret_PutObjectPart_failed;
                           ret_calls :=
                             calls st' ++
                             [call_PutObjectPart (partNumber st') (lengthZ chunk)
                                chunk (digest_of md5_New chunk)
                                (digest_of sha256_New chunk) (inr e)];
                           ret_tmpBuffer := [] |})
  | inr st' =>
      inv st'
      /\ ((sinv st' /\ partNumber st' = totalPartsCount + 1) \/ send st')
  end.
Proof.
  revert st. induction fuel as [|fuel IH]; intros st Hinv Hs Hfuel.
  - cbn [partLoop]. split; [assumption|]. left. split; [assumption|].
    destruct Hinv as (_ & _ & _ & _ & _ & _ & _ & _ & Hpn & _). lia.
  - rewrite (partLoop_S md5_New sha256_New c bucketName objectName uploadID
               totalPartsCount partSize size).
    destruct (Z.ltb_spec totalPartsCount (partNumber st)) as [Hgt|Hle].
    { split; [assumption|]. left. split; [assumption|].
      destruct Hinv as (_ & _ & _ & _ & _ & _ & _ & _ & Hpn & _). lia. }
    pose proof Hinv as (puts0 & Hcalls0 & _ & _ & _ & _ & _ & Hbuf & _).
    pose proof Hs as (puts & Hcalls & Hchunks & Hans0 & Hfull & Hdata).
    assert (puts0 = puts) as -> by congruence. clear Hcalls0.
    pose proof (partIteration_spec md5_New sha256_New c bucketName objectName
                  uploadID partSize size partSize_pos st Hbuf) as Hturn.
    cbv zeta in Hturn.
    set (rest := rdata (reader st)) in *.
    set (chunk := take (Z.to_nat partSize) rest) in *.
    assert (Hlen : lengthZ chunk = Z.min partSize (lengthZ rest))
      by (subst chunk; apply lengthZ_take; lia).
    pose proof (lengthZ_nonneg rest) as Hnn.
    destruct (Z.ltb_spec (lengthZ rest) partSize) as [Hshort|Hlong];
      [destruct (bool_decide (rterm (reader st) = EOF)) eqn:Heof|];
      cbn [andb negb] in Hturn.
    + (* the stream ends in this part *)
      apply bool_decide_eq_true in Heof.
      destruct (PutObjectPart c bucketName objectName uploadID (partNumber st)
                  (lengthZ chunk) chunk (digest_of md5_New chunk)
                  (digest_of sha256_New chunk)) as [p|e] eqn:Hans.
      * rewrite Hturn.
        destruct (Z.ltb_spec size 0) as [_|?]; [|lia]. cbn [andb].
        destruct (loop_invariant_step md5_New sha256_New c bucketName objectName
                    uploadID totalPartsCount partSize size term partSize_pos
                    plan_fits st p true Hinv Hle Hans _ Hturn)
          as (Hinv' & _ & _ & _ & Hterm' & Hcalls').
        split; [exact Hinv'|]. right.
        exists puts. eexists. split; [by rewrite Hcalls', Hcalls|].
        split.
        { apply Forall_app. split; [assumption|].
          constructor; [|constructor]. cbn [chunk_put]. repeat split.
          unfold chunk, rest in *. lia. }
        split.
        { apply Forall_app. split; [assumption|].
          constructor; [|constructor]. cbn [put_answered]. by rewrite <- Hans. }
        split; [assumption|].
        split; [cbn [put_size]; unfold chunk, rest in *; lia|].
        split.
        { rewrite fmap_app, concat_app. cbn [fmap list_fmap put_data concat].
          rewrite app_nil_r, <- Hdata. f_equal.
          subst chunk. apply take_all_Z. lia. }
        rewrite Hterm'. exact Heof.
      * rewrite Hturn. exists st. split; [assumption|]. split; [assumption|].
        split; [assumption|]. right. exists e. cbv zeta. fold rest. fold chunk.
        split; [by right|]. split; [exact Hans|reflexivity].
    + (* the stream breaks in this part *)
      apply bool_decide_eq_false in Heof.
      rewrite Hturn. exists st. split; [assumption|]. split; [assumption|].
      split; [assumption|]. left. split; [|assumption].
      unfold read_failure. cbn [ret_site ret_n ret_err ret_calls ret_tmpBuffer].
      repeat split; try assumption.
      subst chunk. fold rest. apply take_all_Z. lia.
    + (* a full part *)
      destruct (PutObjectPart c bucketName objectName uploadID (partNumber st)
                  (lengthZ chunk) chunk (digest_of md5_New chunk)
                  (digest_of sha256_New chunk)) as [p|e] eqn:Hans.
      * rewrite Hturn. rewrite andb_false_r.
        match goal with |- context [loop fuel ?s] => set (st1 := s) end.
        assert (Hturn1 : turn st = inr (st1, false))
          by (rewrite Hturn; by rewrite andb_false_r).
        destruct (loop_invariant_step md5_New sha256_New c bucketName objectName
                    uploadID totalPartsCount partSize size term partSize_pos
                    plan_fits st p false Hinv Hle Hans _ Hturn1)
          as (Hinv' & Hpn' & _ & Hdata' & _ & Hcalls').
        apply IH; [exact Hinv'| |lia].
        exists (puts ++
                [call_PutObjectPart (partNumber st) (lengthZ chunk) chunk
                   (digest_of md5_New chunk) (digest_of sha256_New chunk) (inl p)]).
        split; [by rewrite Hcalls', Hcalls|].
        split.
        { apply Forall_app. split; [assumption|].
          constructor; [|constructor]. cbn [chunk_put]. repeat split.
          unfold chunk, rest in *. lia. }
        split.
        { apply Forall_app. split; [assumption|].
          constructor; [|constructor]. cbn [put_answered]. by rewrite <- Hans. }
        split.
        { apply Forall_app. split; [assumption|].
          constructor; [|constructor]. cbn [put_size].
          unfold chunk, rest in *. lia. }
        rewrite fmap_app, concat_app. cbn [fmap list_fmap put_data concat].
        rewrite app_nil_r, Hdata', <- Hdata, <- app_assoc. f_equal.
        subst chunk. fold rest. apply take_drop.
      * rewrite Hturn. exists st. split; [assumption|]. split; [assumption|].
        split; [assumption|]. right. exists e. cbv zeta. fold rest. fold chunk.
        split; [by left|]. split; [exact Hans|reflexivity].
Qed.

End StreamLoop.

(** ** Reading the part transfers on a record of calls *)

Lemma chunk_put_is_put (md5_New sha256_New : Hash) (partSize : Z) (x : call) :
  chunk_put md5_New sha256_New partSize x -> is_put x = true.
Proof. by destruct x. Qed.

Lemma part_calls_app (l1 l2 : list call) :
  part_calls (l1 ++ l2) = part_calls l1 ++ part_calls l2.
Proof. apply filter_app. Qed.

Lemma part_calls_all (l : list call) :
  Forall (fun x => is_put x = true) l -> part_calls l = l.
Proof.
  induction 1 as [|x l Hx _ IH]; [reflexivity|].
  unfold part_calls in *. rewrite filter_cons_True by assumption. by rewrite IH.
Qed.

(** The part transfers of a record that starts with the initiation and ends
    with calls of another kind. *)
Lemma part_calls_record (md5_New sha256_New : Hash) (partSize : Z)
    (puts tail : list call) :
  Forall (chunk_put md5_New sha256_New partSize) puts ->
  Forall (fun x => is_put x = false) tail ->
  part_calls (call_NewMultipartUpload :: puts ++ tail) = puts.
Proof.
  intros Hputs Htail.
  change (call_NewMultipartUpload :: puts ++ tail)
    with ([call_NewMultipartUpload] ++ puts ++ tail).
  rewrite !part_calls_app.
  rewrite (part_calls_all puts).
  - assert (Hnone : part_calls tail = []).
    { clear Hputs. induction Htail as [|x l Hx _ IH]; [reflexivity|].
      unfold part_calls in *. rewrite filter_cons_False; [exact IH|].
      rewrite Hx. discriminate. }
    rewrite Hnone, app_nil_r. reflexivity.
  - eapply Forall_impl; [exact Hputs|]. apply chunk_put_is_put.
Qed.

Lemma sum_sizes_chunks (md5_New sha256_New : Hash) (partSize : Z)
    (puts : list call) :
  Forall (chunk_put md5_New sha256_New partSize) puts ->
  sum_sizes puts = lengthZ (concat (put_data <$> puts)).
Proof.
  induction 1 as [|x l Hx _ IH]; [reflexivity|].
  rewrite fmap_cons. cbn [concat sum_sizes foldr].
  fold (sum_sizes l). rewrite IH.
  unfold lengthZ. rewrite length_app.
  destruct x as [|k sz d m s a|]; try contradiction.
  destruct Hx as (-> & _). cbn [put_size put_data]. unfold lengthZ. lia.
Qed.

Lemma sum_sizes_full (partSize : Z) (puts : list call) :
  Forall (fun x => put_size x = partSize) puts ->
  sum_sizes puts = lengthZ puts * partSize.
Proof.
  induction 1 as [|x l Hx _ IH]; [reflexivity|].
  cbn [sum_sizes foldr]. fold (sum_sizes l). rewrite IH, Hx.
  unfold lengthZ. cbn [length]. lia.
Qed.

Lemma accepted_bytes_app (l1 l2 : list call) :
  accepted_bytes (l1 ++ l2) = accepted_bytes l1 + accepted_bytes l2.
Proof. unfold accepted_bytes. induction l1; simpl; lia. Qed.

Lemma accepted_bytes_ok (puts : list call) :
  Forall put_ok puts -> accepted_bytes puts = sum_sizes puts.
Proof.
  induction 1 as [|x l Hx _ IH]; [reflexivity|].
  cbn [accepted_bytes sum_sizes foldr].
  fold (accepted_bytes l). fold (sum_sizes l). rewrite IH.
  destruct x as [|k sz d m s [p|e]|]; try contradiction. reflexivity.
Qed.

Lemma omap_ext_lookup {A B C : Type} (f : A -> option C) (g : B -> option C)
    (l1 : list A) (l2 : list B) :
  length l1 = length l2 ->
  (forall (k : nat) x y, l1 !! k = Some x -> l2 !! k = Some y -> f x = g y) ->
  omap f l1 = omap g l2.
Proof.
  revert l2. induction l1 as [|x l1 IH]; intros [|y l2] Hlen Hext;
    try discriminate; [reflexivity|].
  cbn [omap list_omap]. rewrite (Hext 0%nat x y eq_refl eq_refl).
  rewrite (IH l2); [reflexivity|by injection Hlen|].
  intros k x' y' Hx Hy. exact (Hext (S k) x' y' Hx Hy).
Qed.

Lemma puts_count (puts : list call) (partNumber : Z) :
  put_number <$> puts = seqZ 1 (partNumber - 1) -> 1 <= partNumber ->
  lengthZ puts = partNumber - 1.
Proof.
  intros Hnum Hpn. unfold lengthZ.
  rewrite <- (length_fmap put_number), Hnum, length_seqZ. lia.
Qed.

(** Between two turns the records kept are the answers of the store to the
    part transfers, in the order of the transfers. *)
Lemma recorded_parts_puts (totalPartsCount partSize : Z) (term : error)
    (st : LoopState) (puts : list call) :
  loop_invariant totalPartsCount partSize term st ->
  calls st = call_NewMultipartUpload :: puts ->
  recorded_parts (partsInfo st) 1 (Z.to_nat (partNumber st - 1))
  = omap put_part puts.
Proof.
  intros (puts' & Hcalls & _ & Hok & Hnum & _ & _ & _ & Hpn & Hinfo) Hcalls'.
  assert (puts' = puts) as -> by congruence.
  pose proof (puts_count puts (partNumber st) Hnum ltac:(lia)) as Hcount.
  unfold recorded_parts. apply omap_ext_lookup.
  - rewrite length_seqZ. unfold lengthZ in Hcount. lia.
  - intros k i y Hi Hy.
    apply lookup_seqZ in Hi as [-> Hk].
    destruct (Hinfo (1 + Z.of_nat k) ltac:(lia)) as (p & sz & d & m & s & Hp & Hin).
    apply list_elem_of_In, list_elem_of_lookup in Hin as [j Hj].
    assert (Hnj : (put_number <$> puts) !! j = Some (1 + Z.of_nat k))
      by (rewrite list_lookup_fmap, Hj; reflexivity).
    rewrite Hnum in Hnj. apply lookup_seqZ in Hnj as [Hjk _].
    assert (j = k) as -> by lia.
    rewrite Hp. assert (y = call_PutObjectPart (1 + Z.of_nat k) sz d m s (inl p))
      as -> by congruence.
    reflexivity.
Qed.

(** From a state between two turns the finalize step finds every record and
    issues the completion call. *)
Lemma finalize_completed (c : Store) (bucketName objectName uploadID : string)
    (totalPartsCount partSize : Z) (term : error) (st : LoopState)
    (puts : list call) :
  loop_invariant totalPartsCount partSize term st ->
  calls st = call_NewMultipartUpload :: puts ->
  let Parts := sort_Sort (omap put_part puts) in
  finalize c bucketName objectName uploadID (-1) st =
    {| ret_n := sum_sizes puts;
       ret_err := CompleteMultipartUpload c bucketName objectName uploadID Parts;
       ret_site := ret_completed;
       ret_calls :=
         call_NewMultipartUpload :: puts ++ [call_CompleteMultipartUpload Parts];
       ret_tmpBuffer := [] |}.
Proof.
  intros Hinv Hcalls. cbv zeta.
  rewrite <- (recorded_parts_puts _ _ _ _ _ Hinv Hcalls).
  destruct Hinv as (puts' & Hcalls' & _ & _ & _ & Htot & _ & Hbuf & Hpn & Hinfo).
  assert (puts' = puts) as -> by congruence.
  unfold finalize. change (0 <? -1) with false. cbn [andb].
  destruct (collectParts (partsInfo st) 1 (Z.to_nat (partNumber st - 1)) [])
    as [e|Parts] eqn:Hcollect.
  - destruct (collectParts_inl _ _ _ _ _ Hcollect) as (j & _ & Hj & Hnone & _).
    destruct (Hinfo j ltac:(lia)) as (p & sz & d & m & s & Hp & _). congruence.
  - destruct (collectParts_inr _ _ _ _ _ Hcollect) as [-> _].
    rewrite Hbuf, Hcalls, Htot. reflexivity.
Qed.

(** ** UploadOrchestrator: what [PutStream] returns, by the record of calls *)

Section PutStreamShape.

Variable conv : F64.float64 -> Z.
Variables md5_New sha256_New : Hash.
Variable Getenv : string -> string.
Variable c : Store.
Variables bucketName objectName : string.
Variable src : Reader.
Variable metaData : gmap string (list string).

Lemma initial_state_stream (uploadID : string) :
  stream_invariant c bucketName objectName uploadID md5_New sha256_New
    134217728 (rdata src) (initial_state src).
Proof. exists []. repeat split; constructor. Qed.

(** Every way [PutStream] can go, with the part transfers it made. The
    client could not be made, or the upload could not be initiated; or the
    parts [puts] were transferred, in this order, all accepted, all but
    possibly the last of 128 MiB, and then the stream broke, or the store
    refused the next part, or the completion call was made. *)
Lemma PutStream_shape :
  let r :=
    PutStream conv md5_New sha256_New Getenv c bucketName objectName src metaData in
  (exists e,
     NewV2 c (Getenv "S3_ADDRESS") (Getenv "ACCESS_KEY") (Getenv "SECRET_KEY")
       (bool_decide (Getenv "SSL" ≠ "")) = Some e
     /\ r = {| ret_n := 0; ret_err := Some e; ret_site := ret_NewV2_failed;
               ret_calls := []; ret_tmpBuffer := [] |})
  \/ (exists e,
        NewMultipartUpload c bucketName objectName metaData = inr e
        /\ r = {| ret_n := 0; ret_err := Some e;
                  ret_site := ret_NewMultipartUpload_failed;
                  ret_calls := [call_NewMultipartUpload];
                  ret_tmpBuffer := [] |})
  \/ exists uploadID puts rest,
       NewMultipartUpload c bucketName objectName metaData = inl uploadID
       /\ Forall (chunk_put md5_New sha256_New 134217728) puts
       /\ Forall (put_answered c bucketName objectName uploadID) puts
       /\ Forall put_ok puts
       /\ put_number <$> puts = seqZ 1 (lengthZ puts)
       /\ (forall (i : nat) x, puts !! i = Some x -> (S i < length puts)%nat ->
             put_size x = 134217728)
       /\ lengthZ puts <= 5120
       /\ concat (put_data <$> puts) ++ rest = rdata src
       /\ ((Forall (fun x => put_size x = 134217728) puts
            /\ lengthZ puts < 5120
            /\ lengthZ rest < 134217728
            /\ rterm src <> EOF
            /\ r = {| ret_n := 0; ret_err := Some (rterm src);
                      ret_site := ret_read_failed;
                      ret_calls := call_NewMultipartUpload :: puts;
                      ret_tmpBuffer := rest |})
           \/ (exists e,
                 Forall (fun x => put_size x = 134217728) puts
                 /\ lengthZ puts < 5120
                 /\ (134217728 <= lengthZ rest \/ rterm src = EOF)
                 /\ let chunk := take (Z.to_nat 134217728) rest in
                    PutObjectPart c bucketName objectName uploadID
                      (lengthZ puts + 1) (lengthZ chunk) chunk
                      (digest_of md5_New chunk) (digest_of sha256_New chunk) = inr e
                    /\ r = {| ret_n := sum_sizes puts; ret_err := Some e;
                              ret_site := ret_PutObjectPart_failed;
                              ret_calls :=
                                call_NewMultipartUpload :: puts ++
                                [call_PutObjectPart (lengthZ puts + 1)
                                   (lengthZ chunk) chunk (digest_of md5_New chunk)
                                   (digest_of sha256_New chunk) (inr e)];
                              ret_tmpBuffer := [] |})
           \/ (((Forall (fun x => put_size x = 134217728) puts
                 /\ lengthZ puts = 5120)
                \/ (rest = [] /\ rterm src = EOF
                    /\ exists puts0 x,
                         puts = puts0 ++ [x]
                         /\ Forall (fun x => put_size x = 134217728) puts0
                         /\ put_size x < 134217728))
               /\ let Parts := sort_Sort (omap put_part puts) in
                  r = {| ret_n := sum_sizes puts;
                         ret_err :=
                           CompleteMultipartUpload c bucketName objectName
                             uploadID Parts;
                         ret_site := ret_completed;
                         ret_calls :=
                           call_NewMultipartUpload :: puts ++
                           [call_CompleteMultipartUpload Parts];
                         ret_tmpBuffer := [] |})).
Proof.
  cbv zeta.
  destruct (NewV2 c (Getenv "S3_ADDRESS") (Getenv "ACCESS_KEY")
              (Getenv "SECRET_KEY") (bool_decide (Getenv "SSL" ≠ "")))
    as [e|] eqn:Hnew.
  { left. exists e. split; [reflexivity|]. unfold PutStream. by rewrite Hnew. }
  right.
  destruct (NewMultipartUpload c bucketName objectName metaData)
    as [uploadID|e] eqn:Hinit.
  2:{ left. exists e. split; [reflexivity|].
      unfold PutStream. by rewrite Hnew, Hinit. }
  right. exists uploadID.
  rewrite (PutStream_started conv md5_New sha256_New Getenv c bucketName
             objectName src metaData uploadID Hnew Hinit).
  pose proof (partLoop_stream md5_New sha256_New c bucketName objectName uploadID
                5120 134217728 (-1) (rterm src) (rdata src) ltac:(lia)
                (plan_fits_unknown) ltac:(lia) (Z.to_nat 5120) (initial_state src)
                (initial_state_invariant src) (initial_state_stream uploadID))
    as Hout.
  cbv zeta in Hout.
  destruct (partLoop _ _ _ _ _ _ _ _ _ _ _) as [r|st].
  - destruct (Hout ltac:(cbn [initial_state partNumber]; lia))
      as (st & Hinv & Hs & Hle & Hcase). clear Hout.
    destruct Hs as (puts & Hcalls & Hchunks & Hans0 & Hfull & Hdata).
    pose proof Hinv as (puts' & Hcalls' & Hterm & Hok & Hnum & Htot & _ & _ & Hpn & _).
    assert (puts' = puts) as -> by congruence. clear Hcalls'.
    pose proof (puts_count puts (partNumber st) Hnum ltac:(lia)) as Hcount.
    exists puts, (rdata (reader st)).
    split; [reflexivity|].
    split; [exact Hchunks|]. split; [exact Hans0|]. split; [exact Hok|].
    split; [by rewrite Hcount|].
    split.
    { intros i x Hx _. rewrite Forall_lookup in Hfull. eapply Hfull, Hx. }
    split; [lia|]. split; [exact Hdata|].
    destruct Hcase as [[Hread Hshort]|(e & Hwhy & Hans & ->)].
    + left.
      destruct Hread as (Hsite & Hn & Herr & Hne & Hc & Hbuf).
      split; [exact Hfull|]. split; [lia|]. split; [exact Hshort|].
      split; [by rewrite <- Hterm|].
      destruct r as [n err site cs buf].
      cbn [ret_site ret_n ret_err ret_calls ret_tmpBuffer] in *.
      rewrite Hsite, Hn, Herr, Hc, Hbuf, Hterm, Hcalls. reflexivity.
    + right. left. exists e.
      split; [exact Hfull|]. split; [lia|].
      split; [by rewrite <- Hterm|].
      replace (lengthZ puts + 1) with (partNumber st) by lia.
      split; [exact Hans|]. by rewrite Htot, Hcalls.
  - destruct (Hout ltac:(cbn [initial_state partNumber]; lia)) as [Hinv Hcase].
    clear Hout.
    pose proof Hinv as (puts & Hcalls & Hterm & Hok & Hnum & Htot & _ & _ & Hpn & _).
    pose proof (puts_count puts (partNumber st) Hnum ltac:(lia)) as Hcount.
    rewrite (finalize_completed c bucketName objectName uploadID _ _ _ st puts
               Hinv Hcalls).
    destruct Hcase as [[Hs Hcap]|Hend].
    + destruct Hs as (puts' & Hcalls' & Hchunks & Hans0 & Hfull & Hdata).
      assert (puts' = puts) as -> by congruence. clear Hcalls'.
      exists puts, (rdata (reader st)).
      split; [reflexivity|].
      split; [exact Hchunks|]. split; [exact Hans0|]. split; [exact Hok|].
      split; [by rewrite Hcount|].
      split.
      { intros i x Hx _. rewrite Forall_lookup in Hfull. eapply Hfull, Hx. }
      split; [lia|]. split; [exact Hdata|].
      right. right. split; [|reflexivity].
      left. split; [exact Hfull|lia].
    + destruct Hend
        as (puts0 & x & Hcalls' & Hchunks & Hans0 & Hfull & Hshort & Hdata & Heof).
      assert (puts = puts0 ++ [x]) as -> by congruence. clear Hcalls'.
      exists (puts0 ++ [x]), [].
      split; [reflexivity|].
      split; [exact Hchunks|]. split; [exact Hans0|]. split; [exact Hok|].
      split; [by rewrite Hcount|].
      split.
      { intros i y Hy Hi. rewrite Forall_lookup in Hfull.
        rewrite length_app in Hi. cbn [length] in Hi.
        rewrite lookup_app_l in Hy by lia. eapply Hfull, Hy. }
      split; [lia|]. split; [by rewrite app_nil_r|].
      right. right. split; [|reflexivity].
      right. split; [reflexivity|]. split; [by rewrite <- Hterm|].
      exists puts0, x. split; [reflexivity|]. split; [exact Hfull|exact Hshort].
Qed.


Lemma sum_sizes_bounds (partSize : Z) (puts : list call) :
  Forall (chunk_put md5_New sha256_New partSize) puts ->
  0 <= sum_sizes puts <= lengthZ puts * partSize.
Proof.
  induction 1 as [|x l Hx _ IH]; [unfold lengthZ; simpl; lia|].
  cbn [sum_sizes foldr]. fold (sum_sizes l).
  destruct x as [|k sz d m s a|]; try contradiction.
  destruct Hx as (-> & Hle & _). cbn [put_size].
  pose proof (lengthZ_nonneg d). unfold lengthZ in *. cbn [length]. lia.
Qed.

Lemma accepted_bytes_record (puts tail : list call) :
  Forall put_ok puts -> Forall (fun x => accepted_size x = 0) tail ->
  accepted_bytes (call_NewMultipartUpload :: puts ++ tail) = sum_sizes puts.
Proof.
  intros Hok Htail.
  change (call_NewMultipartUpload :: puts ++ tail)
    with ([call_NewMultipartUpload] ++ puts ++ tail).
  rewrite !accepted_bytes_app, (accepted_bytes_ok puts Hok).
  assert (Hnone : accepted_bytes tail = 0).
  { induction Htail as [|x l Hx _ IH]; [reflexivity|].
    cbn [accepted_bytes foldr]. fold (accepted_bytes l). lia. }
  rewrite Hnone. cbn [accepted_bytes foldr accepted_size]. lia.
Qed.

(** X10: the part transfers that [PutStream] makes, whatever the stream and the
    store do: their numbers are 1, 2, ... in this order, there are at most
    5120 of them, each carries at most 128 MiB, its size is the count of its
    bytes and its digests are those of fresh hashers over these bytes; put
    end to end the bytes are a front piece of the stream; every part but the
    last on record was accepted by the store and has exactly 128 MiB. *)
Theorem PutStream_part_calls :
  let r :=
    PutStream conv md5_New sha256_New Getenv c bucketName objectName src metaData in
  let puts := part_calls (ret_calls r) in
  Forall (chunk_put md5_New sha256_New 134217728) puts
  /\ put_number <$> puts = seqZ 1 (lengthZ puts)
  /\ lengthZ puts <= 5120
  /\ concat (put_data <$> puts) `prefix_of` rdata src
  /\ (forall (i : nat) x, puts !! i = Some x -> (S i < length puts)%nat ->
        put_size x = 134217728 /\ put_ok x).
Proof.
  cbv zeta.
  destruct PutStream_shape
    as [(e & _ & ->)|[(e & _ & ->)|(uploadID & puts & rest & _ & Hchunks & _ & Hok
         & Hnum & Hfull & Hcount & Hdata & Hcase)]].
  - cbn [ret_calls]. change (part_calls []) with (@nil call).
    split; [constructor|]. split; [reflexivity|].
    split; [unfold lengthZ; simpl; lia|]. split; [apply prefix_nil|].
    intros i x [=].
  - cbn [ret_calls]. change (part_calls [call_NewMultipartUpload]) with (@nil call).
    split; [constructor|]. split; [reflexivity|].
    split; [unfold lengthZ; simpl; lia|]. split; [apply prefix_nil|].
    intros i x [=].
  - assert (Hall : Forall (chunk_put md5_New sha256_New 134217728) puts
                   /\ put_number <$> puts = seqZ 1 (lengthZ puts)
                   /\ lengthZ puts <= 5120
                   /\ concat (put_data <$> puts) `prefix_of` rdata src
                   /\ (forall (i : nat) x, puts !! i = Some x ->
                         (S i < length puts)%nat ->
                         put_size x = 134217728 /\ put_ok x)).
    { split; [exact Hchunks|]. split; [exact Hnum|]. split; [exact Hcount|].
      split; [exists rest; by rewrite Hdata|].
      intros i x Hx Hi. split; [exact (Hfull i x Hx Hi)|].
      rewrite Forall_lookup in Hok. exact (Hok i x Hx). }
    destruct Hcase as [(_ & _ & _ & _ & ->)|[(e & Hfull' & Hlt & _ & Hcase)|[_ Hcase]]].
    + cbn [ret_calls].
      pose proof (part_calls_record md5_New sha256_New 134217728 puts [] Hchunks
                    ltac:(constructor)) as Hpc.
      rewrite app_nil_r in Hpc. rewrite Hpc. exact Hall.
    + cbv zeta in Hcase. destruct Hcase as [Hans ->]. cbn [ret_calls].
      set (chunk := take (Z.to_nat 134217728) rest) in *.
      set (x := call_PutObjectPart (lengthZ puts + 1) (lengthZ chunk) chunk
                  (digest_of md5_New chunk) (digest_of sha256_New chunk) (inr e)).
      assert (Hx : chunk_put md5_New sha256_New 134217728 x).
      { subst x. cbn [chunk_put]. repeat split.
        subst chunk. rewrite lengthZ_take by lia. lia. }
      assert (Hchunks' : Forall (chunk_put md5_New sha256_New 134217728)
                           (puts ++ [x])).
      { apply Forall_app. split; [exact Hchunks|].
        constructor; [exact Hx|constructor]. }
      pose proof (part_calls_record md5_New sha256_New 134217728 (puts ++ [x]) []
                    Hchunks' ltac:(constructor)) as Hpc.
      rewrite app_nil_r in Hpc. rewrite Hpc.
      assert (Hlen : lengthZ (puts ++ [x]) = lengthZ puts + 1).
      { unfold lengthZ. rewrite length_app. cbn [length]. lia. }
      split; [exact Hchunks'|].
      split.
      { rewrite Hlen, fmap_app, Hnum.
        rewrite (seqZ_app 1 (lengthZ puts) 1) by (unfold lengthZ; lia).
        f_equal. cbn [fmap list_fmap put_number x].
        rewrite seqZ_cons, seqZ_nil by lia. f_equal. lia. }
      split; [lia|].
      split.
      { rewrite fmap_app, concat_app. cbn [fmap list_fmap concat put_data x].
        rewrite app_nil_r, <- Hdata. apply prefix_app.
        exists (drop (Z.to_nat 134217728) rest). subst chunk.
        by rewrite take_drop. }
      intros i y Hy Hi. rewrite length_app in Hi. cbn [length] in Hi.
      rewrite lookup_app_l in Hy by lia.
      split.
      * rewrite Forall_lookup in Hfull'. exact (Hfull' i y Hy).
      * rewrite Forall_lookup in Hok. exact (Hok i y Hy).
    + cbv zeta in Hcase. rewrite Hcase. cbn [ret_calls].
      rewrite (part_calls_record md5_New sha256_New 134217728 puts _ Hchunks)
        by (by repeat constructor).
      exact Hall.
Qed.

(** X11: the count that [PutStream] returns: unless it returns because the
    stream broke, the count is the number of bytes that the store accepted,
    and the temporary buffer is empty. The bytes accepted never exceed 5120
    parts of 128 MiB, so the running total does not wrap around; the count
    returned is never more than the bytes accepted. *)
Theorem PutStream_count_returned :
  let r :=
    PutStream conv md5_New sha256_New Getenv c bucketName objectName src metaData in
  (ret_site r <> ret_read_failed ->
   ret_n r = accepted_bytes (ret_calls r) /\ ret_tmpBuffer r = [])
  /\ 0 <= ret_n r <= accepted_bytes (ret_calls r)
  /\ accepted_bytes (ret_calls r) <= 5120 * 134217728.
Proof.
  cbv zeta.
  destruct PutStream_shape
    as [(e & _ & ->)|[(e & _ & ->)|(uploadID & puts & rest & _ & Hchunks & _ & Hok
         & _ & _ & Hcount & _ & Hcase)]].
  - cbn. repeat split; lia.
  - cbn. repeat split; lia.
  - pose proof (sum_sizes_bounds 134217728 puts Hchunks) as Hb.
    destruct Hcase as [(_ & _ & _ & _ & ->)|[(e & _ & _ & _ & Hcase)|[_ Hcase]]].
    + cbn [ret_site ret_n ret_calls ret_tmpBuffer].
      pose proof (accepted_bytes_record puts [] Hok ltac:(constructor)) as Hab.
      rewrite app_nil_r in Hab. rewrite Hab.
      split; [congruence|]. lia.
    + cbv zeta in Hcase. destruct Hcase as [_ ->].
      cbn [ret_site ret_n ret_calls ret_tmpBuffer].
      rewrite (accepted_bytes_record puts _ Hok) by (by repeat constructor).
      repeat split; lia.
    + cbv zeta in Hcase. rewrite Hcase.
      cbn [ret_site ret_n ret_calls ret_tmpBuffer].
      rewrite (accepted_bytes_record puts _ Hok) by (by repeat constructor).
      repeat split; lia.
Qed.

(** X12: [PutStream] never returns from the error branch after the planner, nor
    with the missing-part error of the finalize step: the planner returns no
    error, and every part that the loop counted has its record. It returns
    without an error only after the completion call. *)
Theorem PutStream_no_bookkeeping_fault :
  let r :=
    PutStream conv md5_New sha256_New Getenv c bucketName objectName src metaData in
  ret_site r <> ret_optimalPartInfo_failed
  /\ ret_site r <> ret_missing_part
  /\ (ret_err r = None -> ret_site r = ret_completed).
Proof.
  cbv zeta.
  destruct PutStream_shape
    as [(e & _ & ->)|[(e & _ & ->)|(uploadID & puts & rest & _ & _ & _ & _
         & _ & _ & _ & _ & Hcase)]].
  - cbn. repeat split; discriminate.
  - cbn. repeat split; discriminate.
  - destruct Hcase as [(_ & _ & _ & _ & ->)|[(e & _ & _ & _ & Hcase)|[_ Hcase]]].
    + cbn. repeat split; discriminate.
    + cbv zeta in Hcase. destruct Hcase as [_ ->].
      cbn. repeat split; discriminate.
    + cbv zeta in Hcase. rewrite Hcase.
      cbn [ret_site ret_err]. repeat split; discriminate.
Qed.


Lemma lengthZ_app {A : Type} (l1 l2 : list A) :
  lengthZ (l1 ++ l2) = lengthZ l1 + lengthZ l2.
Proof. unfold lengthZ. rewrite length_app. lia. Qed.

Lemma chunk_put_not_completion (partSize : Z) (puts : list call)
    (Parts : list CompletePart.t) :
  Forall (chunk_put md5_New sha256_New partSize) puts ->
  ~ In (call_CompleteMultipartUpload Parts) puts.
Proof.
  intros Hchunks Hin. rewrite Forall_forall in Hchunks.
  apply list_elem_of_In in Hin. exact (Hchunks _ Hin).
Qed.

Lemma omap_put_part_length (puts : list call) :
  Forall put_ok puts -> length (omap put_part puts) = length puts.
Proof.
  induction 1 as [|x l Hx _ IH]; [reflexivity|].
  destruct x as [|k sz d m s [p|e]|]; try contradiction.
  cbn [omap list_omap put_part length]. by rewrite IH.
Qed.

(** The entries of the completion list carry the part numbers of the
    transfers when the store answers each transfer with the number it was
    asked for. *)
Lemma omap_put_part_numbers (uploadID : string) (puts : list call) :
  (forall k sz d m s p,
     PutObjectPart c bucketName objectName uploadID k sz d m s = inl p ->
     ObjectPart.PartNumber p = k) ->
  Forall put_ok puts ->
  Forall (put_answered c bucketName objectName uploadID) puts ->
  CompletePart.PartNumber <$> omap put_part puts = put_number <$> puts.
Proof.
  intros Hecho Hok Hans. induction Hok as [|x l Hx _ IH]; [reflexivity|].
  apply Forall_cons in Hans as [Hax Hal].
  destruct x as [|k sz d m s [p|e]|]; try contradiction.
  cbn [omap list_omap put_part]. rewrite !fmap_cons, (IH Hal).
  cbn [put_number put_answered] in *. f_equal.
  unfold to_CompletePart. cbn [CompletePart.PartNumber].
  apply (Hecho k sz d m s). by rewrite <- Hax.
Qed.

(** X13: the completion call: [PutStream] makes it only after every part it
    transferred was accepted, as the last call and once; the list it hands
    over has one entry for each part transferred, made from the answer of
    the store to that transfer, in ascending order of part number; what the
    call returns is what [PutStream] returns as its error. *)
Theorem PutStream_completion_call :
  let r :=
    PutStream conv md5_New sha256_New Getenv c bucketName objectName src metaData in
  (forall Parts,
     In (call_CompleteMultipartUpload Parts) (ret_calls r) ->
     exists uploadID puts,
       NewMultipartUpload c bucketName objectName metaData = inl uploadID
       /\ ret_calls r =
            call_NewMultipartUpload :: puts ++ [call_CompleteMultipartUpload Parts]
       /\ Forall (fun x => is_put x = true) puts
       /\ Forall put_ok puts
       /\ Parts ≡ₚ omap put_part puts
       /\ StronglySorted number_le Parts
       /\ length Parts = length puts
       /\ ret_err r = CompleteMultipartUpload c bucketName objectName uploadID Parts
       /\ ret_site r = ret_completed)
  /\ (ret_site r = ret_completed ->
      exists Parts, In (call_CompleteMultipartUpload Parts) (ret_calls r)).
Proof.
  cbv zeta.
  destruct PutStream_shape
    as [(e & _ & ->)|[(e & _ & ->)|(uploadID & puts & rest & Hinit & Hchunks & _ & Hok
         & _ & _ & _ & _ & Hcase)]].
  - cbn [ret_calls ret_site]. split; [intros Parts []|discriminate].
  - cbn [ret_calls ret_site]. split; [intros Parts [[=]|[]]|discriminate].
  - destruct Hcase as [(_ & _ & _ & _ & ->)|[(e & _ & _ & _ & Hcase)|[_ Hcase]]].
    + cbn [ret_calls ret_site]. split; [|discriminate].
      intros Parts [[=]|Hin].
      by apply (chunk_put_not_completion _ _ _ Hchunks) in Hin.
    + cbv zeta in Hcase. destruct Hcase as [_ ->].
      cbn [ret_calls ret_site]. split; [|discriminate].
      intros Parts [[=]|Hin]. apply in_app_or in Hin as [Hin|[[=]|[]]].
      by apply (chunk_put_not_completion _ _ _ Hchunks) in Hin.
    + cbv zeta in Hcase. rewrite Hcase. cbn [ret_calls ret_site ret_err].
      split; [|intros _; eexists; right; apply in_or_app; right; by left].
      intros Parts [[=]|Hin]. apply in_app_or in Hin as [Hin|[[= <-]|[]]].
      { by apply (chunk_put_not_completion _ _ _ Hchunks) in Hin. }
      exists uploadID, puts.
      split; [exact Hinit|]. split; [reflexivity|].
      split; [eapply Forall_impl; [exact Hchunks|apply chunk_put_is_put]|].
      split; [exact Hok|]. split; [apply sort_Sort_perm|].
      split; [apply sort_Sort_sorted|].
      split; [by rewrite sort_Sort_perm, omap_put_part_length|].
      split; reflexivity.
Qed.

(** X14: with a store that answers each part transfer with the part number it
    was asked for, the list handed to the completion call is the list of the
    answers in the order of the transfers: the numbers 1, 2, ... with the
    entity tags that the store gave. *)
Theorem PutStream_completion_list (Parts : list CompletePart.t) :
  (forall uploadID k sz d m s p,
     PutObjectPart c bucketName objectName uploadID k sz d m s = inl p ->
     ObjectPart.PartNumber p = k) ->
  let r :=
    PutStream conv md5_New sha256_New Getenv c bucketName objectName src metaData in
  In (call_CompleteMultipartUpload Parts) (ret_calls r) ->
  Parts = omap put_part (part_calls (ret_calls r))
  /\ CompletePart.PartNumber <$> Parts = seqZ 1 (lengthZ Parts)
  /\ lengthZ Parts = lengthZ (part_calls (ret_calls r)).
Proof.
  intros Hecho. cbv zeta.
  destruct PutStream_shape
    as [(e & _ & ->)|[(e & _ & ->)|(uploadID & puts & rest & Hinit & Hchunks & Hans
         & Hok & Hnum & _ & _ & _ & Hcase)]].
  - intros [].
  - intros [[=]|[]].
  - destruct Hcase as [(_ & _ & _ & _ & ->)|[(e & _ & _ & _ & Hcase)|[_ Hcase]]].
    + cbn [ret_calls]. intros [[=]|Hin].
      by apply (chunk_put_not_completion _ _ _ Hchunks) in Hin.
    + cbv zeta in Hcase. destruct Hcase as [_ ->]. cbn [ret_calls].
      intros [[=]|Hin]. apply in_app_or in Hin as [Hin|[[=]|[]]].
      by apply (chunk_put_not_completion _ _ _ Hchunks) in Hin.
    + cbv zeta in Hcase. rewrite Hcase. cbn [ret_calls].
      intros [[=]|Hin]. apply in_app_or in Hin as [Hin|[[= <-]|[]]].
      { by apply (chunk_put_not_completion _ _ _ Hchunks) in Hin. }
      rewrite (part_calls_record md5_New sha256_New 134217728 puts _ Hchunks)
        by (by repeat constructor).
      pose proof (omap_put_part_numbers uploadID puts (Hecho uploadID) Hok Hans)
        as Hnums.
      pose proof (omap_put_part_length puts Hok) as Hlen.
      assert (Hsorted : sort_Sort (omap put_part puts) = omap put_part puts).
      { apply (sort_Sort_ascending _ 1). rewrite Hnums, Hnum.
        unfold lengthZ. by rewrite Hlen. }
      rewrite Hsorted. split; [reflexivity|].
      split; [|unfold lengthZ; by rewrite Hlen].
      rewrite Hnums, Hnum. unfold lengthZ. by rewrite Hlen.
Qed.

(** X15: the round trip: a stream that ends, shorter than 5120 parts of 128 MiB,
    sent to a store that always succeeds. The bytes of the parts transferred,
    put end to end, are the bytes of the stream; there is one part for each
    128 MiB begun, and one more of no bytes when the length is a multiple
    of 128 MiB; the completion call is the last call; [PutStream] returns
    the length of the stream and no error. *)
Theorem PutStream_round_trip :
  always_succeeds c ->
  rterm src = EOF ->
  lengthZ (rdata src) < 5120 * 134217728 ->
  let r :=
    PutStream conv md5_New sha256_New Getenv c bucketName objectName src metaData in
  exists puts Parts,
    ret_calls r =
      call_NewMultipartUpload :: puts ++ [call_CompleteMultipartUpload Parts]
    /\ Forall (fun x => is_put x = true) puts
    /\ concat (put_data <$> puts) = rdata src
    /\ lengthZ puts = lengthZ (rdata src) / 134217728 + 1
    /\ ret_n r = lengthZ (rdata src)
    /\ ret_err r = None
    /\ ret_site r = ret_completed.
Proof.
  intros (Hnew & Hinit & Hput & Hdone) Heof Hlen. cbv zeta.
  destruct PutStream_shape
    as [(e & He & _)|[(e & He & _)|(uploadID & puts & rest & _ & Hchunks & _ & _
         & _ & _ & _ & Hdata & Hcase)]].
  - by rewrite Hnew in He.
  - destruct (Hinit bucketName objectName metaData) as [u Hu]. congruence.
  - pose proof (sum_sizes_chunks _ _ _ _ Hchunks) as Hsum.
    assert (Hsplit : lengthZ (rdata src) = sum_sizes puts + lengthZ rest)
      by (rewrite <- Hdata, lengthZ_app, Hsum; reflexivity).
    pose proof (lengthZ_nonneg rest) as Hrest.
    destruct Hcase as [(_ & _ & _ & Hne & _)|[(e & _ & _ & _ & Hcase)|[Hwhy Hcase]]].
    + contradiction.
    + cbv zeta in Hcase. destruct Hcase as [Hans _].
      destruct (Hput bucketName objectName uploadID (lengthZ puts + 1)
                  (lengthZ (take (Z.to_nat 134217728) rest))
                  (take (Z.to_nat 134217728) rest)
                  (digest_of md5_New (take (Z.to_nat 134217728) rest))
                  (digest_of sha256_New (take (Z.to_nat 134217728) rest)))
        as [p Hp].
      congruence.
    + cbv zeta in Hcase. rewrite Hcase.
      cbn [ret_calls ret_n ret_err ret_site].
      destruct Hwhy as [[Hfull Hcap]|(-> & _ & puts0 & x & -> & Hfull & Hshort)].
      { rewrite (sum_sizes_full _ _ Hfull) in Hsplit. lia. }
      eexists _, _. split; [reflexivity|].
      split; [eapply Forall_impl; [exact Hchunks|apply chunk_put_is_put]|].
      split; [by rewrite app_nil_r in Hdata|].
      change (lengthZ (@nil byte)) with 0 in Hsplit.
      rewrite sum_sizes_app, (sum_sizes_full _ _ Hfull) in Hsplit.
      cbn [sum_sizes foldr] in Hsplit.
      apply Forall_app in Hchunks as [_ Hx]. apply Forall_inv in Hx.
      destruct x as [|k sz d m s a|]; try contradiction.
      destruct Hx as (-> & _). cbn [put_size] in *.
      pose proof (lengthZ_nonneg d) as Hd.
      split.
      { rewrite lengthZ_app. change (lengthZ [_]) with 1. f_equal.
        apply (Z.div_unique_pos _ _ _ (lengthZ d)); lia. }
      split.
      { rewrite sum_sizes_app, (sum_sizes_full _ _ Hfull).
        cbn [sum_sizes foldr put_size]. lia. }
      split; [apply Hdone|reflexivity].
Qed.

(** X16: the cap of the plan: of a stream of 5120 parts of 128 MiB or more, on a
    store that accepts the parts that are not empty, [PutStream] transfers
    the first 5120 parts and then makes the completion call, whether the
    stream ends there or not and whatever follows in it: the count returned
    is 5120 times 128 MiB and the error is that of the completion call. *)
Theorem PutStream_stops_at_cap :
  accepts_nonempty_parts c ->
  5120 * 134217728 <= lengthZ (rdata src) ->
  let r :=
    PutStream conv md5_New sha256_New Getenv c bucketName objectName src metaData in
  exists uploadID puts Parts,
    NewMultipartUpload c bucketName objectName metaData = inl uploadID
    /\ ret_calls r =
         call_NewMultipartUpload :: puts ++ [call_CompleteMultipartUpload Parts]
    /\ Forall (fun x => is_put x = true) puts
    /\ lengthZ puts = 5120
    /\ concat (put_data <$> puts) = take (Z.to_nat (5120 * 134217728)) (rdata src)
    /\ ret_n r = 5120 * 134217728
    /\ ret_err r = CompleteMultipartUpload c bucketName objectName uploadID Parts
    /\ ret_site r = ret_completed.
Proof.
  intros (Hnew & Hinit & Hput) Hlen. cbv zeta.
  destruct PutStream_shape
    as [(e & He & _)|[(e & He & _)|(uploadID & puts & rest & Hu & Hchunks & _ & _
         & _ & _ & Hcount & Hdata & Hcase)]].
  - by rewrite Hnew in He.
  - destruct (Hinit bucketName objectName metaData) as [u Hu]. congruence.
  - pose proof (sum_sizes_chunks _ _ _ _ Hchunks) as Hsum.
    assert (Hsplit : lengthZ (rdata src) = sum_sizes puts + lengthZ rest)
      by (rewrite <- Hdata, lengthZ_app, Hsum; reflexivity).
    pose proof (lengthZ_nonneg rest) as Hrest.
    destruct Hcase
      as [(Hfull & Hlt & Hshort & _)|[(e & Hfull & Hlt & _ & Hcase)|[Hwhy Hcase]]].
    + rewrite (sum_sizes_full _ _ Hfull) in Hsplit. lia.
    + cbv zeta in Hcase. destruct Hcase as [Hans _].
      rewrite (sum_sizes_full _ _ Hfull) in Hsplit.
      destruct (Hput bucketName objectName uploadID (lengthZ puts + 1)
                  (lengthZ (take (Z.to_nat 134217728) rest))
                  (take (Z.to_nat 134217728) rest)
                  (digest_of md5_New (take (Z.to_nat 134217728) rest))
                  (digest_of sha256_New (take (Z.to_nat 134217728) rest)))
        as [p Hp]; [|congruence].
      rewrite lengthZ_take by lia. lia.
    + cbv zeta in Hcase. rewrite Hcase.
      cbn [ret_calls ret_n ret_err ret_site].
      destruct Hwhy as [[Hfull Hcap]|(-> & _ & puts0 & x & -> & Hfull & Hshort)].
      2:{ change (lengthZ (@nil byte)) with 0 in Hsplit.
          rewrite sum_sizes_app, (sum_sizes_full _ _ Hfull) in Hsplit.
          cbn [sum_sizes foldr] in Hsplit.
          rewrite lengthZ_app in Hcount. change (lengthZ [x]) with 1 in Hcount.
          lia. }
      exists uploadID. eexists _, _. split; [exact Hu|]. split; [reflexivity|].
      split; [eapply Forall_impl; [exact Hchunks|apply chunk_put_is_put]|].
      split; [exact Hcap|].
      rewrite (sum_sizes_full _ _ Hfull), Hcap in *.
      split.
      { rewrite <- Hdata. symmetry. apply take_app_length'.
        unfold lengthZ in Hsum. lia. }
      split; [reflexivity|]. split; reflexivity.
Qed.


(** X17: the part without bytes at the end, refused: a stream that ends after
    exactly [k] parts of 128 MiB, for [k] from 0 to 5119, on a store that
    accepts the parts that are not empty and refuses the empty ones.
    [PutStream] has all the bytes of the stream accepted, then asks for the
    part [k+1] without bytes and returns the refusal of the store as its
    error, with the length of the stream as the count; the completion call
    is never made. *)
Theorem PutStream_empty_last_part_refused (k : Z) :
  accepts_nonempty_parts c ->
  (forall uploadID n d m s,
     exists e, PutObjectPart c bucketName objectName uploadID n 0 d m s = inr e) ->
  rterm src = EOF ->
  0 <= k < 5120 ->
  lengthZ (rdata src) = k * 134217728 ->
  let r :=
    PutStream conv md5_New sha256_New Getenv c bucketName objectName src metaData in
  exists puts e,
    ret_calls r =
      call_NewMultipartUpload :: puts ++
      [call_PutObjectPart (k + 1) 0 [] (digest_of md5_New [])
         (digest_of sha256_New []) (inr e)]
    /\ Forall put_ok puts
    /\ lengthZ puts = k
    /\ concat (put_data <$> puts) = rdata src
    /\ ret_n r = lengthZ (rdata src)
    /\ ret_err r = Some e
    /\ ret_site r = ret_PutObjectPart_failed.
Proof.
  intros (Hnew & Hinit & Hput) Hempty Heof Hk Hlen. cbv zeta.
  destruct PutStream_shape
    as [(e & He & _)|[(e & He & _)|(uploadID & puts & rest & Hu & Hchunks & Hans
         & Hok & _ & _ & Hcount & Hdata & Hcase)]].
  - by rewrite Hnew in He.
  - destruct (Hinit bucketName objectName metaData) as [u Hu]. congruence.
  - pose proof (sum_sizes_chunks _ _ _ _ Hchunks) as Hsum.
    assert (Hsplit : lengthZ (rdata src) = sum_sizes puts + lengthZ rest)
      by (rewrite <- Hdata, lengthZ_app, Hsum; reflexivity).
    pose proof (lengthZ_nonneg rest) as Hrest.
    destruct Hcase
      as [(_ & _ & _ & Hne & _)|[(e & Hfull & Hlt & _ & Hcase)|[Hwhy Hcase]]].
    + contradiction.
    + cbv zeta in Hcase. destruct Hcase as [Hrefused ->].
      rewrite (sum_sizes_full _ _ Hfull) in *.
      assert (Hnil : rest = []).
      { destruct (Z.eq_dec (lengthZ rest) 0) as [H0|Hne].
        - apply nil_length_inv. unfold lengthZ in H0. lia.
        - destruct (Hput bucketName objectName uploadID (lengthZ puts + 1)
                      (lengthZ (take (Z.to_nat 134217728) rest))
                      (take (Z.to_nat 134217728) rest)
                      (digest_of md5_New (take (Z.to_nat 134217728) rest))
                      (digest_of sha256_New (take (Z.to_nat 134217728) rest)))
            as [p Hp]; [|congruence].
          rewrite lengthZ_take by lia. lia. }
      subst rest. change (lengthZ (@nil byte)) with 0 in Hsplit.
      rewrite take_nil. change (lengthZ (@nil byte)) with 0.
      assert (lengthZ puts = k) as Hpk by nia.
      exists puts, e. cbn [ret_calls ret_n ret_err ret_site].
      rewrite Hpk. split; [reflexivity|]. split; [exact Hok|].
      split; [reflexivity|]. split; [by rewrite app_nil_r in Hdata|].
      split; [lia|]. split; reflexivity.
    + exfalso.
      destruct Hwhy as [[Hfull Hcap]|(-> & _ & puts0 & x & -> & Hfull & Hshort)].
      { rewrite (sum_sizes_full _ _ Hfull) in Hsplit. nia. }
      change (lengthZ (@nil byte)) with 0 in Hsplit.
      rewrite sum_sizes_app, (sum_sizes_full _ _ Hfull) in Hsplit.
      cbn [sum_sizes foldr] in Hsplit.
      apply Forall_app in Hchunks as [_ Hx]. apply Forall_inv in Hx.
      apply Forall_app in Hans as [_ Hax]. apply Forall_inv in Hax.
      apply Forall_app in Hok as [_ Hox]. apply Forall_inv in Hox.
      destruct x as [|n sz d m s a|]; try contradiction.
      destruct Hx as (-> & _). cbn [put_size put_answered put_ok] in *.
      pose proof (lengthZ_nonneg d) as Hd.
      pose proof (lengthZ_nonneg puts0) as Hp0.
      assert (Hd0 : lengthZ d = 0) by nia.
      rewrite Hd0 in Hax.
      destruct (Hempty uploadID n d m s) as [e He]. rewrite He in Hax.
      by subst a.
Qed.

(** X18: a stream that breaks before the cap of the plan, on a store that
    accepts the parts that are not empty: [PutStream] has the full parts of
    128 MiB before the break accepted by the store, then returns the error of
    the stream with the count zero; the temporary buffer holds the bytes read
    after the last full part. *)
Theorem PutStream_stream_breaks :
  accepts_nonempty_parts c ->
  rterm src <> EOF ->
  lengthZ (rdata src) < 5120 * 134217728 ->
  let r :=
    PutStream conv md5_New sha256_New Getenv c bucketName objectName src metaData in
  let full := lengthZ (rdata src) / 134217728 in
  exists puts,
    ret_calls r = call_NewMultipartUpload :: puts
    /\ Forall put_ok puts
    /\ lengthZ puts = full
    /\ accepted_bytes (ret_calls r) = full * 134217728
    /\ ret_n r = 0
    /\ ret_err r = Some (rterm src)
    /\ ret_site r = ret_read_failed
    /\ ret_tmpBuffer r = drop (Z.to_nat (full * 134217728)) (rdata src).
Proof.
  intros (Hnew & Hinit & Hput) Hbroken Hlen. cbv zeta.
  destruct PutStream_shape
    as [(e & He & _)|[(e & He & _)|(uploadID & puts & rest & Hu & Hchunks & _
         & Hok & _ & _ & Hcount & Hdata & Hcase)]].
  - by rewrite Hnew in He.
  - destruct (Hinit bucketName objectName metaData) as [u Hu]. congruence.
  - pose proof (sum_sizes_chunks _ _ _ _ Hchunks) as Hsum.
    assert (Hsplit : lengthZ (rdata src) = sum_sizes puts + lengthZ rest)
      by (rewrite <- Hdata, lengthZ_app, Hsum; reflexivity).
    pose proof (lengthZ_nonneg rest) as Hrest.
    pose proof (lengthZ_nonneg puts) as Hputs.
    destruct Hcase
      as [(Hfull & Hlt & Hshort & _ & ->)|[(e & Hfull & Hlt & Hwhy & Hcase)
          |[Hwhy Hcase]]].
    + rewrite (sum_sizes_full _ _ Hfull) in *.
      assert (Hq : lengthZ (rdata src) / 134217728 = lengthZ puts)
        by (symmetry; apply (Z.div_unique_pos _ _ _ (lengthZ rest)); lia).
      rewrite Hq. exists puts.
      cbn [ret_calls ret_n ret_err ret_site ret_tmpBuffer].
      split; [reflexivity|]. split; [exact Hok|]. split; [reflexivity|].
      split.
      { pose proof (accepted_bytes_record puts [] Hok ltac:(constructor)) as Hab.
        rewrite app_nil_r in Hab. rewrite Hab. apply sum_sizes_full, Hfull. }
      split; [reflexivity|]. split; [reflexivity|]. split; [reflexivity|].
      rewrite <- Hdata. symmetry. apply drop_app_length'.
      rewrite Hsum. unfold lengthZ. lia.
    + exfalso. cbv zeta in Hcase. destruct Hcase as [Hrefused _].
      destruct Hwhy as [Hlong|?]; [|contradiction].
      destruct (Hput bucketName objectName uploadID (lengthZ puts + 1)
                  (lengthZ (take (Z.to_nat 134217728) rest))
                  (take (Z.to_nat 134217728) rest)
                  (digest_of md5_New (take (Z.to_nat 134217728) rest))
                  (digest_of sha256_New (take (Z.to_nat 134217728) rest)))
        as [p Hp]; [|congruence].
      rewrite lengthZ_take by lia. lia.
    + exfalso.
      destruct Hwhy as [[Hfull Hcap]|(_ & ? & _)]; [|contradiction].
      rewrite (sum_sizes_full _ _ Hfull) in Hsplit. lia.
Qed.

End PutStreamShape.

(** ** The further theorems at sample streams and stores *)

Lemma strict_Store_accepts_nonempty_parts : accepts_nonempty_parts strict_Store.
Proof.
  repeat split; intros; simpl; eauto.
  destruct (Z.eqb_spec sz 0); [lia|eauto].
Qed.

Lemma PutStream_completion_list_witness :
  let r := PutStream amd64_conv (sample_Hash Byte.x01) (sample_Hash Byte.x02)
             sample_Getenv accepting_Store "bucket" "object"
             {| rdata := sample_bytes; rterm := EOF |} ∅ in
  let Parts := [{| CompletePart.PartNumber := 1; CompletePart.ETag := "etag" |}] in
  (forall uploadID k sz d m s p,
     PutObjectPart accepting_Store "bucket" "object" uploadID k sz d m s = inl p ->
     ObjectPart.PartNumber p = k)
  /\ In (call_CompleteMultipartUpload Parts) (ret_calls r)
  /\ Parts = omap put_part (part_calls (ret_calls r))
  /\ CompletePart.PartNumber <$> Parts = seqZ 1 (lengthZ Parts)
  /\ lengthZ Parts = lengthZ (part_calls (ret_calls r)).
Proof.
  cbv zeta.
  assert (Hecho : forall uploadID k sz d m s p,
            PutObjectPart accepting_Store "bucket" "object" uploadID k sz d m s
              = inl p -> ObjectPart.PartNumber p = k)
    by (intros uploadID k sz d m s p [= <-]; reflexivity).
  split; [exact Hecho|].
  pose proof (PutStream_completion_list amd64_conv (sample_Hash Byte.x01)
                (sample_Hash Byte.x02) sample_Getenv accepting_Store "bucket"
                "object" {| rdata := sample_bytes; rterm := EOF |} ∅
                [{| CompletePart.PartNumber := 1; CompletePart.ETag := "etag" |}]
                Hecho) as Hlist.
  cbv zeta in Hlist.
  assert (Hin : In (call_CompleteMultipartUpload
                      [{| CompletePart.PartNumber := 1;
                          CompletePart.ETag := "etag" |}])
                   (ret_calls
                      (PutStream amd64_conv (sample_Hash Byte.x01)
                         (sample_Hash Byte.x02) sample_Getenv accepting_Store
                         "bucket" "object"
                         {| rdata := sample_bytes; rterm := EOF |} ∅)))
    by (vm_compute; right; right; left; reflexivity).
  split; [exact Hin|]. exact (Hlist Hin).
Defined.

Lemma PutStream_round_trip_witness :
  let src := {| rdata := sample_bytes; rterm := EOF |} in
  let r := sample_PutStream accepting_Store src in
  always_succeeds accepting_Store
  /\ rterm src = EOF
  /\ lengthZ (rdata src) < 5120 * 134217728
  /\ exists puts Parts,
       ret_calls r =
         call_NewMultipartUpload :: puts ++ [call_CompleteMultipartUpload Parts]
       /\ Forall (fun x => is_put x = true) puts
       /\ concat (put_data <$> puts) = rdata src
       /\ lengthZ puts = lengthZ (rdata src) / 134217728 + 1
       /\ ret_n r = lengthZ (rdata src)
       /\ ret_err r = None
       /\ ret_site r = ret_completed.
Proof.
  cbv zeta.
  split; [exact accepting_Store_always_succeeds|]. split; [reflexivity|].
  split; [vm_compute; reflexivity|].
  apply (PutStream_round_trip amd64_conv (sample_Hash Byte.x01)
           (sample_Hash Byte.x02) sample_Getenv accepting_Store "bucket" "object"
           {| rdata := sample_bytes; rterm := EOF |} ∅
           accepting_Store_always_succeeds eq_refl).
  vm_compute. reflexivity.
Defined.

Lemma PutStream_stops_at_cap_witness :
  let src := {| rdata := cap_stream; rterm := Fault "connection reset" |} in
  let r := sample_PutStream accepting_Store src in
  accepts_nonempty_parts accepting_Store
  /\ 5120 * 134217728 <= lengthZ (rdata src)
  /\ exists uploadID puts Parts,
       NewMultipartUpload accepting_Store "bucket" "object" ∅ = inl uploadID
       /\ ret_calls r =
            call_NewMultipartUpload :: puts ++ [call_CompleteMultipartUpload Parts]
       /\ Forall (fun x => is_put x = true) puts
       /\ lengthZ puts = 5120
       /\ concat (put_data <$> puts)
          = take (Z.to_nat (5120 * 134217728)) (rdata src)
       /\ ret_n r = 5120 * 134217728
       /\ ret_err r
          = CompleteMultipartUpload accepting_Store "bucket" "object" uploadID Parts
       /\ ret_site r = ret_completed.
Proof.
  cbv zeta.
  assert (Hlen : 5120 * 134217728
                 <= lengthZ (rdata {| rdata := cap_stream;
                                      rterm := Fault "connection reset" |}))
    by (cbn [rdata]; rewrite cap_stream_length; lia).
  split; [exact accepting_Store_accepts_nonempty_parts|]. split; [exact Hlen|].
  exact (PutStream_stops_at_cap amd64_conv (sample_Hash Byte.x01)
           (sample_Hash Byte.x02) sample_Getenv accepting_Store "bucket" "object"
           {| rdata := cap_stream; rterm := Fault "connection reset" |} ∅
           accepting_Store_accepts_nonempty_parts Hlen).
Defined.

Lemma PutStream_empty_last_part_refused_witness :
  let src := {| rdata := one_part_stream; rterm := EOF |} in
  let r := PutStream amd64_conv (sample_Hash Byte.x01) (sample_Hash Byte.x02)
             sample_Getenv strict_Store "bucket" "object" src ∅ in
  accepts_nonempty_parts strict_Store
  /\ (forall uploadID n d m s,
        exists e, PutObjectPart strict_Store "bucket" "object" uploadID n 0 d m s
                  = inr e)
  /\ rterm src = EOF
  /\ 0 <= 1 < 5120
  /\ lengthZ (rdata src) = 1 * 134217728
  /\ exists puts e,
       ret_calls r =
         call_NewMultipartUpload :: puts ++
         [call_PutObjectPart (1 + 1) 0 [] (digest_of (sample_Hash Byte.x01) [])
            (digest_of (sample_Hash Byte.x02) []) (inr e)]
       /\ Forall put_ok puts
       /\ lengthZ puts = 1
       /\ concat (put_data <$> puts) = rdata src
       /\ ret_n r = lengthZ (rdata src)
       /\ ret_err r = Some e
       /\ ret_site r = ret_PutObjectPart_failed.
Proof.
  cbv zeta.
  assert (Hempty : forall uploadID n d m s,
            exists e, PutObjectPart strict_Store "bucket" "object" uploadID n 0 d m s
                      = inr e)
    by (intros; simpl; eauto).
  assert (Hlen : lengthZ (rdata {| rdata := one_part_stream; rterm := EOF |})
                 = 1 * 134217728)
    by (cbn [rdata]; rewrite one_part_stream_length; lia).
  split; [exact strict_Store_accepts_nonempty_parts|]. split; [exact Hempty|].
  split; [reflexivity|]. split; [lia|]. split; [exact Hlen|].
  exact (PutStream_empty_last_part_refused amd64_conv (sample_Hash Byte.x01)
           (sample_Hash Byte.x02) sample_Getenv strict_Store "bucket" "object"
           {| rdata := one_part_stream; rterm := EOF |} ∅ 1
           strict_Store_accepts_nonempty_parts Hempty eq_refl ltac:(lia) Hlen).
Defined.

Lemma PutStream_stream_breaks_witness :
  let r := sample_PutStream accepting_Store broken_stream in
  let full := lengthZ (rdata broken_stream) / 134217728 in
  accepts_nonempty_parts accepting_Store
  /\ rterm broken_stream <> EOF
  /\ lengthZ (rdata broken_stream) < 5120 * 134217728
  /\ exists puts,
       ret_calls r = call_NewMultipartUpload :: puts
       /\ Forall put_ok puts
       /\ lengthZ puts = full
       /\ accepted_bytes (ret_calls r) = full * 134217728
       /\ ret_n r = 0
       /\ ret_err r = Some (rterm broken_stream)
       /\ ret_site r = ret_read_failed
       /\ ret_tmpBuffer r
          = drop (Z.to_nat (full * 134217728)) (rdata broken_stream).
Proof.
  cbv zeta.
  assert (Hne : rterm broken_stream <> EOF)
    by (rewrite broken_stream_term; discriminate).
  assert (Hlen : lengthZ (rdata broken_stream) < 5120 * 134217728)
    by (rewrite broken_stream_length; lia).
  split; [exact accepting_Store_accepts_nonempty_parts|].
  split; [exact Hne|]. split; [exact Hlen|].
  exact (PutStream_stream_breaks amd64_conv (sample_Hash Byte.x01)
           (sample_Hash Byte.x02) sample_Getenv accepting_Store "bucket" "object"
           broken_stream ∅ accepting_Store_accepts_nonempty_parts Hne Hlen).
Defined.
